(** * sysjitter: the sampling loop, the statistics and the buffer sizing

    A shallow embedding of [sysjitter.c].  Unsigned 64-bit cycle counts
    ([stamp_t], [cycles_t]) and 32-bit [unsigned]/[int] values are integers
    of [Z] with the wrap-around of the C types written out.  A heap block
    is a list, a pointer into a block is an element offset, and a store
    outside its block has no defined result ([None]). *)

From Stdlib Require Import ZArith Lia SpecFloat.
From stdpp Require Import base tactics option list numbers sorting.
From stdpp Require Import strings.
From Stdlib Require Import Ascii.

Local Open Scope Z_scope.

(** ** Fixed-width arithmetic *)

Module Machine.

Definition two64 : Z := 2 ^ 64.
Definition two32 : Z := 2 ^ 32.
Definition two31 : Z := 2 ^ 31.

(** Arithmetic on [uint64_t]. *)
Definition wrap64 (z : Z) : Z := z mod two64.

(** Conversion to [unsigned]. *)
Definition to_unsigned (z : Z) : Z := z mod two32.

(** Conversion to [int]: the low 32 bits, read in two's complement. *)
Definition to_int (z : Z) : Z :=
  let w := z mod two32 in
  if w <? two31 then w else w - two32.

Definition INT_MAX : Z := two31 - 1.

End Machine.

Import Machine.

(** ** Data *)

Inductive command := WAIT | GO | STOP.

Record interruption := Interruption {
  ts   : Z;   (* stamp_t *)
  diff : Z    (* cycles_t *)
}.

#[global] Instance interruption_inhabited : Inhabited interruption :=
  populate (Interruption 0 0).

#[global] Instance interruption_eq_dec : EqDecision interruption.
Proof. solve_decision. Defined.

Record thread := Thread {
  core_i         : Z;
  (* Results generated during a test. *)
  cpu_mhz        : Z;
  interruptions  : list interruption;  (* the block of records *)
  c_interruption : nat;                (* cursor: offset into [interruptions] *)
  int_total      : Z;
  frc_start      : Z;
  frc_stop       : Z;
  (* Calculated by post-processing after the test. *)
  sorted         : list nat;           (* block of pointers into [interruptions] *)
  runtime        : Z;
  int_n          : Z;
  int_min        : Z;
  int_max        : Z;
  int_mean       : Z;
  int_median     : Z;
  int_90         : Z;
  int_99         : Z;
  int_999        : Z;
  int_9999       : Z;
  int_99999      : Z
}.

Record global := Global {
  max_interruptions : Z;
  runtime_secs      : Z;
  threshold_nsec    : Z;
  n_threads         : Z;
  cmd               : command;
  n_threads_started : Z;
  n_threads_ready   : Z;
  n_threads_running : Z;
  n_threads_finished : Z
}.

(** The records a thread holds: the slots below its cursor. *)
Definition records (t : thread) : list interruption :=
  take (c_interruption t) (interruptions t).

Definition set_sampling (mem : list interruption) (c : nat) (total : Z)
    (t : thread) : thread :=
  Thread (core_i t) (cpu_mhz t) mem c total (frc_start t) (frc_stop t)
         (sorted t) (runtime t) (int_n t) (int_min t) (int_max t)
         (int_mean t) (int_median t) (int_90 t) (int_99 t) (int_999 t)
         (int_9999 t) (int_99999 t).

(** ** The sampling loop, [doit]

    The loop runs against its environment: [go_reads] lists the values
    [frc] returns in the successive iterations that found [g.cmd == GO];
    the test at the head of the loop fails once they are used up.  [i] is
    the cursor, [i_end] the offset [g.max_interruptions]. *)

Fixpoint doit_loop (i_end : nat) (threshold_cycles : Z) (go_reads : list Z)
    (mem : list interruption) (i : nat) (prev_ts total : Z)
    : option (list interruption * nat * Z) :=
  match go_reads with
  | [] => Some (mem, i, total)
  | now :: rest =>
      if decide (i < length mem)%nat then
        let d := wrap64 (now - prev_ts) in
        let mem' := <[i := Interruption now d]> mem in
        if threshold_cycles <=? d then
          let total' := wrap64 (total + d) in
          if decide (S i = i_end) then Some (mem', S i, total')
          else doit_loop i_end threshold_cycles rest mem' (S i) now total'
        else doit_loop i_end threshold_cycles rest mem' i now total
      else None
  end.

Definition doit (g : global) (t : thread) (threshold_cycles : Z)
    (first_read : Z) (go_reads : list Z) : option thread :=
  '(mem, i, total) ← doit_loop (Z.to_nat (max_interruptions g))
                        threshold_cycles go_reads (interruptions t) 0
                        first_read 0;
  Some (set_sampling mem i total t).

(** What the loop sees: every iteration's timestamp and gap. *)
Fixpoint samples (prev_ts : Z) (reads : list Z) : list interruption :=
  match reads with
  | [] => []
  | now :: rest => Interruption now (wrap64 (now - prev_ts)) :: samples now rest
  end.

Definition hits (threshold_cycles prev_ts : Z) (reads : list Z)
    : list interruption :=
  filter (λ r, threshold_cycles ≤ diff r) (samples prev_ts reads).

Definition sum_diff (l : list interruption) : Z :=
  foldr (λ r acc, diff r + acc) 0 l.

(** The value of [prev_ts] once the loop has taken [reads]. *)
Definition last_read (prev_ts : Z) (reads : list Z) : Z :=
  foldl (λ _ now, now) prev_ts reads.

(** A block as [thread_init] leaves it: [g.max_interruptions] slots. *)
Definition block_ok (g : global) (t : thread) : Prop :=
  length (interruptions t) = Z.to_nat (max_interruptions g).

(** ** Allocation, [thread_init]

    [bytes] is an [int]; a negative value reaches [malloc] as a size
    beyond any heap, [malloc] returns [NULL] and [TEST] exits: no thread
    state results.  The records are zeroed by [memset]; the pointer block
    is left as [malloc] returns it and is taken as zeroes. *)

Definition sizeof_interruption : Z := 16.

Definition set_buffers (mem : list interruption) (c : nat) (ptrs : list nat)
    (t : thread) : thread :=
  Thread (core_i t) (cpu_mhz t) mem c (int_total t) (frc_start t) (frc_stop t)
         ptrs (runtime t) (int_n t) (int_min t) (int_max t)
         (int_mean t) (int_median t) (int_90 t) (int_99 t) (int_999 t)
         (int_9999 t) (int_99999 t).

Definition thread_init (g : global) (t : thread) : option thread :=
  let bytes := to_int (max_interruptions g * sizeof_interruption) in
  if bytes <? 0 then None
  else Some (set_buffers
               (replicate (Z.to_nat (bytes / sizeof_interruption))
                          (Interruption 0 0))
               0
               (replicate (Z.to_nat (max_interruptions g)) 0%nat) t).

(** ** Double precision, as far as the statistics use it

    [t->int_n * 0.9] converts the count to [double], multiplies in binary64
    (round to nearest, ties to even) and the cast to [int] drops the
    fraction.  The operations are those of the Standard Library's IEEE 754
    specification at precision 53: [double] expressions are evaluated in
    binary64, as on x86-64, AArch64 and PPC64. *)

Module Binary64.

Definition prec : Z := 53.
Definition emax : Z := 1024.

Definition of_uint (n : Z) : spec_float := binary_normalize prec emax n 0 false.

Definition mul : spec_float → spec_float → spec_float := SFmul prec emax.

(** The cast [(int) x]: defined when the truncated value fits an [int]. *)
Definition to_int (x : spec_float) : option Z :=
  match x with
  | S754_zero _ => Some 0
  | S754_finite s m e =>
      let a := if 0 <=? e then Z.pos m * 2 ^ e else Z.pos m / 2 ^ (- e) in
      let v := if s then - a else a in
      if (- two31 <=? v) && (v <=? INT_MAX) then Some v else None
  | _ => None
  end.

(** The literals, each the double nearest to the decimal written. *)
Definition c_0_9     : spec_float := S754_finite false 8106479329266893 (-53).
Definition c_0_99    : spec_float := S754_finite false 8917127262193582 (-53).
Definition c_0_999   : spec_float := S754_finite false 8998192055486251 (-53).
Definition c_0_9999  : spec_float := S754_finite false 9006298534815518 (-53).
Definition c_0_99999 : spec_float := S754_finite false 9007109182748445 (-53).

(** [(int) (n * c)] for an [unsigned] n. *)
Definition scale (n : Z) (c : spec_float) : option Z := to_int (mul (of_uint n) c).

End Binary64.

(** Round to nearest, ties to even, in integers: [N] with its [sh] low
    bits dropped.  The binary64 product is rounded so (lemma
    [scale_rne]). *)
Definition rne (N sh : Z) : Z :=
  let q := N / 2 ^ sh in
  let rem := N mod 2 ^ sh in
  if 2 * rem <? 2 ^ sh then q
  else if 2 * rem =? 2 ^ sh then (if Z.even q then q else q + 1)
  else q + 1.

(** ** Sorting

    The comparator returns the difference of two [uint64_t] gaps cast to
    [int].  [qsort] is the C library's; only the sign of the comparator
    matters to it.  It is taken here as an insertion sort. *)

Definition qsort_cmp_interruption (a b : interruption) : Z :=
  to_int (wrap64 (diff a - diff b)).

Fixpoint insert_by {A} (cmp : A → A → Z) (x : A) (l : list A) : list A :=
  match l with
  | [] => [x]
  | y :: l' => if cmp x y <=? 0 then x :: l else y :: insert_by cmp x l'
  end.

Definition qsort {A} (cmp : A → A → Z) (l : list A) : list A :=
  foldr (insert_by cmp) [] l.

(** The comparator as [qsort] applies it to two entries of [sorted]. *)
Definition cmp_ptr (mem : list interruption) (p q : nat) : Z :=
  qsort_cmp_interruption (mem !!! p) (mem !!! q).

Definition set_sorted (ptrs : list nat) (t : thread) : thread :=
  set_buffers (interruptions t) (c_interruption t) ptrs t.

(** [sorted[i] = &interruptions[i]] for [i] below [n]; a store outside the
    pointer block has no defined result, and neither has [qsort] on a
    negative [n], which it takes for a count beyond any block. *)
Definition unsort_interruptions (t : thread) : option thread :=
  let n := Z.to_nat (to_int (Z.of_nat (c_interruption t))) in
  if decide (n ≤ length (sorted t))%nat
  then Some (set_sorted (foldl (λ ptrs i, <[i := i]> ptrs) (sorted t) (seq 0 n)) t)
  else None.

Definition sort_interruptions (t : thread) : option thread :=
  let n := to_int (Z.of_nat (c_interruption t)) in
  t1 ← unsort_interruptions t;
  if n <? 0 then None
  else Some (set_sorted
               (qsort (cmp_ptr (interruptions t1)) (take (Z.to_nat n) (sorted t1))
                ++ drop (Z.to_nat n) (sorted t1)) t1).

(** ** Statistics, [thread_calc_stats] *)

(** [t->sorted[k]->diff] *)
Definition sorted_diff (t : thread) (k : Z) : option Z :=
  p ← sorted t !! Z.to_nat k;
  r ← interruptions t !! p;
  Some (diff r).

Definition set_stats (rt n mn mx mean med p90 p99 p999 p9999 p99999 : Z)
    (t : thread) : thread :=
  Thread (core_i t) (cpu_mhz t) (interruptions t) (c_interruption t)
         (int_total t) (frc_start t) (frc_stop t) (sorted t)
         rt n mn mx mean med p90 p99 p999 p9999 p99999.

(** The loop [for( i = t->interruptions; i != t->c_interruption; ++i )]. *)
Definition sum_loop (t : thread) : option Z :=
  if decide (c_interruption t ≤ length (interruptions t))%nat
  then Some (foldl (λ sum r, wrap64 (sum + diff r)) 0 (records t))
  else None.

Definition thread_calc_stats (t : thread) : option thread :=
  let rt := wrap64 (frc_stop t - frc_start t) in
  let n := to_unsigned (Z.of_nat (c_interruption t)) in
  if n =? 0 then Some (set_stats rt n 0 0 0 0 0 0 0 0 0 t)
  else
    t1 ← sort_interruptions t;
    mn ← sorted_diff t1 0;
    mx ← sorted_diff t1 (to_unsigned (n - 1));
    med ← sorted_diff t1 (n / 2);
    i90 ← Binary64.scale n Binary64.c_0_9;
    p90 ← sorted_diff t1 i90;
    i99 ← Binary64.scale n Binary64.c_0_99;
    p99 ← sorted_diff t1 i99;
    i999 ← Binary64.scale n Binary64.c_0_999;
    p999 ← sorted_diff t1 i999;
    i9999 ← Binary64.scale n Binary64.c_0_9999;
    p9999 ← sorted_diff t1 i9999;
    i99999 ← Binary64.scale n Binary64.c_0_99999;
    p99999 ← sorted_diff t1 i99999;
    sum ← sum_loop t1;
    Some (set_stats rt n mn mx (sum / n) med p90 p99 p999 p9999 p99999 t1).

(** The pointers [sort_interruptions] leaves in [sorted[0 .. n)]. *)
Definition order (t : thread) : list nat :=
  qsort (cmp_ptr (interruptions t)) (seq 0 (c_interruption t)).

(** The gaps in the order of [sorted]. *)
Definition ranked (t : thread) : list Z :=
  (λ p, diff (interruptions t !!! p)) <$> order t.

(** The gaps in the order of the buffer. *)
Definition gaps (t : thread) : list Z := diff <$> records t.

(** A thread whose cursor lies within both of its blocks and fits an [int]. *)
Definition well_formed (t : thread) : Prop :=
  (c_interruption t ≤ length (interruptions t))%nat
  ∧ (c_interruption t ≤ length (sorted t))%nat
  ∧ Z.of_nat (c_interruption t) ≤ INT_MAX.

(** [thread_calc_stats] in closed form. *)
Definition stats_of (t : thread) : thread :=
  let n := Z.of_nat (c_interruption t) in
  let rt := wrap64 (frc_stop t - frc_start t) in
  let rank k := ranked t !!! Z.to_nat k in
  if n =? 0 then set_stats rt 0 0 0 0 0 0 0 0 0 0 t
  else set_stats rt n (rank 0) (rank (n - 1))
         (wrap64 (sum_diff (records t)) / n)
         (rank (n / 2)) (rank (n * 9 / 10)) (rank (n * 99 / 100))
         (rank (n * 999 / 1000)) (rank (n * 9999 / 10000))
         (rank (n * 99999 / 100000))
         (set_sorted (order t ++ drop (c_interruption t) (sorted t)) t).

(** ** After the run, [post_test_checks]

    The array [threads] has [g.n_threads] entries.  What reaches [stderr]
    is kept as a list of lines; the elapsed time printed with a thread is
    kept as the cycles and the frequency it is computed from. *)

Inductive stderr_line :=
  | ThreadFinished (i : nat) (elapsed : Z) (mhz : Z) (max : Z)
  | IncreaseThreshold.

Inductive outcome := Returns | Exits (status : Z).

Definition overflowed (g : global) (t : thread) : bool :=
  Z.of_nat (c_interruption t) =? max_interruptions g.

Fixpoint post_test_loop (g : global) (i : nat) (threads : list thread)
    (early : bool) (out : list stderr_line) : bool * list stderr_line :=
  match threads with
  | [] => (early, out)
  | t :: rest =>
      if overflowed g t
      then post_test_loop g (S i) rest true
             (out ++ [ThreadFinished i (wrap64 (frc_stop t - frc_start t))
                                     (cpu_mhz t) (max_interruptions g)])
      else post_test_loop g (S i) rest early out
  end.

Definition post_test_checks (g : global) (threads : list thread)
    : list stderr_line * outcome :=
  let '(early, out) := post_test_loop g 0 threads false [] in
  if early then (out ++ [IncreaseThreshold], Exits 2) else (out, Returns).

(** The lines about single threads, in closed form. *)
Fixpoint overflow_report (g : global) (i : nat) (threads : list thread)
    : list stderr_line :=
  match threads with
  | [] => []
  | t :: rest =>
      if overflowed g t
      then ThreadFinished i (wrap64 (frc_stop t - frc_start t))
                          (cpu_mhz t) (max_interruptions g)
             :: overflow_report g (S i) rest
      else overflow_report g (S i) rest
  end.

(** A thread state that a run of [doit] on a fresh block has produced. *)
Definition sampled (g : global) (t' : thread) : Prop :=
  ∃ t threshold_cycles first_read go_reads,
    block_ok g t ∧ doit g t threshold_cycles first_read go_reads = Some t'.

(** ** Sizing the buffer for the real run, [calc_max_interruptions]

    [max] and [per_sec] are [int]s, the counts are [unsigned]: comparing
    and dividing convert the [int] to [unsigned].  A zero [g.runtime_secs]
    divides by zero. *)

Definition set_int_n (n : Z) (t : thread) : thread :=
  set_stats (runtime t) n (int_min t) (int_max t) (int_mean t) (int_median t)
            (int_90 t) (int_99 t) (int_999 t) (int_9999 t) (int_99999 t) t.

Definition set_max_interruptions (m : Z) (g : global) : global :=
  Global m (runtime_secs g) (threshold_nsec g) (n_threads g) (cmd g)
         (n_threads_started g) (n_threads_ready g) (n_threads_running g)
         (n_threads_finished g).

Definition count_threads (threads : list thread) : list thread :=
  map (λ t, set_int_n (to_unsigned (Z.of_nat (c_interruption t))) t) threads.

Definition max_count (threads : list thread) : Z :=
  foldl (λ max t, if to_unsigned max <? int_n t then to_int (int_n t) else max)
        0 threads.

Definition calc_max_interruptions (g : global) (threads : list thread)
    (runtime : Z) : option (global * list thread) :=
  let threads' := count_threads threads in
  let max := max_count threads' in
  if runtime_secs g =? 0 then None
  else
    let per_sec := to_int (to_unsigned max / runtime_secs g) in
    let per_sec := if per_sec <? 1000 then 1000 else per_sec in
    Some (set_max_interruptions
            (to_unsigned (to_int (to_int (per_sec * 2) * runtime))) g,
          threads').

(** ** Frequency calibration, [measure_cpu_mhz]

    [__measure_cpu_hz] times a million cycles against the wall clock; its
    successive results are the environment's.  The loop ends with the
    first estimate within a thousandth of the one before it. *)

Fixpoint measure_loop (mprev : Z) (estimates : list Z) : option Z :=
  match estimates with
  | [] => None
  | m :: rest =>
      let d := if mprev <? m then m - mprev else mprev - m in
      if m / 1000 <? d then measure_loop m rest
      else Some (to_unsigned (m / 1000000))
  end.

Definition measure_cpu_mhz (estimates : list Z) : option Z :=
  match estimates with
  | [] => None
  | mprev :: rest => measure_loop mprev rest
  end.

(** ** A worker thread, [thread_main]

    The thread is a program over the shared [global], its own [thread]
    and the log of what it has done so far; every primitive logs itself.
    The busy-waits depend on the other threads: they are logged and
    otherwise left to the environment. *)

Inductive counter := Started | Running | Finished.

Inductive event :=
  | EvMoveToCore (core : Z)
  | EvThreadInit
  | EvAtomicInc (c : counter)
  | EvWaitWhileCmdIsWait
  | EvMeasureCpuMhz
  | EvWaitUntilAll (c : counter)
  | EvFrcStart
  | EvDoit (threshold_cycles : Z)
  | EvFrcStop.

#[global] Instance counter_eq_dec : EqDecision counter.
Proof. solve_decision. Defined.

#[global] Instance event_eq_dec : EqDecision event.
Proof. solve_decision. Defined.

Record world := World {
  w_g   : global;
  w_t   : thread;
  w_log : list event
}.

Definition prog (A : Type) : Type := world → option (A * world).

#[global] Instance prog_ret : MRet prog := λ A a w, Some (a, w).
#[global] Instance prog_bind : MBind prog :=
  λ A B f m w, match m w with Some (a, w') => f a w' | None => None end.

Definition emit (e : event) : prog unit :=
  λ w, Some (tt, World (w_g w) (w_t w) (w_log w ++ [e])).

Definition get_thread : prog thread := λ w, Some (w_t w, w).
Definition get_global : prog global := λ w, Some (w_g w, w).
Definition put_thread (t : thread) : prog unit :=
  λ w, Some (tt, World (w_g w) t (w_log w)).
Definition put_global (g : global) : prog unit :=
  λ w, Some (tt, World g (w_t w) (w_log w)).
Definition lift {A} (o : option A) : prog A :=
  λ w, match o with Some a => Some (a, w) | None => None end.

Definition bump (c : counter) (g : global) : global :=
  match c with
  | Started =>
      Global (max_interruptions g) (runtime_secs g) (threshold_nsec g)
             (n_threads g) (cmd g) (to_unsigned (n_threads_started g + 1))
             (n_threads_ready g) (n_threads_running g) (n_threads_finished g)
  | Running =>
      Global (max_interruptions g) (runtime_secs g) (threshold_nsec g)
             (n_threads g) (cmd g) (n_threads_started g)
             (n_threads_ready g) (to_unsigned (n_threads_running g + 1))
             (n_threads_finished g)
  | Finished =>
      Global (max_interruptions g) (runtime_secs g) (threshold_nsec g)
             (n_threads g) (cmd g) (n_threads_started g)
             (n_threads_ready g) (n_threads_running g)
             (to_unsigned (n_threads_finished g + 1))
  end.

Definition set_timing (mhz start stop : Z) (t : thread) : thread :=
  Thread (core_i t) mhz (interruptions t) (c_interruption t) (int_total t)
         start stop (sorted t) (runtime t) (int_n t) (int_min t) (int_max t)
         (int_mean t) (int_median t) (int_90 t) (int_99 t) (int_999 t)
         (int_9999 t) (int_99999 t).

(** [TEST(x)]: the process exits when [x] fails. *)
Definition TEST (x : bool) : prog unit :=
  λ w, if x then Some (tt, w) else None.

(** The result is that of [sched_setaffinity]. *)
Definition move_to_core (core rc : Z) : prog Z :=
  emit (EvMoveToCore core);; mret rc.

Definition thread_init_p : prog unit :=
  g ← get_global; t ← get_thread;
  t' ← lift (thread_init g t);
  put_thread t';; emit EvThreadInit.

Definition atomic_inc (c : counter) : prog unit :=
  g ← get_global; put_global (bump c g);; emit (EvAtomicInc c).

Definition measure_cpu_mhz_p (estimates : list Z) : prog Z :=
  mhz ← lift (measure_cpu_mhz estimates);
  emit EvMeasureCpuMhz;; mret mhz.

Definition doit_p (threshold_cycles first_read : Z) (go_reads : list Z)
    : prog unit :=
  g ← get_global; t ← get_thread;
  t' ← lift (doit g t threshold_cycles first_read go_reads);
  put_thread t';; emit (EvDoit threshold_cycles).

(** What the thread takes from outside during one run. *)
Record environment := Environment {
  env_affinity   : Z;        (* result of sched_setaffinity *)
  env_estimates  : list Z;   (* results of __measure_cpu_hz *)
  env_frc_start  : Z;
  env_first_read : Z;        (* the read that opens doit *)
  env_go_reads   : list Z;   (* the reads of doit's loop *)
  env_frc_stop   : Z
}.

Definition thread_main (env : environment) : prog unit :=
  t ← get_thread;
  rc ← move_to_core (core_i t) (env_affinity env);
  TEST (rc =? 0);;
  thread_init_p;;
  (* Don't bash the cpu until all threads have got going. *)
  atomic_inc Started;;
  emit EvWaitWhileCmdIsWait;;
  mhz ← measure_cpu_mhz_p (env_estimates env);
  t ← get_thread;
  put_thread (set_timing mhz (frc_start t) (frc_stop t) t);;
  (* Ensure we all start at the same time. *)
  atomic_inc Running;;
  emit (EvWaitUntilAll Running);;
  t ← get_thread;
  put_thread (set_timing (cpu_mhz t) (env_frc_start env) (frc_stop t) t);;
  emit EvFrcStart;;
  g ← get_global; t ← get_thread;
  doit_p (wrap64 (threshold_nsec g * cpu_mhz t) / 1000)
         (env_first_read env) (env_go_reads env);;
  t ← get_thread;
  put_thread (set_timing (cpu_mhz t) (frc_start t) (env_frc_stop env) t);;
  emit EvFrcStop;;
  atomic_inc Finished;;
  emit (EvWaitUntilAll Finished).

(** The position of the first occurrence of an event in a log. *)
Fixpoint position (e : event) (log : list event) : option nat :=
  match log with
  | [] => None
  | e' :: rest => if decide (e' = e) then Some 0%nat
                  else S <$> position e rest
  end.

(** [e1] and [e2] both happen, [e1] first. *)
Definition precedes (e1 e2 : event) (log : list event) : Prop :=
  match position e1 log, position e2 log with
  | Some i, Some j => (i < j)%nat
  | _, _ => False
  end.

(** The log of a whole run of the thread, started with an empty log. *)
Definition run_log (env : environment) (g : global) (t : thread)
    : option (list event) :=
  match thread_main env (World g t []) with
  | Some (_, w) => Some (w_log w)
  | None => None
  end.

(** The rate the sizing is meant to use: the largest count per second. *)
Definition observed_rate (g : global) (threads : list thread) : Z :=
  foldr Z.max 0
        (map (λ t, Z.of_nat (c_interruption t) / runtime_secs g) threads).

(** ** Sample data *)

Definition blank_thread (core : Z) : thread :=
  Thread core 0 [] 0 0 0 0 [] 0 0 0 0 0 0 0 0 0 0 0.

Definition demo_global : global := Global 3 1 100 1 WAIT 0 0 0 0.

Definition demo_thread : thread :=
  set_buffers (replicate 3 (Interruption 0 0)) 0 (replicate 3 0%nat)
              (blank_thread 0).

Definition demo_reads : list Z := [1010; 1500; 1505; 2200; 2210; 9000; 9999].

Definition demo_env : environment :=
  Environment 0 [2400000000; 2400100000] 900 1000 demo_reads 10000.

(** Two interruptions: one of 3000 cycles, one of 3000000000 cycles (a
    second at 3 GHz). *)
Definition wide_gaps : list Z := [3000; 3000000000].

(** A thread holding the given gaps, stamped 1, 2, ... *)
Definition thread_of_gaps (gaps : list Z) : thread :=
  set_buffers (imap (λ i d, Interruption (Z.of_nat (S i)) d) gaps)
              (length gaps) (replicate (length gaps) 0%nat) (blank_thread 0).

(** ** Conversions between cycles and time

    [cycles * 1000] is computed in [uint64_t]; dividing by a zero
    [cpu_mhz] has no result. *)

Definition cycles_to_ns (t : thread) (cycles : Z) : option Z :=
  if cpu_mhz t =? 0 then None else Some (wrap64 (cycles * 1000) / cpu_mhz t).

Definition cycles_to_us (t : thread) (cycles : Z) : option Z :=
  if cpu_mhz t =? 0 then None else Some (cycles / cpu_mhz t).

(** The threshold [thread_main] hands to [doit]:
    [(cycles_t) g.threshold_nsec * t->cpu_mhz / 1000]. *)
Definition threshold_cycles_of (g : global) (t : thread) : Z :=
  wrap64 (threshold_nsec g * cpu_mhz t) / 1000.

(** ** The cores of the threads, in [main]

    [cpus] is the affinity mask of the process, [nprocs] the number of
    configured processors.  [CPU_ISSET] of a bit the mask does not hold is
    0.  The scan starts at or below [nprocs], so the [while] loop ends
    within [nprocs - cur_proc] steps.  Reaching [nprocs] ends the program
    ([exit(1)]): no assignment results. *)

Definition CPU_ISSET (cpu : nat) (cpus : list bool) : bool :=
  default false (cpus !! cpu).

Definition CPU_COUNT (cpus : list bool) : nat :=
  length (filter (λ b, b = true) cpus).

(** [while (!CPU_ISSET(cur_proc, &cpus) && cur_proc != nprocs) ++cur_proc;] *)
Fixpoint skip_unset (cpus : list bool) (nprocs fuel cur_proc : nat) : nat :=
  match fuel with
  | O => cur_proc
  | S fuel' =>
      if negb (CPU_ISSET cur_proc cpus) && negb (cur_proc =? nprocs)%nat
      then skip_unset cpus nprocs fuel' (S cur_proc)
      else cur_proc
  end.

(** The loop over the threads: the [core_i] they are given, in order. *)
Fixpoint assign_cores (cpus : list bool) (nprocs n_cores cur_proc : nat)
    : option (list nat) :=
  match n_cores with
  | O => Some []
  | S n_left =>
      let cur := skip_unset cpus nprocs (nprocs - cur_proc) cur_proc in
      if decide (cur ≠ nprocs)
      then rest ← assign_cores cpus nprocs n_left (S cur); Some (cur :: rest)
      else None
  end.

(** The processors of the mask below [nprocs], from [cur_proc] on. *)
Definition usable_from (cpus : list bool) (nprocs cur_proc : nat) : list nat :=
  filter (λ cpu, CPU_ISSET cpu cpus = true) (seq cur_proc (nprocs - cur_proc)).

(** ** The list of cores on the command line, [parse_comma_sep_ranges]

    A C string is a [string].  [strtok_r] with the delimiter [","] yields
    the non-empty pieces between commas.  [sscanf] is the C library's: [%u]
    skips white space and matches an optionally signed decimal integer; a
    value that does not fit an [unsigned] leaves the behaviour undefined;
    white space in the format skips any white space; [%c] at the end of the
    input fails, which is what the counts 2 and 1 test for. *)

Definition isspace (c : ascii) : bool :=
  bool_decide (c ∈ [" "; "009"; "010"; "011"; "012"; "013"]%char).

Definition digit_of (c : ascii) : option Z :=
  let n := Z.of_N (N_of_ascii c) in
  if (48 <=? n) && (n <=? 57) then Some (n - 48) else None.

Fixpoint skip_space (s : string) : string :=
  match s with
  | String c s' => if isspace c then skip_space s' else s
  | EmptyString => s
  end.

Fixpoint scan_digits (s : string) (acc : Z) : Z * string :=
  match s with
  | String c s' =>
      match digit_of c with
      | Some d => scan_digits s' (acc * 10 + d)
      | None => (acc, s)
      end
  | EmptyString => (acc, s)
  end.

Inductive conversion :=
  | Failed
  | Unrepresentable
  | Stored (v : Z) (rest : string).

(** The directive [%u] with an [unsigned] to store into. *)
Definition scan_unsigned (s : string) : conversion :=
  let s := skip_space s in
  let '(neg, s) := match s with
                   | String "-" s' => (true, s')
                   | String "+" s' => (false, s')
                   | _ => (false, s)
                   end in
  match s with
  | String c s' =>
      match digit_of c with
      | Some d =>
          let '(v, rest) := scan_digits s' d in
          if (v <? two32) && (negb neg || (v =? 0)) then Stored v rest
          else Unrepresentable
      | None => Failed
      end
  | EmptyString => Failed
  end.

Inductive range_scan :=
  | IsRange (low high : Z)
  | NotRange
  | RangeUndefined.

(** [sscanf(t, "%u - %u%c", &low, &high, &dummy) == 2] *)
Definition scan_range (t : string) : range_scan :=
  match scan_unsigned t with
  | Failed => NotRange
  | Unrepresentable => RangeUndefined
  | Stored low r =>
      match skip_space r with
      | String "-" r' =>
          match scan_unsigned r' with
          | Failed => NotRange
          | Unrepresentable => RangeUndefined
          | Stored high EmptyString => IsRange low high
          | Stored high _ => NotRange
          end
      | _ => NotRange
      end
  end.

(** The pieces between commas, empty ones included. *)
Fixpoint segments (s : string) : list string :=
  match s with
  | EmptyString => [EmptyString]
  | String c s' =>
      if decide (c = ","%char) then EmptyString :: segments s'
      else match segments s' with
           | piece :: pieces => String c piece :: pieces
           | [] => [String c EmptyString]
           end
  end.

(** The tokens the successive calls of [strtok_r] return. *)
Definition strtok_all (s : string) : list string :=
  filter (λ piece, piece ≠ EmptyString) (segments s).

Inductive parse_result :=
  | Parsed (cores : list Z)   (* returns true, with the list *)
  | Rejected                  (* returns false *)
  | NoResult.                 (* an undefined conversion, or a loop without end *)

(** [low, low + 1, ..., high] *)
Definition range_values (low high : Z) : list Z :=
  (λ i, low + Z.of_nat i) <$> seq 0 (Z.to_nat (high - low + 1)).

(** [append_int]: one more [int] at the end of the list.  The length is an
    [int] too: it cannot pass [INT_MAX]. *)
Definition append_int (lst : list Z) (val : Z) : option (list Z) :=
  if Z.of_nat (length lst) <? INT_MAX then Some (lst ++ [to_int val]) else None.

(** [for( ; low <= high; ++low ) append_int(list, list_len, low);] *)
Fixpoint append_each (vals : list Z) (lst : list Z) : option (list Z) :=
  match vals with
  | [] => Some lst
  | val :: vals' => lst' ← append_int lst val; append_each vals' lst'
  end.

(** The loop over the tokens.  With [high] at [UINT_MAX] the test
    [low <= high] never fails. *)
Fixpoint parse_tokens (tokens : list string) (lst : list Z) : parse_result :=
  match tokens with
  | [] => Parsed lst
  | t :: rest =>
      match scan_range t with
      | IsRange low high =>
          if (low <=? high) && (high =? two32 - 1) then NoResult
          else match append_each (range_values low high) lst with
               | Some lst' => parse_tokens rest lst'
               | None => NoResult
               end
      | RangeUndefined => NoResult
      | NotRange =>
          match scan_unsigned t with
          | Stored low EmptyString =>
              match append_int lst low with
              | Some lst' => parse_tokens rest lst'
              | None => NoResult
              end
          | Unrepresentable => NoResult
          | _ => Rejected
          end
      end
  end.

Definition parse_comma_sep_ranges (csr_in : string) : parse_result :=
  parse_tokens (strtok_all csr_in) [].

(** Decimal digits, as [printf] writes a non-negative [%d] or [%u]. *)
Definition digit_char (d : Z) : ascii := ascii_of_N (Z.to_N (48 + d)).

Fixpoint dec_go (fuel : nat) (n : Z) (tail : string) : string :=
  match fuel with
  | O => tail
  | S fuel' =>
      let tail' := String (digit_char (n mod 10)) tail in
      if n / 10 =? 0 then tail' else dec_go fuel' (n / 10) tail'
  end.

Definition dec (n : Z) : string := dec_go (S (Z.to_nat (Z.log2 n))) n EmptyString.

(** A list of cores as one would write it: single cores and ranges. *)
Inductive item :=
  | One (core : Z)
  | Span (low high : Z).

Definition render_item (it : item) : string :=
  match it with
  | One core => dec core
  | Span low high => dec low +:+ String "-" (dec high)
  end.

Fixpoint render (items : list item) : string :=
  match items with
  | [] => EmptyString
  | [it] => render_item it
  | it :: rest => render_item it +:+ String "," (render rest)
  end.

Definition expand (it : item) : list Z :=
  match it with
  | One core => [to_int core]
  | Span low high => to_int <$> range_values low high
  end.

Definition item_ok (it : item) : Prop :=
  match it with
  | One core => 0 ≤ core < two32
  | Span low high =>
      0 ≤ low < two32 ∧ 0 ≤ high < two32 ∧ (low ≤ high → high < two32 - 1)
  end.

(** ** The threads [main] sets up

    A stretch of [main] goes on with a value, ends the program with a
    status, or has no defined result. *)
Inductive outcome_of (A : Type) :=
  | Continues (a : A)
  | Exit (status : Z)
  | Undefined.
Arguments Continues {A} a.
Arguments Exit {A} status.
Arguments Undefined {A}.

(** Without [--cores] there is one thread for each processor of the mask;
    with it, one for each core the list names.  The cores are then given
    out by the loop above.  A badly formatted list ends the program with
    status 2.  [malloc] is taken to succeed. *)
Definition main_cores (cores_opt : option string) (cpus : list bool)
    (nprocs : nat) : outcome_of (list nat) :=
  let n_cores :=
    match cores_opt with
    | None => inl (CPU_COUNT cpus)
    | Some arg =>
        match parse_comma_sep_ranges arg with
        | Parsed cores => inl (length cores)
        | Rejected => inr (Exit 2)
        | NoResult => inr Undefined
        end
    end in
  match n_cores with
  | inl n =>
      match assign_cores cpus nprocs n 0 with
      | Some core_i => Continues core_i
      | None => Exit 1
      end
  | inr stop => stop
  end.

(** ** The raw files, [write_raw]

    One file for each thread, named after [outf] and the core of the
    thread, padded with zeros to the width of the largest core.  The name
    is built in an array of [strlen(outf) + 10] bytes.  [fopen_ok i] tells
    whether the file of thread [i] could be opened.  What is kept of a file
    is its name and the thread [write_thread_raw] writes to it. *)

(** [%d] *)
Definition fmt_d (v : Z) : string :=
  if v <? 0 then String "-" (dec (- v)) else dec v.

Fixpoint zeros (n : nat) (s : string) : string :=
  match n with
  | O => s
  | S n' => String "0" (zeros n' s)
  end.

(** [%0*d]: zeros between the sign and the digits, up to the width. *)
Definition fmt_0d (width : nat) (v : Z) : string :=
  if v <? 0
  then String "-" (zeros (width - S (String.length (dec (- v)))) (dec (- v)))
  else zeros (width - String.length (dec v)) (dec v).

Definition max_core (threads : list thread) : Z :=
  foldl (λ max_core_i t, if max_core_i <? core_i t then core_i t else max_core_i)
        (-1) threads.

(** [sprintf(fname, "%s.%0*d", outf, core_digits, threads[i].core_i)] *)
Definition raw_name (outf : string) (core_digits : nat) (t : thread) : string :=
  outf +:+ String "." (fmt_0d core_digits (core_i t)).

Definition fits (outf s : string) : bool :=
  (String.length s <? String.length outf + 10)%nat.

Fixpoint write_raw_loop (fopen_ok : nat → bool) (outf : string)
    (core_digits : nat) (i : nat) (threads : list thread) (rc : Z)
    (written : list (string * thread)) : option (Z * list (string * thread)) :=
  match threads with
  | [] => Some (rc, written)
  | t :: rest =>
      let fname := raw_name outf core_digits t in
      if fits outf fname
      then if fopen_ok i
           then write_raw_loop fopen_ok outf core_digits (S i) rest rc
                               (written ++ [(fname, t)])
           else write_raw_loop fopen_ok outf core_digits (S i) rest 3 written
      else None
  end.

Definition write_raw (fopen_ok : nat → bool) (threads : list thread)
    (outf : string) : option (Z * list (string * thread)) :=
  let fname := fmt_d (max_core threads) in
  if fits outf fname
  then write_raw_loop fopen_ok outf (String.length fname) 0 threads 0 []
  else None.

(** ** The table of a raw file, [write_thread_raw]

    The rows of the table, as the numbers handed to [fprintf]; the lines
    above the table, which print floating-point figures, are left out.
    The gap is printed with [PRId64], as a signed number.  With
    [g.sort_raw] the rows have no delta and follow [sorted], which the
    function has [sort_interruptions] fill. *)
Record raw_row := RawRow {
  row_timestamp : Z;         (* nsec since [frc_start] *)
  row_delta     : option Z;  (* usec since the row before *)
  row_cycles    : Z;
  row_nsec      : Z
}.

Definition to_int64 (z : Z) : Z :=
  let w := wrap64 z in
  if w <? 2 ^ 63 then w else w - two64.

Definition raw_row_of (t : thread) (delta : option Z) (i : interruption)
    : option raw_row :=
  stamp ← cycles_to_ns t (wrap64 (ts i - frc_start t));
  us ← match delta with
       | Some d => Some <$> cycles_to_us t d
       | None => Some None
       end;
  ns ← cycles_to_ns t (diff i);
  Some (RawRow stamp us (to_int64 (diff i)) ns).

(** [for( ; i < t->c_interruption; prev = i, ++i )] *)
Fixpoint raw_rows_from (t : thread) (prev : interruption)
    (rs : list interruption) : option (list raw_row) :=
  match rs with
  | [] => Some []
  | i :: rest =>
      row ← raw_row_of t (Some (wrap64 (ts i - ts prev))) i;
      rows ← raw_rows_from t i rest;
      Some (row :: rows)
  end.

Definition write_thread_raw (sort_raw : bool) (t : thread)
    : option (thread * list raw_row) :=
  let n_interruptions := to_int (Z.of_nat (c_interruption t)) in
  if n_interruptions =? 0 then Some (t, [])
  else if negb sort_raw then
    if decide (c_interruption t ≤ length (interruptions t))%nat then
      match records t with
      | [] => Some (t, [])
      | first :: _ => rows ← raw_rows_from t first (records t); Some (t, rows)
      end
    else None
  else
    t1 ← sort_interruptions t;
    rows ← mapM (λ j, p ← sorted t1 !! j;
                      i ← interruptions t1 !! p;
                      raw_row_of t1 None i)
                (seq 0 (Z.to_nat n_interruptions));
    Some (t1, rows).

(** ** The command line, in [main]

    [argv] is the command line after the name of the program.  The
    settings are what the options write: [g.max_interruptions],
    [raw_prefix], [cores_opt], [runtime], [g.sort_raw], [g.verbose].  The
    value of [--runtime] is scanned with [%u] and held in an [int]. *)
Record settings := Settings {
  opt_max_interruptions : Z;
  raw_prefix            : option string;
  cores_opt             : option string;
  opt_runtime           : Z;
  sort_raw              : Z;
  verbose               : Z
}.

(** [g.max_interruptions = 1000000], [runtime = 70], the rest unset. *)
Definition initial_settings : settings := Settings 1000000 None None 70 0 0.

(** [argv[0][0] == '-'] *)
Definition dash_first (arg : string) : bool :=
  match arg with
  | String "-" _ => true
  | _ => false
  end.

(** [argc > 1 && sscanf(argv[1], "%u%c", &x, &dummy) == 1]: the number
    stored when the test holds; no answer when the number does not fit. *)
Definition number_follows (rest : list string) : option (option Z) :=
  match rest with
  | [] => Some None
  | value :: _ =>
      match scan_unsigned value with
      | Stored n EmptyString => Some (Some n)
      | Unrepresentable => None
      | _ => Some None
      end
  end.

(** [argc > 1], with [argv[1]] *)
Definition value_follows (rest : list string) : option string := head rest.

(** The body of the loop once [argv[0]] starts with a dash: the new
    settings, and whether the option took [argv[1]] as its value. *)
Definition option_step (arg : string) (rest : list string) (s : settings)
    : outcome_of (settings * bool) :=
  match (if bool_decide (arg = "--max") then number_follows rest else Some None) with
  | None => Undefined
  | Some (Some n) =>
      Continues (Settings n (raw_prefix s) (cores_opt s) (opt_runtime s)
                          (sort_raw s) (verbose s), true)
  | Some None =>
  match (if bool_decide (arg = "--raw") then value_follows rest else None) with
  | Some value =>
      Continues (Settings (opt_max_interruptions s) (Some value) (cores_opt s)
                          (opt_runtime s) (sort_raw s) (verbose s), true)
  | None =>
  match (if bool_decide (arg = "--cores") then value_follows rest else None) with
  | Some value =>
      Continues (Settings (opt_max_interruptions s) (raw_prefix s) (Some value)
                          (opt_runtime s) (sort_raw s) (verbose s), true)
  | None =>
  match (if bool_decide (arg = "--runtime") then number_follows rest else Some None) with
  | None => Undefined
  | Some (Some n) =>
      Continues (Settings (opt_max_interruptions s) (raw_prefix s) (cores_opt s)
                          (to_int n) (sort_raw s) (verbose s), true)
  | Some None =>
      if bool_decide (arg = "--sort")
      then Continues (Settings (opt_max_interruptions s) (raw_prefix s)
                               (cores_opt s) (opt_runtime s) 1 (verbose s),
                      false)
      else if bool_decide (arg = "--verbose")
      then Continues (Settings (opt_max_interruptions s) (raw_prefix s)
                               (cores_opt s) (opt_runtime s) (sort_raw s) 1,
                      false)
      else if bool_decide (arg = "--help") then Exit 0
      else if bool_decide (arg = "--version") then Exit 0
      else Exit 1
  end end end end.

(** [for( ; argc; --argc, ++argv )]: the settings and what is left of the
    command line when the loop ends. *)
Fixpoint options_loop (argv : list string) (s : settings)
    : outcome_of (settings * list string) :=
  match argv with
  | [] => Continues (s, [])
  | arg :: rest =>
      if negb (dash_first arg) then Continues (s, argv)
      else match option_step arg rest s with
           | Continues (s', false) => options_loop rest s'
           | Continues (s', true) =>
               match rest with
               | _ :: rest' => options_loop rest' s'
               | [] => Undefined
               end
           | Exit status => Exit status
           | Undefined => Undefined
           end
  end.

(** The settings and [g.threshold_nsec] [main] goes on with. *)
Definition main_args (argv : list string) : outcome_of (settings * Z) :=
  match options_loop argv initial_settings with
  | Continues (s, [threshold]) =>
      match scan_unsigned threshold with
      | Stored n EmptyString => Continues (s, n)
      | Unrepresentable => Undefined
      | _ => Exit 1
      end
  | Continues (s, _) => Exit 1
  | Exit status => Exit status
  | Undefined => Undefined
  end.

(** The options as one would write them, and what each is meant to set. *)
Inductive option_arg :=
  | OptMax (n : Z)
  | OptRaw (prefix : string)
  | OptCores (cores : string)
  | OptRuntime (seconds : Z)
  | OptSort
  | OptVerbose.

Definition render_option (o : option_arg) : list string :=
  match o with
  | OptMax n => ["--max"; dec n]
  | OptRaw prefix => ["--raw"; prefix]
  | OptCores cores => ["--cores"; cores]
  | OptRuntime seconds => ["--runtime"; dec seconds]
  | OptSort => ["--sort"]
  | OptVerbose => ["--verbose"]
  end.

Definition apply_option (s : settings) (o : option_arg) : settings :=
  match o with
  | OptMax n =>
      Settings n (raw_prefix s) (cores_opt s) (opt_runtime s) (sort_raw s)
               (verbose s)
  | OptRaw prefix =>
      Settings (opt_max_interruptions s) (Some prefix) (cores_opt s)
               (opt_runtime s) (sort_raw s) (verbose s)
  | OptCores cores =>
      Settings (opt_max_interruptions s) (raw_prefix s) (Some cores)
               (opt_runtime s) (sort_raw s) (verbose s)
  | OptRuntime seconds =>
      Settings (opt_max_interruptions s) (raw_prefix s) (cores_opt s)
               (to_int seconds) (sort_raw s) (verbose s)
  | OptSort =>
      Settings (opt_max_interruptions s) (raw_prefix s) (cores_opt s)
               (opt_runtime s) 1 (verbose s)
  | OptVerbose =>
      Settings (opt_max_interruptions s) (raw_prefix s) (cores_opt s)
               (opt_runtime s) (sort_raw s) 1
  end.

Definition option_ok (o : option_arg) : Prop :=
  match o with
  | OptMax n | OptRuntime n => 0 ≤ n < two32
  | _ => True
  end.

(** ** The cycle counter on x86-64, [frc]

    [rdtsc] leaves the counter in two 32-bit halves. *)
Definition frc_x86_64 (low high : Z) : Z :=
  Z.lor (wrap64 (Z.shiftl high 32)) low.

(** ** Properties of the sampling loop *)

Section SamplingLoop.

Variable i_end : nat.
Variable threshold_cycles : Z.

Lemma take_insert_here {A} (l : list A) (i : nat) (x : A) :
  (i < length l)%nat → take (S i) (<[i := x]> l) = take i l ++ [x].
Proof.
  intros Hi.
  rewrite (take_S_r _ _ x) by (by apply list_lookup_insert_eq).
  by rewrite take_insert_ge by lia.
Qed.

Lemma sum_diff_app (l k : list interruption) :
  sum_diff (l ++ k) = sum_diff l + sum_diff k.
Proof. induction l as [|r l IH]; simpl; [done | rewrite IH; lia]. Qed.

Lemma wrap64_add_l (a b : Z) : wrap64 (wrap64 a + b) = wrap64 (a + b).
Proof. unfold wrap64. by rewrite Zplus_mod_idemp_l. Qed.

Lemma wrap64_idem (a : Z) : wrap64 (wrap64 a) = wrap64 a.
Proof. unfold wrap64. apply Zmod_mod. Qed.

Lemma hits_cons (prev_ts now : Z) (rest : list Z) :
  hits threshold_cycles prev_ts (now :: rest)
  = if threshold_cycles <=? wrap64 (now - prev_ts)
    then Interruption now (wrap64 (now - prev_ts))
           :: hits threshold_cycles now rest
    else hits threshold_cycles now rest.
Proof.
  unfold hits. simpl. destruct (Z.leb_spec threshold_cycles (wrap64 (now - prev_ts))).
  - by rewrite filter_cons_True.
  - rewrite filter_cons_False; [done | simpl; lia].
Qed.

(** The loop invariant, as a closed form of the final state: the
    records below the cursor are the old ones followed by the first
    [i_end - i] samples that reach the threshold. *)
Lemma doit_loop_spec (reads : list Z) :
  ∀ (mem : list interruption) (i : nat) (prev_ts total : Z),
    (i < i_end ≤ length mem)%nat →
    wrap64 total = total →
    ∃ mem' i' total',
      doit_loop i_end threshold_cycles reads mem i prev_ts total
        = Some (mem', i', total')
      ∧ take i' mem'
        = take i mem ++ take (i_end - i) (hits threshold_cycles prev_ts reads)
      ∧ i' = (i + length (take (i_end - i)
                            (hits threshold_cycles prev_ts reads)))%nat
      ∧ total' = wrap64 (total + sum_diff
                   (take (i_end - i) (hits threshold_cycles prev_ts reads)))
      ∧ length mem' = length mem.
Proof.
  induction reads as [|now rest IH]; intros mem i prev_ts total Hi Htot.
  - exists mem, i, total. unfold hits. simpl. rewrite filter_nil, take_nil, app_nil_r.
    simpl. rewrite Z.add_0_r. repeat split; try done.
  - simpl. rewrite hits_cons.
    destruct (decide (i < length mem)%nat) as [Hlt|]; [|lia].
    set (d := wrap64 (now - prev_ts)).
    set (mem1 := <[i := Interruption now d]> mem).
    assert (Hlen1 : length mem1 = length mem) by apply length_insert.
    destruct (threshold_cycles <=? d) eqn:Hd.
    + replace (i_end - i)%nat with (S (i_end - S i)) by lia.
      rewrite firstn_cons.
      destruct (decide (S i = i_end)) as [Hend|Hend].
      * exists mem1, (S i), (wrap64 (total + d)).
        replace (i_end - S i)%nat with 0%nat by lia. simpl.
        rewrite Z.add_0_r. repeat split; try done; [|lia].
        by apply take_insert_here.
      * destruct (IH mem1 (S i) now (wrap64 (total + d)))
          as (mem' & i' & total' & Hrun & Htake & Hi' & Htot' & Hlen');
          [lia | apply wrap64_idem |].
        exists mem', i', total'. split; [done|].
        split; [|split; [|split]].
        -- rewrite Htake. unfold mem1. rewrite take_insert_here by done.
           by rewrite <- app_assoc.
        -- simpl. lia.
        -- rewrite Htot'. simpl. rewrite wrap64_add_l. f_equal. lia.
        -- lia.
    + destruct (IH mem1 i now total)
        as (mem' & i' & total' & Hrun & Htake & Hi' & Htot' & Hlen');
        [lia | done |].
      exists mem', i', total'. split; [done|].
      split; [|split; [|split]]; try done; [|lia].
      rewrite Htake. unfold mem1. by rewrite take_insert_ge by lia.
Qed.

(** With no room at all the first store is already outside the block. *)
Lemma doit_loop_no_room (now : Z) (rest : list Z) (i : nat) (prev_ts total : Z) :
  doit_loop i_end threshold_cycles (now :: rest) [] i prev_ts total = None.
Proof. simpl. destruct (decide (i < 0)%nat); [lia | done]. Qed.

End SamplingLoop.

Section Doit.

Variable g : global.
Variable threshold_cycles : Z.

Lemma length_hits_le (prev_ts : Z) (reads : list Z) :
  (length (hits threshold_cycles prev_ts reads) ≤ length reads)%nat.
Proof.
  revert prev_ts. induction reads as [|now rest IH]; intros prev_ts.
  - done.
  - rewrite hits_cons. destruct (_ <=? _); simpl; specialize (IH now); lia.
Qed.

(** The loop always comes to an end on a block with room. *)
Lemma doit_defined (t : thread) (first_read : Z) (go_reads : list Z) :
  block_ok g t → 0 < max_interruptions g →
  is_Some (doit g t threshold_cycles first_read go_reads).
Proof.
  intros Hblock Hcap. unfold doit.
  destruct (doit_loop_spec (Z.to_nat (max_interruptions g)) threshold_cycles
              go_reads (interruptions t) 0 first_read 0)
    as (mem' & i' & total' & Hrun & _);
    [unfold block_ok in Hblock; lia | done |].
  rewrite Hrun. simpl. eauto.
Qed.

(** The final state in closed form. *)
Lemma doit_spec (t t' : thread) (first_read : Z) (go_reads : list Z) :
  block_ok g t →
  doit g t threshold_cycles first_read go_reads = Some t' →
  records t' = take (Z.to_nat (max_interruptions g))
                 (hits threshold_cycles first_read go_reads)
  ∧ c_interruption t' = length (records t')
  ∧ int_total t' = wrap64 (sum_diff (records t'))
  ∧ length (interruptions t') = length (interruptions t).
Proof.
  intros Hblock Hrun. unfold doit in Hrun. unfold block_ok in Hblock.
  destruct (decide (Z.to_nat (max_interruptions g) = 0%nat)) as [Hz|Hnz].
  - rewrite Hz in *.
    destruct (interruptions t) as [|] eqn:Hmem; [|done].
    destruct go_reads as [|now rest].
    + simpl in Hrun. injection Hrun as <-. unfold records. simpl.
      repeat split; done.
    + by rewrite doit_loop_no_room in Hrun.
  - destruct (doit_loop_spec (Z.to_nat (max_interruptions g)) threshold_cycles
                go_reads (interruptions t) 0 first_read 0)
      as (mem' & i' & total' & Hloop & Htake & Hi & Htot & Hlen);
      [lia | done |].
    rewrite Hloop in Hrun. simpl in Hrun. injection Hrun as <-.
    unfold records. simpl. rewrite Nat.sub_0_r in *. simpl in *.
    rewrite Htake. repeat split; done.
Qed.

End Doit.

(** ** What the samples are *)

Section Samples.

Variable threshold_cycles : Z.

Lemma samples_app (prev_ts : Z) (l1 l2 : list Z) :
  samples prev_ts (l1 ++ l2)
  = samples prev_ts l1 ++ samples (last_read prev_ts l1) l2.
Proof.
  revert prev_ts. induction l1 as [|now rest IH]; intros prev_ts; [done|].
  simpl. by rewrite IH.
Qed.

Lemma hits_app (prev_ts : Z) (l1 l2 : list Z) :
  hits threshold_cycles prev_ts (l1 ++ l2)
  = hits threshold_cycles prev_ts l1
    ++ hits threshold_cycles (last_read prev_ts l1) l2.
Proof. unfold hits. by rewrite samples_app, filter_app. Qed.

Lemma ts_samples (prev_ts : Z) (reads : list Z) :
  ts <$> samples prev_ts reads = reads.
Proof.
  revert prev_ts. induction reads as [|now rest IH]; intros prev_ts; [done|].
  simpl. by rewrite IH.
Qed.

(** Every sample pairs a read with the read just before it. *)
Lemma samples_lookup (prev_ts : Z) (reads : list Z) (j : nat) (r : interruption) :
  samples prev_ts reads !! j = Some r →
  ∃ before, (prev_ts :: reads) !! j = Some before
            ∧ reads !! j = Some (ts r)
            ∧ diff r = wrap64 (ts r - before).
Proof.
  revert prev_ts j. induction reads as [|now rest IH]; intros prev_ts j; [done|].
  destruct j as [|j]; simpl.
  - intros [= <-]. by exists prev_ts.
  - intros Hj. destruct (IH now j Hj) as (before & ? & ? & ?).
    by exists before.
Qed.

Lemma StronglySorted_filter {A} (R : relation A) (P : A → Prop)
    `{∀ x, Decision (P x)} (l : list A) :
  StronglySorted R l → StronglySorted R (filter P l).
Proof.
  induction 1 as [|x l Hl IH Hx]; [constructor|].
  rewrite filter_cons. destruct (decide (P x)); [|done].
  constructor; [done|].
  apply Forall_forall. intros y [_ Hy]%list_elem_of_filter.
  rewrite Forall_forall in Hx. by apply Hx.
Qed.

Lemma StronglySorted_take {A} (R : relation A) (n : nat) (l : list A) :
  StronglySorted R l → StronglySorted R (take n l).
Proof.
  intros Hl. rewrite <- (take_drop n l) in Hl.
  by apply StronglySorted_app_1_l in Hl.
Qed.

Lemma records_elem_sample (cap : nat) (prev_ts : Z) (reads : list Z)
    (r : interruption) :
  r ∈ take cap (hits threshold_cycles prev_ts reads) →
  r ∈ samples prev_ts reads ∧ threshold_cycles ≤ diff r.
Proof.
  intros Hr. apply (subseteq_take cap) in Hr.
  unfold hits in Hr. by apply list_elem_of_filter in Hr as [? ?].
Qed.

End Samples.

Lemma sum_loop_fold (l : list interruption) (a : Z) :
  foldl (λ sum r, wrap64 (sum + diff r)) (wrap64 a) l = wrap64 (a + sum_diff l).
Proof.
  revert a. induction l as [|r l IH]; intros a; simpl.
  - by rewrite Z.add_0_r.
  - rewrite wrap64_add_l, IH. f_equal. lia.
Qed.

Lemma doit_cursor_in_block (g : global) (t t' : thread) (thr r0 : Z) (reads : list Z) :
  block_ok g t → doit g t thr r0 reads = Some t' →
  (c_interruption t' ≤ Z.to_nat (max_interruptions g))%nat
  ∧ (c_interruption t' ≤ length (interruptions t'))%nat.
Proof.
  intros Hblock Hrun.
  destruct (doit_spec g thr t t' r0 reads Hblock Hrun) as (Hrec & Hc & _ & Hlen).
  rewrite Hc, Hlen, Hblock, Hrec. rewrite length_take. lia.
Qed.

(** C1: on a block of [g.max_interruptions] slots the loop ends (given room
    for at least one record), and the records it leaves are exactly the
    samples whose gap reaches [threshold_cycles], in order, up to the
    capacity; one more iteration appends its sample exactly when the gap
    reaches the threshold; so no record has a gap below the threshold. *)
Theorem doit_records_iff_threshold (g : global) (t : thread)
    (threshold_cycles first_read : Z) (go_reads : list Z) :
  block_ok g t →
  (0 < max_interruptions g →
   is_Some (doit g t threshold_cycles first_read go_reads))
  ∧ ∀ t', doit g t threshold_cycles first_read go_reads = Some t' →
      records t' = take (Z.to_nat (max_interruptions g))
                     (filter (λ r, threshold_cycles ≤ diff r)
                             (samples first_read go_reads))
      ∧ Forall (λ r, threshold_cycles ≤ diff r) (records t')
      ∧ ∀ now t'',
          (c_interruption t' < Z.to_nat (max_interruptions g))%nat →
          doit g t threshold_cycles first_read (go_reads ++ [now]) = Some t'' →
          let gap := wrap64 (now - last_read first_read go_reads) in
          records t'' = if threshold_cycles <=? gap
                        then records t' ++ [Interruption now gap]
                        else records t'.
Proof.
  intros Hblock. split; [by apply doit_defined|].
  intros t' Hrun.
  destruct (doit_spec g threshold_cycles t t' first_read go_reads Hblock Hrun)
    as (Hrec & Hc & _ & _).
  split; [done|]. split.
  - rewrite Hrec. apply Forall_forall. intros r Hr.
    by apply records_elem_sample in Hr as [_ ?].
  - intros now t'' Hroom Hrun' gap.
    destruct (doit_spec g threshold_cycles t t'' first_read (go_reads ++ [now])
                Hblock Hrun') as (Hrec' & _).
    rewrite Hrec', hits_app, hits_cons. fold gap.
    assert (Hshort : (length (hits threshold_cycles first_read go_reads)
                      < Z.to_nat (max_interruptions g))%nat).
    { rewrite Hc, Hrec, length_take in Hroom. lia. }
    assert (Hall : records t' = hits threshold_cycles first_read go_reads).
    { rewrite Hrec. apply take_ge. lia. }
    rewrite Hall. destruct (threshold_cycles <=? gap).
    + apply take_ge. rewrite length_app. simpl. lia.
    + unfold hits at 2. simpl. rewrite filter_nil, app_nil_r. apply take_ge. lia.
Qed.

(** C5: the total the loop accumulates is the sum of the gaps of the records
    it appended, modulo 2^64, and is what the summing loop of the
    statistics computes from the buffer. *)
Theorem doit_total_is_sum (g : global) (t : thread)
    (threshold_cycles first_read : Z) (go_reads : list Z) :
  block_ok g t →
  (0 < max_interruptions g →
   is_Some (doit g t threshold_cycles first_read go_reads))
  ∧ ∀ t', doit g t threshold_cycles first_read go_reads = Some t' →
      int_total t' = wrap64 (sum_diff (records t'))
      ∧ sum_loop t' = Some (int_total t').
Proof.
  intros Hblock. split; [by apply doit_defined|].
  intros t' Hrun.
  destruct (doit_spec g threshold_cycles t t' first_read go_reads Hblock Hrun)
    as (_ & _ & Htot & _).
  split; [done|].
  destruct (doit_cursor_in_block g t t' _ _ _ Hblock Hrun) as [_ Hin].
  unfold sum_loop. destruct (decide _) as [_|]; [|lia].
  rewrite Htot. f_equal. apply (sum_loop_fold (records t') 0).
Qed.

(** ** A counter that never steps back *)

Lemma samples_sorted_by_ts (prev_ts : Z) (reads : list Z) :
  StronglySorted Z.le reads →
  StronglySorted (λ a b, ts a ≤ ts b) (samples prev_ts reads).
Proof.
  revert prev_ts. induction reads as [|now rest IH]; intros prev_ts Hs.
  - constructor.
  - apply StronglySorted_inv in Hs as [Hrest Hnow]. simpl.
    constructor; [by apply IH|].
    apply Forall_forall. intros b Hb. simpl.
    rewrite Forall_forall in Hnow. apply Hnow.
    rewrite <- (ts_samples now rest). by apply list_elem_of_fmap_2.
Qed.

Lemma StronglySorted_lookup_le (l : list Z) (i j : nat) (x y : Z) :
  StronglySorted Z.le l → l !! i = Some x → l !! j = Some y → (i < j)%nat → x ≤ y.
Proof.
  intros Hs. revert i j. induction Hs as [|a l Hl IH Ha]; intros i j Hi Hj Hlt; [done|].
  destruct j as [|j]; [lia|]. destruct i as [|i]; simpl in *.
  - injection Hi as <-. rewrite Forall_forall in Ha. apply Ha.
    apply list_elem_of_lookup. eauto.
  - apply (IH i j); [done | done | lia].
Qed.

Lemma wrap64_small (z : Z) : 0 ≤ z < two64 → wrap64 z = z.
Proof. intros Hz. unfold wrap64. by apply Z.mod_small. Qed.

(** C9: if every read of the cycle counter is at least the one before it,
    the timestamps of the records do not decrease along the buffer, the gap
    of each record is its timestamp minus the read just before it, and
    running the loop for longer leaves the records already there as they
    are. *)
Theorem doit_timestamps_nondecreasing (g : global) (t : thread)
    (threshold_cycles first_read : Z) (go_reads : list Z) :
  block_ok g t →
  Sorted Z.le (first_read :: go_reads) →
  Forall (λ r, 0 ≤ r < two64) (first_read :: go_reads) →
  (0 < max_interruptions g →
   is_Some (doit g t threshold_cycles first_read go_reads))
  ∧ ∀ t', doit g t threshold_cycles first_read go_reads = Some t' →
      StronglySorted Z.le (ts <$> records t')
      ∧ (∀ k r, records t' !! k = Some r →
           ∃ j before, (first_read :: go_reads) !! j = Some before
                       ∧ go_reads !! j = Some (ts r)
                       ∧ diff r = ts r - before)
      ∧ (∀ more t'',
           doit g t threshold_cycles first_read (go_reads ++ more) = Some t'' →
           records t' `prefix_of` records t'').
Proof.
  intros Hblock Hmono Hrange. split; [by apply doit_defined|].
  intros t' Hrun.
  destruct (doit_spec g threshold_cycles t t' first_read go_reads Hblock Hrun)
    as (Hrec & _).
  apply Sorted_StronglySorted in Hmono; [|intros x y z; lia].
  split; [|split].
  - rewrite Hrec. apply (StronglySorted_fmap ts (λ a b, ts a ≤ ts b)); [done|].
    apply StronglySorted_take, StronglySorted_filter, samples_sorted_by_ts.
    by apply StronglySorted_inv in Hmono as [? _].
  - intros k r Hk.
    assert (Hr : r ∈ records t') by (apply list_elem_of_lookup; eauto).
    rewrite Hrec in Hr. apply records_elem_sample in Hr as [Hr _].
    apply list_elem_of_lookup in Hr as [j Hj].
    destruct (samples_lookup first_read go_reads j r Hj) as (before & Hb & Hts & Hd).
    exists j, before. split; [done|]. split; [done|].
    rewrite Hd. apply wrap64_small.
    assert (before ≤ ts r).
    { apply (StronglySorted_lookup_le (first_read :: go_reads) j (S j)); auto. }
    rewrite Forall_forall in Hrange.
    assert (0 ≤ before < two64).
    { apply Hrange, list_elem_of_lookup. eauto. }
    assert (0 ≤ ts r < two64).
    { apply Hrange, list_elem_of_lookup. exists (S j). done. }
    lia.
  - intros more t'' Hrun'.
    destruct (doit_spec g threshold_cycles t t'' first_read (go_reads ++ more)
                Hblock Hrun') as (Hrec' & _).
    rewrite Hrec', Hrec, hits_app, take_app. by eexists.
Qed.

(** ** The check after the run *)

Section PostTest.

Variable g : global.

Lemma post_test_loop_spec (threads : list thread) :
  ∀ i early out,
    post_test_loop g i threads early out
    = (early || existsb (overflowed g) threads,
       out ++ overflow_report g i threads).
Proof.
  induction threads as [|t rest IH]; intros i early out; simpl.
  - by rewrite orb_false_r, app_nil_r.
  - destruct (overflowed g t); rewrite IH; simpl.
    + by rewrite orb_true_r, <- app_assoc.
    + done.
Qed.

Lemma overflow_report_elem (threads : list thread) :
  ∀ i k e m x,
    ThreadFinished k e m x ∈ overflow_report g i threads
    ↔ ∃ t j, k = (i + j)%nat ∧ threads !! j = Some t
             ∧ overflowed g t = true
             ∧ e = wrap64 (frc_stop t - frc_start t)
             ∧ m = cpu_mhz t ∧ x = max_interruptions g.
Proof.
  induction threads as [|t rest IH]; intros i k e m x; simpl.
  - split; [by intros ?%elem_of_nil | by intros (? & ? & ? & ? & _)].
  - assert (Hrest :
      (∃ t0 j, k = (S i + j)%nat ∧ rest !! j = Some t0
               ∧ overflowed g t0 = true
               ∧ e = wrap64 (frc_stop t0 - frc_start t0)
               ∧ m = cpu_mhz t0 ∧ x = max_interruptions g)
      → ∃ t0 j, k = (i + j)%nat ∧ (t :: rest) !! j = Some t0
               ∧ overflowed g t0 = true
               ∧ e = wrap64 (frc_stop t0 - frc_start t0)
               ∧ m = cpu_mhz t0 ∧ x = max_interruptions g).
    { intros (t0 & j & -> & ? & ?). exists t0, (S j). split; [lia | done]. }
    destruct (overflowed g t) eqn:Hov.
    + rewrite elem_of_cons, IH. split.
      * intros [[= -> -> -> ->] | H]; [|by apply Hrest].
        exists t, 0%nat. rewrite Nat.add_0_r. done.
      * intros (t0 & [|j] & -> & Hj & Ht0 & -> & -> & ->); simpl in Hj.
        -- injection Hj as <-. left. by rewrite Nat.add_0_r.
        -- right. exists t0, j. split; [lia | done].
    + rewrite IH. split; [by apply Hrest|].
      intros (t0 & [|j] & -> & Hj & Ht0 & ?); simpl in Hj.
      * injection Hj as <-. congruence.
      * exists t0, j. split; [lia | done].
Qed.

Lemma existsb_overflowed (threads : list thread) :
  existsb (overflowed g) threads = true
  ↔ Exists (λ t, Z.of_nat (c_interruption t) = max_interruptions g) threads.
Proof.
  rewrite existsb_exists, Exists_exists. unfold overflowed.
  split; intros (t & Ht & Hc); exists t.
  - split; [by apply list_elem_of_In | lia].
  - split; [by apply list_elem_of_In | lia].
Qed.

End PostTest.

(** C2: a thread that has run the loop on its block holds no more records
    than [g.max_interruptions]; the check after the run exits with status 2
    exactly when some thread holds as many as that, having written one line
    for each such thread and no other and then the advice; otherwise it
    writes nothing and returns. *)
Theorem capacity_respected_and_overflow_reported (g : global)
    (threads : list thread) :
  0 ≤ max_interruptions g →
  Forall (sampled g) threads →
  Forall (λ t, Z.of_nat (c_interruption t) ≤ max_interruptions g
               ∧ length (records t) = c_interruption t) threads
  ∧ ((post_test_checks g threads).2 = Exits 2
     ↔ Exists (λ t, Z.of_nat (c_interruption t) = max_interruptions g) threads)
  ∧ ((post_test_checks g threads).2 = Returns
     ↔ Forall (λ t, Z.of_nat (c_interruption t) < max_interruptions g) threads)
  ∧ (∀ i, (∃ e m x, ThreadFinished i e m x ∈ (post_test_checks g threads).1)
          ↔ ∃ t, threads !! i = Some t
                 ∧ Z.of_nat (c_interruption t) = max_interruptions g)
  ∧ ((post_test_checks g threads).2 = Exits 2 →
     last (post_test_checks g threads).1 = Some IncreaseThreshold)
  ∧ ((post_test_checks g threads).2 = Returns →
     (post_test_checks g threads).1 = []).
Proof.
  intros Hcap Hs.
  assert (Hbound : Forall (λ t, Z.of_nat (c_interruption t) ≤ max_interruptions g
                     ∧ length (records t) = c_interruption t) threads).
  { eapply Forall_impl; [exact Hs|]. intros t' (t & thr & r0 & reads & Hb & Hrun).
    destruct (doit_cursor_in_block g t t' thr r0 reads Hb Hrun) as [H1 H2].
    split; [lia|]. unfold records. rewrite length_take. lia. }
  split; [done|].
  unfold post_test_checks. rewrite post_test_loop_spec. simpl.
  assert (Hnone : existsb (overflowed g) threads = false →
                  overflow_report g 0 threads = []).
  { clear. generalize 0%nat. induction threads as [|t rest IH]; intros i; [done|].
    simpl. destruct (overflowed g t); [done|]. simpl. apply IH. }
  assert (Hlines : ∀ out i,
    (∃ e m x, ThreadFinished i e m x ∈ out ++ [IncreaseThreshold])
    ↔ (∃ e m x, ThreadFinished i e m x ∈ out)).
  { intros out i. split; intros (e & m & x & H); exists e, m, x.
    - apply elem_of_app in H as [H | H]; [done|].
      by apply list_elem_of_singleton in H.
    - apply elem_of_app. by left. }
  assert (Hrep : ∀ i,
    (∃ e m x, ThreadFinished i e m x ∈ overflow_report g 0 threads)
    ↔ ∃ t, threads !! i = Some t
           ∧ Z.of_nat (c_interruption t) = max_interruptions g).
  { intros i. split.
    - intros (e & m & x & H).
      apply overflow_report_elem in H as (t & j & -> & Hj & Hov & _).
      exists t. split; [done|]. unfold overflowed in Hov. lia.
    - intros (t & Ht & Hc). exists (wrap64 (frc_stop t - frc_start t)),
        (cpu_mhz t), (max_interruptions g).
      apply overflow_report_elem. exists t, i. repeat split; try done.
      unfold overflowed. lia. }
  destruct (existsb (overflowed g) threads) eqn:Hb; simpl.
  - split; [split; [intros _; by apply existsb_overflowed | done]|]. split.
    + split; [done|]. intros Hall. apply existsb_overflowed in Hb.
      apply Exists_exists in Hb as (t & Ht & Hc).
      rewrite Forall_forall in Hall. specialize (Hall t Ht). lia.
    + split; [intros i; by rewrite Hlines|].
      split; [intros _; apply last_snoc | done].
  - split; [split; [done | intros H%existsb_overflowed; congruence]|]. split.
    + split; [|done]. intros _. apply Forall_forall. intros t Ht.
      rewrite Forall_forall in Hbound. destruct (Hbound t Ht) as [Hle _].
      destruct (decide (Z.of_nat (c_interruption t) = max_interruptions g)) as [Heq|]; [|lia].
      assert (existsb (overflowed g) threads = true); [|congruence].
      apply existsb_overflowed, Exists_exists. eauto.
    + split; [done|]. split; [done|]. intros _. by apply Hnone.
Qed.

(** ** Statistics of an empty buffer *)

(** C6: with no record below the cursor the statistics are computed without
    touching either block or dividing, and the minimum, maximum, mean,
    median and the five percentiles are all 0. *)
Theorem empty_buffer_stats_zero (t : thread) :
  c_interruption t = 0%nat →
  ∃ t', thread_calc_stats t = Some t'
        ∧ int_n t' = 0
        ∧ int_min t' = 0 ∧ int_max t' = 0 ∧ int_mean t' = 0
        ∧ int_median t' = 0
        ∧ int_90 t' = 0 ∧ int_99 t' = 0 ∧ int_999 t' = 0
        ∧ int_9999 t' = 0 ∧ int_99999 t' = 0.
Proof.
  intros Hc. unfold thread_calc_stats. rewrite Hc. simpl.
  eexists. split; [reflexivity|]. simpl. repeat split.
Qed.

(** ** The order of a thread's steps *)

Lemma thread_main_log (env : environment) (g : global) (t : thread)
    (log : list event) :
  run_log env g t = Some log →
  ∃ mhz, measure_cpu_mhz (env_estimates env) = Some mhz
  ∧ log = [EvMoveToCore (core_i t); EvThreadInit; EvAtomicInc Started;
           EvWaitWhileCmdIsWait; EvMeasureCpuMhz; EvAtomicInc Running;
           EvWaitUntilAll Running; EvFrcStart;
           EvDoit (wrap64 (threshold_nsec g * mhz) / 1000);
           EvFrcStop; EvAtomicInc Finished; EvWaitUntilAll Finished].
Proof.
  unfold run_log, thread_main, thread_init_p, measure_cpu_mhz_p, doit_p,
    atomic_inc, move_to_core, TEST, emit, get_thread, get_global, put_thread,
    put_global, lift, mbind, prog_bind, mret, prog_ret. simpl.
  destruct (env_affinity env =? 0); [simpl | done].
  destruct (thread_init g t) as [t1|]; [simpl | done].
  destruct (measure_cpu_mhz (env_estimates env)) as [mhz|]; [simpl | done].
  destruct (doit _ _ _ _ _) as [t2|]; [simpl | done].
  intros [= <-]. exists mhz. split; [done|].
  by destruct g.
Qed.

(** C8, as the code has it: the thread pins itself, allocates, increments
    the started counter and waits out [WAIT]; only then does it calibrate
    its frequency, and the calibration comes before the increment of the
    running counter, the wait for the other threads and the start of the
    sampling. *)
Theorem thread_main_calibrates_after_started (env : environment) (g : global)
    (t : thread) (log : list event) :
  run_log env g t = Some log →
  precedes (EvMoveToCore (core_i t)) EvThreadInit log
  ∧ precedes EvThreadInit (EvAtomicInc Started) log
  ∧ precedes (EvAtomicInc Started) EvWaitWhileCmdIsWait log
  ∧ precedes EvWaitWhileCmdIsWait EvMeasureCpuMhz log
  ∧ precedes EvMeasureCpuMhz (EvAtomicInc Running) log
  ∧ precedes (EvAtomicInc Running) (EvWaitUntilAll Running) log
  ∧ precedes (EvWaitUntilAll Running) EvFrcStart log
  ∧ ¬ precedes EvMeasureCpuMhz (EvAtomicInc Started) log.
Proof.
  intros Hrun. destruct (thread_main_log env g t log Hrun) as (mhz & _ & ->).
  unfold precedes. simpl.
  repeat (destruct (decide _); try done); simpl; lia.
Qed.

(** On the sample run the started counter is incremented at step 2 and the
    calibration happens at step 4: the calibration does not come first. *)
Lemma thread_main_calibration_not_before_started :
  match run_log demo_env demo_global (blank_thread 0) with
  | Some log =>
      position (EvAtomicInc Started) log = Some 2%nat
      ∧ position EvMeasureCpuMhz log = Some 4%nat
      ∧ ¬ precedes EvMeasureCpuMhz (EvAtomicInc Started) log
  | None => False
  end.
Proof. vm_compute. repeat split. intros H. inversion H as [|? H']. inversion H' as [|? H'']. inversion H''. Qed.

Lemma thread_main_calibrates_after_started_witness :
  run_log demo_env demo_global (blank_thread 0)
  = Some [EvMoveToCore 0; EvThreadInit; EvAtomicInc Started;
          EvWaitWhileCmdIsWait; EvMeasureCpuMhz; EvAtomicInc Running;
          EvWaitUntilAll Running; EvFrcStart; EvDoit 240;
          EvFrcStop; EvAtomicInc Finished; EvWaitUntilAll Finished]
  ∧ precedes EvMeasureCpuMhz (EvAtomicInc Running)
      [EvMoveToCore 0; EvThreadInit; EvAtomicInc Started;
       EvWaitWhileCmdIsWait; EvMeasureCpuMhz; EvAtomicInc Running;
       EvWaitUntilAll Running; EvFrcStart; EvDoit 240;
       EvFrcStop; EvAtomicInc Finished; EvWaitUntilAll Finished].
Proof.
  split; [reflexivity|].
  apply (thread_main_calibrates_after_started demo_env demo_global
           (blank_thread 0)).
  reflexivity.
Defined.

(** ** The capacity for the real run *)

Lemma to_int_mod (z : Z) : to_int z mod two32 = z mod two32.
Proof.
  unfold to_int. destruct (_ <? _).
  - apply Zmod_mod.
  - rewrite Zminus_mod, Z_mod_same_full, Z.sub_0_r, !Zmod_mod. done.
Qed.

Lemma to_int_small (z : Z) : 0 ≤ z ≤ INT_MAX → to_int z = z.
Proof.
  intros Hz. unfold to_int, INT_MAX, two31, two32 in *.
  rewrite Z.mod_small by lia. destruct (Z.ltb_spec z (2 ^ 31)); lia.
Qed.

Lemma to_unsigned_small (z : Z) : 0 ≤ z < two32 → to_unsigned z = z.
Proof. intros Hz. unfold to_unsigned. by apply Z.mod_small. Qed.

Lemma to_unsigned_product (p runtime : Z) :
  to_unsigned (to_int (to_int (p * 2) * runtime)) = to_unsigned (2 * p * runtime).
Proof.
  unfold to_unsigned. rewrite to_int_mod.
  rewrite <- Zmult_mod_idemp_l, to_int_mod, Zmult_mod_idemp_l.
  f_equal. lia.
Qed.

Lemma max_count_spec (threads : list thread) :
  Forall (λ t, Z.of_nat (c_interruption t) ≤ INT_MAX) threads →
  ∀ max, 0 ≤ max ≤ INT_MAX →
    foldl (λ max t, if to_unsigned max <? int_n t then to_int (int_n t) else max)
          max (count_threads threads)
    = Z.max max (foldr Z.max 0 (map (λ t, Z.of_nat (c_interruption t)) threads))
    ∧ 0 ≤ foldr Z.max 0 (map (λ t, Z.of_nat (c_interruption t)) threads) ≤ INT_MAX.
Proof.
  induction 1 as [|t rest Ht Hrest IH]; intros max Hmax; simpl.
  - split; [lia | unfold INT_MAX, two31; lia].
  - unfold INT_MAX, two31 in *.
    rewrite (to_unsigned_small (Z.of_nat _)) by (unfold two32; lia).
    rewrite (to_unsigned_small max) by (unfold two32; lia).
    rewrite to_int_small by (unfold INT_MAX, two31; lia).
    destruct (Z.ltb_spec max (Z.of_nat (c_interruption t))).
    + destruct (IH (Z.of_nat (c_interruption t))) as [-> Hb]; [lia|]. lia.
    + destruct (IH max) as [-> Hb]; [lia|]. lia.
Qed.

Lemma rate_of_max (secs : Z) (counts : list Z) :
  0 < secs →
  foldr Z.max 0 counts / secs = foldr Z.max 0 (map (λ c, c / secs) counts).
Proof.
  intros Hs. induction counts as [|c rest IH]; simpl.
  - by apply Z.div_0_l, Z.neq_sym, Z.lt_neq.
  - rewrite <- IH. destruct (Z.max_spec c (foldr Z.max 0 rest)) as [[Hlt ->]|[Hle ->]].
    + pose proof (Z.div_le_mono c (foldr Z.max 0 rest) secs Hs). lia.
    + pose proof (Z.div_le_mono (foldr Z.max 0 rest) c secs Hs). lia.
Qed.

(** C7: after the calibration run the capacity is set to twice the larger of
    the observed rate and 1000, times the run time of the real run, in the
    32-bit arithmetic of the code: the exact product whenever that fits an
    [int].  The observed rate is the largest count over the seconds of the
    calibration run; below 1000 a second, 1000 takes its place. *)
Theorem calc_max_interruptions_formula (g : global) (threads : list thread)
    (runtime : Z) :
  0 < runtime_secs g →
  Forall (λ t, Z.of_nat (c_interruption t) ≤ INT_MAX) threads →
  ∃ g' threads',
    calc_max_interruptions g threads runtime = Some (g', threads')
    ∧ max_interruptions g'
      = to_unsigned (2 * Z.max (observed_rate g threads) 1000 * runtime)
    ∧ (0 ≤ runtime →
       2 * Z.max (observed_rate g threads) 1000 * runtime ≤ INT_MAX →
       max_interruptions g'
       = 2 * Z.max (observed_rate g threads) 1000 * runtime)
    ∧ (observed_rate g threads < 1000 →
       max_interruptions g' = to_unsigned (2 * 1000 * runtime)).
Proof.
  intros Hsecs Hcounts. unfold calc_max_interruptions.
  destruct (Z.eqb_spec (runtime_secs g) 0) as [|_]; [lia|].
  eexists _, _. split; [reflexivity|]. simpl.
  unfold max_count.
  destruct (max_count_spec threads Hcounts 0) as [-> Hb];
    [unfold INT_MAX, two31; lia|].
  rewrite Z.max_r by lia.
  set (m := foldr Z.max 0 (map (λ t, Z.of_nat (c_interruption t)) threads)) in *.
  assert (Hrate : observed_rate g threads = m / runtime_secs g).
  { unfold observed_rate, m. rewrite rate_of_max by done.
    by rewrite map_map. }
  assert (Hq : 0 ≤ m / runtime_secs g ≤ m).
  { split; [apply Z.div_pos; lia|]. apply Z.div_le_upper_bound; nia. }
  unfold INT_MAX, two31 in *.
  rewrite (to_unsigned_small m) by (unfold two32; lia).
  rewrite (to_int_small (m / runtime_secs g)) by (unfold INT_MAX, two31; lia).
  rewrite <- Hrate in *.
  assert (Hfloor : (if observed_rate g threads <? 1000 then 1000
                    else observed_rate g threads)
                   = Z.max (observed_rate g threads) 1000).
  { destruct (Z.ltb_spec (observed_rate g threads) 1000); lia. }
  rewrite Hfloor, to_unsigned_product.
  split; [done|]. split.
  - intros Hr Hfit. apply to_unsigned_small. unfold two32. nia.
  - intros Hlow. by rewrite Z.max_r by lia.
Qed.

(** ** Allocation *)

(** [thread_init] leaves such a block whenever its byte count fits an
    [int]. *)
Lemma thread_init_block (g : global) (t : thread) :
  0 ≤ max_interruptions g < 2 ^ 27 →
  ∃ t', thread_init g t = Some t'
        ∧ block_ok g t'
        ∧ c_interruption t' = 0%nat
        ∧ length (sorted t') = Z.to_nat (max_interruptions g).
Proof.
  intros Hmax. unfold thread_init, sizeof_interruption.
  rewrite to_int_small by (unfold INT_MAX, two31; lia).
  destruct (Z.ltb_spec (max_interruptions g * 16) 0) as [|_]; [lia|].
  eexists. split; [reflexivity|]. unfold block_ok. simpl.
  rewrite !length_replicate, Z.div_mul by lia. done.
Qed.

(** A thread runs to the end of [thread_main] when it is given its core,
    its capacity is positive and small enough to allocate, and the frequency
    estimates settle. *)
Lemma thread_main_runs (env : environment) (g : global) (t : thread) :
  env_affinity env = 0 →
  0 < max_interruptions g < 2 ^ 27 →
  is_Some (measure_cpu_mhz (env_estimates env)) →
  is_Some (run_log env g t).
Proof.
  intros Hrc Hmax [mhz Hmhz].
  destruct (thread_init_block g t) as (t1 & Hinit & Hblock & _); [lia|].
  unfold run_log, thread_main, thread_init_p, measure_cpu_mhz_p, doit_p,
    atomic_inc, move_to_core, TEST, emit, get_thread, get_global, put_thread,
    put_global, lift, mbind, prog_bind, mret, prog_ret.
  cbn -[thread_init doit measure_cpu_mhz].
  rewrite Hrc. cbn -[thread_init doit measure_cpu_mhz].
  rewrite Hinit. cbn -[thread_init doit measure_cpu_mhz].
  rewrite Hmhz. cbn -[thread_init doit measure_cpu_mhz].
  match goal with
  | |- context [doit ?g' ?t' ?thr ?r ?l] =>
      destruct (doit_defined g' thr t' r l) as [t2 ->];
        [exact Hblock | simpl; lia | simpl; eauto]
  end.
Qed.

(** ** Binary64 multiplication in integers *)

Lemma digits2_pos_size (p : positive) : digits2_pos p = Pos.size p.
Proof. induction p; simpl; congruence. Qed.

Lemma digits2_pos_log2 (p : positive) :
  Z.pos (digits2_pos p) = Z.log2 (Z.pos p) + 1.
Proof.
  rewrite digits2_pos_size. destruct p; simpl; lia.
Qed.

Lemma shr_1_nonneg (m : Z) (r s : bool) :
  0 ≤ m →
  shr_1 (Build_shr_record m r s) = Build_shr_record (m / 2) (Z.odd m) (r || s).
Proof.
  intros Hm. rewrite <- Z.div2_div.
  destruct m as [|p|p]; [done | by destruct p | lia].
Qed.

Lemma iter_pos_nat {A} (f : A → A) (p : positive) (x : A) :
  SpecFloat.iter_pos f p x = Nat.iter (Pos.to_nat p) f x.
Proof.
  revert x. induction p as [p IH|p IH|]; intros x.
  - rewrite Pos2Nat.inj_xI.
    change (SpecFloat.iter_pos f p~1 x)
      with (SpecFloat.iter_pos f p (SpecFloat.iter_pos f p (f x))).
    rewrite !IH.
    replace (S (2 * Pos.to_nat p)) with (Pos.to_nat p + (Pos.to_nat p + 1))%nat by lia.
    by rewrite !Nat.iter_add.
  - rewrite Pos2Nat.inj_xO.
    change (SpecFloat.iter_pos f p~0 x)
      with (SpecFloat.iter_pos f p (SpecFloat.iter_pos f p x)).
    rewrite !IH.
    replace (2 * Pos.to_nat p)%nat with (Pos.to_nat p + Pos.to_nat p)%nat by lia.
    by rewrite Nat.iter_add.
  - done.
Qed.

(** Dropping [k + 1] low bits one at a time: what is left, the last bit
    dropped, and whether any bit below it was set. *)
Lemma shr_1_iter (k : nat) (m : Z) :
  0 ≤ m →
  Nat.iter (S k) shr_1 (Build_shr_record m false false)
  = Build_shr_record (m / 2 ^ (Z.of_nat k + 1))
                     (Z.odd (m / 2 ^ Z.of_nat k))
                     (negb (m mod 2 ^ Z.of_nat k =? 0)).
Proof.
  intros Hm. induction k as [|k IH].
  - cbn [Nat.iter nat_rect]. rewrite shr_1_nonneg by done.
    change (Z.of_nat 0) with 0. rewrite Z.pow_0_r, Z.div_1_r, Z.mod_1_r. done.
  - rewrite Nat.iter_succ, IH.
    rewrite shr_1_nonneg by (apply Z.div_pos; lia).
    replace (Z.of_nat (S k)) with (Z.of_nat k + 1) by lia.
    assert (0 < 2 ^ Z.of_nat k) by lia.
    rewrite !Z.pow_add_r, Z.pow_1_r by lia.
    f_equal.
    + by rewrite Z.div_div by lia.
    + rewrite Z.rem_mul_r by lia.
      rewrite Zmod_odd.
      pose proof (Z.mod_pos_bound m (2 ^ Z.of_nat k) ltac:(lia)).
      destruct (Z.odd _); simpl.
      * symmetry. apply negb_true_iff, Z.eqb_neq. lia.
      * by rewrite Z.mul_0_r, Z.add_0_r.
Qed.

Lemma round_shr (N : Z) (k : nat) :
  0 ≤ N →
  round_nearest_even
    (shr_m (Nat.iter (S k) shr_1 (Build_shr_record N false false)))
    (loc_of_shr_record (Nat.iter (S k) shr_1 (Build_shr_record N false false)))
  = rne N (Z.of_nat k + 1).
Proof.
  intros HN. rewrite shr_1_iter by done. unfold rne. simpl.
  assert (Hp : 0 < 2 ^ Z.of_nat k) by lia.
  rewrite Z.pow_add_r, Z.pow_1_r by lia.
  rewrite (Z.rem_mul_r N) by lia. rewrite Zmod_odd.
  pose proof (Z.mod_pos_bound N (2 ^ Z.of_nat k) ltac:(lia)) as Hlow.
  set (low := N mod 2 ^ Z.of_nat k) in *.
  set (q := N / (2 ^ Z.of_nat k * 2)).
  destruct (Z.odd (N / 2 ^ Z.of_nat k)); simpl.
  - destruct (Z.eqb_spec low 0) as [Hz|Hnz]; simpl.
    + rewrite Hz. destruct (Z.ltb_spec (2 * (0 + 2 ^ Z.of_nat k * 1)) (2 ^ Z.of_nat k * 2)); [lia|].
      destruct (Z.eqb_spec (2 * (0 + 2 ^ Z.of_nat k * 1)) (2 ^ Z.of_nat k * 2)); [done | lia].
    + destruct (Z.ltb_spec (2 * (low + 2 ^ Z.of_nat k * 1)) (2 ^ Z.of_nat k * 2)); [lia|].
      destruct (Z.eqb_spec (2 * (low + 2 ^ Z.of_nat k * 1)) (2 ^ Z.of_nat k * 2)); [lia | done].
  - destruct (Z.ltb_spec (2 * (low + 2 ^ Z.of_nat k * 0)) (2 ^ Z.of_nat k * 2)); [|lia].
    by destruct (Z.eqb_spec low 0).
Qed.

Lemma rne_bounds (N sh : Z) :
  0 ≤ sh → 0 ≤ N →
  N / 2 ^ sh ≤ rne N sh ≤ N / 2 ^ sh + 1.
Proof.
  intros. unfold rne. destruct (_ <? _); [lia|].
  destruct (_ =? _); [destruct (Z.even _)|]; lia.
Qed.

Lemma shr_pos (mrs : shr_record) (e : Z) (p : positive) :
  shr mrs e (Z.pos p) = (Nat.iter (Pos.to_nat p) shr_1 mrs, e + Z.pos p).
Proof. unfold shr. by rewrite iter_pos_nat. Qed.

Lemma fexp_normal (e : Z) : -1074 ≤ e - 53 → fexp 53 1024 e = e - 53.
Proof. unfold fexp, emin. lia. Qed.

Lemma shr_fexp_exact (mx : positive) (ex : Z) :
  0 < Z.log2 (Z.pos mx) - 52 →
  -1074 ≤ ex + (Z.log2 (Z.pos mx) - 52) →
  ∃ k : nat,
    Z.of_nat k + 1 = Z.log2 (Z.pos mx) - 52
    ∧ shr_fexp 53 1024 (Z.pos mx) ex loc_Exact
      = (Nat.iter (S k) shr_1 (Build_shr_record (Z.pos mx) false false),
         ex + (Z.log2 (Z.pos mx) - 52)).
Proof.
  intros Hsh He. unfold shr_fexp.
  change (Zdigits2 (Z.pos mx)) with (Z.pos (digits2_pos mx)).
  rewrite digits2_pos_log2, fexp_normal by lia.
  replace (Z.log2 (Z.pos mx) + 1 + ex - 53 - ex)
    with (Z.log2 (Z.pos mx) - 52) by lia.
  destruct (Z.log2 (Z.pos mx) - 52) as [|p|p] eqn:Hp; [lia | | lia].
  exists (Nat.pred (Pos.to_nat p)).
  assert (Hk : S (Nat.pred (Pos.to_nat p)) = Pos.to_nat p) by lia.
  split; [lia|].
  rewrite shr_pos, Hk. done.
Qed.

Lemma shr_fexp_none (m : positive) (e : Z) :
  Z.log2 (Z.pos m) = 52 → -1074 ≤ e →
  shr_fexp 53 1024 (Z.pos m) e loc_Exact
  = (Build_shr_record (Z.pos m) false false, e).
Proof.
  intros Hm He. unfold shr_fexp.
  change (Zdigits2 (Z.pos m)) with (Z.pos (digits2_pos m)).
  rewrite digits2_pos_log2, fexp_normal by lia.
  by replace (Z.log2 (Z.pos m) + 1 + e - 53 - e) with 0 by lia.
Qed.

Lemma binary_round_aux_rne (mx : positive) (ex : Z) :
  0 < Z.log2 (Z.pos mx) - 52 →
  -1074 ≤ ex + (Z.log2 (Z.pos mx) - 52) < 971 →
  ∃ m e,
    binary_round_aux 53 1024 false (Z.pos mx) ex loc_Exact = S754_finite false m e
    ∧ ex + (Z.log2 (Z.pos mx) - 52) ≤ e ≤ ex + (Z.log2 (Z.pos mx) - 52) + 1
    ∧ Z.pos m * 2 ^ (e - (ex + (Z.log2 (Z.pos mx) - 52)))
      = rne (Z.pos mx) (Z.log2 (Z.pos mx) - 52).
Proof.
  intros Hsh He.
  destruct (shr_fexp_exact mx ex) as (k & Hk & Hshr); [done | lia |].
  unfold binary_round_aux. rewrite Hshr. cbv beta iota.
  rewrite round_shr by done. rewrite Hk.
  set (sh := Z.log2 (Z.pos mx) - 52) in *.
  set (e1 := ex + sh) in *.
  pose proof (Z.log2_spec (Z.pos mx) ltac:(done)) as Hlog.
  assert (Hq : 2 ^ 52 ≤ Z.pos mx / 2 ^ sh < 2 ^ 53).
  { replace (Z.log2 (Z.pos mx)) with (52 + sh) in Hlog by (unfold sh; lia).
    replace (Z.succ (52 + sh)) with (53 + sh) in Hlog by lia.
    rewrite !Z.pow_add_r in Hlog by lia.
    split.
    - apply Z.div_le_lower_bound; lia.
    - apply Z.div_lt_upper_bound; lia. }
  pose proof (rne_bounds (Z.pos mx) sh ltac:(lia) ltac:(done)) as Hb.
  set (m2 := rne (Z.pos mx) sh) in *.
  destruct (decide (m2 = 2 ^ 53)) as [Htop|Hnot].
  - rewrite Htop. exists (Z.to_pos (2 ^ 52)), (e1 + 1).
    split; [|split; [lia|]].
    + unfold shr_fexp. change (Zdigits2 (2 ^ 53)) with 54.
      rewrite fexp_normal by lia.
      replace (54 + e1 - 53 - e1) with 1 by lia.
      cbn [shr SpecFloat.iter_pos shr_record_of_loc].
      change (shr_1 {| shr_m := 2 ^ 53; shr_r := false; shr_s := false |})
        with {| shr_m := 2 ^ 52; shr_r := false; shr_s := false |}.
      cbv beta iota. cbn [shr_m].
      change (2 ^ 52) with (Z.pos (Z.to_pos (2 ^ 52))).
      cbv beta iota.
      destruct (Z.leb_spec (e1 + 1) (1024 - 53)); [done | lia].
    + replace (e1 + 1 - e1) with 1 by lia. done.
  - assert (Hm2 : 2 ^ 52 ≤ m2 < 2 ^ 53) by lia.
    destruct m2 as [|p2|p2] eqn:Hp2; [lia | | lia].
    exists p2, e1. split; [|split; [lia|]].
    + rewrite shr_fexp_none; [|apply Z.log2_unique; lia | lia].
      cbv beta iota. cbn [shr_m].
      destruct (Z.leb_spec e1 (1024 - 53)); [done | lia].
    + rewrite Z.sub_diag. lia.
Qed.

Lemma binary_round_aux_exact (m : positive) (e : Z) :
  Z.log2 (Z.pos m) = 52 → -1074 ≤ e ≤ 971 →
  binary_round_aux 53 1024 false (Z.pos m) e loc_Exact = S754_finite false m e.
Proof.
  intros Hm He. unfold binary_round_aux.
  rewrite shr_fexp_none by (done || lia). cbv beta iota.
  cbn [shr_m loc_of_shr_record round_nearest_even].
  rewrite shr_fexp_none by (done || lia). cbv beta iota. cbn [shr_m].
  destruct (Z.leb_spec e (1024 - 53)); [done | lia].
Qed.

Lemma pos_iter_xO (p k : positive) :
  Z.pos (Pos.iter xO p k) = Z.pos p * 2 ^ Z.pos k.
Proof.
  induction k as [|k IH] using Pos.peano_ind.
  - simpl. lia.
  - rewrite Pos.iter_succ, Pos2Z.inj_xO, IH, Pos2Z.inj_succ, Z.pow_succ_r by lia.
    lia.
Qed.

(** An integer below 2^53 converts without rounding: the value is the
    mantissa shifted up to 53 bits. *)
Lemma of_uint_spec (n : positive) :
  Z.pos n < 2 ^ 53 →
  ∃ m, binary_normalize 53 1024 (Z.pos n) 0 false
       = S754_finite false m (Z.log2 (Z.pos n) - 52)
       ∧ Z.pos m = Z.pos n * 2 ^ (52 - Z.log2 (Z.pos n))
       ∧ Z.log2 (Z.pos m) = 52.
Proof.
  intros Hn. cbn [binary_normalize]. unfold binary_round.
  pose proof (Z.log2_nonneg (Z.pos n)) as H0.
  assert (Hlog : Z.log2 (Z.pos n) < 53) by (apply Z.log2_lt_pow2; lia).
  rewrite digits2_pos_log2, fexp_normal by lia.
  unfold shl_align.
  replace (Z.log2 (Z.pos n) + 1 + 0 - 53 - 0) with (Z.log2 (Z.pos n) - 52) by lia.
  replace (Z.log2 (Z.pos n) + 1 + 0 - 53) with (Z.log2 (Z.pos n) - 52) by lia.
  destruct (Z.log2 (Z.pos n) - 52) as [|k|k] eqn:Hk; [| lia |].
  - exists n. assert (Z.log2 (Z.pos n) = 52) by lia.
    split; [by apply binary_round_aux_exact|].
    split; [|done]. replace (52 - Z.log2 (Z.pos n)) with 0 by lia. lia.
  - assert (Hm : Z.pos (Pos.iter xO n k) = Z.pos n * 2 ^ (52 - Z.log2 (Z.pos n))).
    { rewrite pos_iter_xO. do 2 f_equal. lia. }
    assert (Hl : Z.log2 (Z.pos (Pos.iter xO n k)) = 52).
    { rewrite Hm, Z.log2_mul_pow2 by lia. lia. }
    exists (Pos.iter xO n k). split; [|done].
    apply binary_round_aux_exact; [done | lia].
Qed.

Lemma rne_scale (N j k : Z) :
  0 ≤ j → 0 ≤ k → rne (N * 2 ^ k) (j + k) = rne N j.
Proof.
  intros Hj Hk. unfold rne.
  assert (0 < 2 ^ k) by lia. assert (0 < 2 ^ j) by lia.
  rewrite Z.pow_add_r by lia.
  rewrite Z.div_mul_cancel_r by lia.
  rewrite Z.mul_mod_distr_r by lia.
  destruct (Z.ltb_spec (2 * (N mod 2 ^ j)) (2 ^ j)),
           (Z.ltb_spec (2 * (N mod 2 ^ j * 2 ^ k)) (2 ^ j * 2 ^ k)); try done; try nia.
  destruct (Z.eqb_spec (2 * (N mod 2 ^ j)) (2 ^ j)),
           (Z.eqb_spec (2 * (N mod 2 ^ j * 2 ^ k)) (2 ^ j * 2 ^ k)); try done; nia.
Qed.

Lemma scale_rne (n : Z) (M : positive) :
  0 < n < 2 ^ 31 → 2 ^ 52 ≤ Z.pos M < 2 ^ 53 →
  0 ≤ Z.log2 (n * Z.pos M) - 52 ≤ 31
  ∧ (rne (n * Z.pos M) (Z.log2 (n * Z.pos M) - 52)
       / 2 ^ (53 - (Z.log2 (n * Z.pos M) - 52)) ≤ INT_MAX →
     Binary64.scale n (S754_finite false M (-53))
     = Some (rne (n * Z.pos M) (Z.log2 (n * Z.pos M) - 52)
               / 2 ^ (53 - (Z.log2 (n * Z.pos M) - 52)))).
Proof.
  intros Hn HM.
  destruct n as [|p|p]; [lia | | lia].
  assert (Hj : 0 ≤ Z.log2 (Z.pos p * Z.pos M) - 52 ≤ 31).
  { split.
    - enough (52 ≤ Z.log2 (Z.pos p * Z.pos M)) by lia.
      apply Z.log2_le_pow2; nia.
    - enough (Z.log2 (Z.pos p * Z.pos M) < 84) by lia.
      apply Z.log2_lt_pow2; [lia|].
      change (2 ^ 84) with (2 ^ 31 * 2 ^ 53). nia. }
  split; [done|]. intros Hfit.
  set (j := Z.log2 (Z.pos p * Z.pos M) - 52) in *.
  unfold Binary64.scale, Binary64.mul, Binary64.of_uint, Binary64.prec, Binary64.emax.
  destruct (of_uint_spec p) as (mz & -> & Hmz & Hlz); [lia|].
  pose proof (Z.log2_nonneg (Z.pos p)) as Hd0.
  assert (Hd : Z.log2 (Z.pos p) < 31) by (apply Z.log2_lt_pow2; lia).
  set (k := 52 - Z.log2 (Z.pos p)) in *.
  cbn [SFmul xorb].
  assert (HN : Z.pos (mz * M) = Z.pos p * Z.pos M * 2 ^ k).
  { rewrite Pos2Z.inj_mul, Hmz. lia. }
  assert (Hlog : Z.log2 (Z.pos (mz * M)) - 52 = j + k).
  { rewrite HN, Z.log2_mul_pow2 by lia. unfold j. lia. }
  destruct (binary_round_aux_rne (mz * M) (Z.log2 (Z.pos p) - 52 + -53))
    as (m & e & -> & He & Hval); [lia | lia |].
  rewrite Hlog in *. rewrite HN, rne_scale in Hval by lia.
  replace (Z.log2 (Z.pos p) - 52 + -53 + (j + k)) with (j - 53) in * by (unfold k; lia).
  unfold Binary64.to_int.
  destruct (Z.leb_spec 0 e) as [|_]; [lia|].
  assert (Hv : Z.pos m / 2 ^ (- e)
               = rne (Z.pos p * Z.pos M) j / 2 ^ (53 - j)).
  { rewrite <- Hval.
    replace (53 - j) with (- e + (e - (j - 53))) by lia.
    rewrite Z.pow_add_r by lia.
    rewrite Z.div_mul_cancel_r; [done | lia | lia]. }
  rewrite Hv.
  assert (0 ≤ rne (Z.pos p * Z.pos M) j / 2 ^ (53 - j)).
  { rewrite <- Hv. apply Z.div_pos; lia. }
  destruct (Z.leb_spec (- two31) (rne (Z.pos p * Z.pos M) j / 2 ^ (53 - j)));
    [|unfold two31 in *; lia].
  destruct (Z.leb_spec (rne (Z.pos p * Z.pos M) j / 2 ^ (53 - j)) INT_MAX);
    [done | lia].
Qed.

Ltac is_pos_literal p :=
  lazymatch p with
  | xH => idtac
  | xO ?q => is_pos_literal q
  | xI ?q => is_pos_literal q
  end.

Ltac is_Z_literal z :=
  lazymatch z with
  | Z0 => idtac
  | Zpos ?p => is_pos_literal p
  | Zneg ?p => is_pos_literal p
  end.

(** Replace the powers of two with closed exponents by their values. *)
Ltac eval_pows :=
  repeat match goal with
  | |- context [2 ^ ?e] =>
      let e' := eval cbn in e in
      is_Z_literal e';
      let v := eval vm_compute in (2 ^ e') in progress change (2 ^ e) with v
  | H : context [2 ^ ?e] |- _ =>
      let e' := eval cbn in e in
      is_Z_literal e';
      let v := eval vm_compute in (2 ^ e') in progress change (2 ^ e) with v in H
  end.

Lemma div_between (x c K : Z) :
  0 < c → K * c ≤ x < (K + 1) * c → x / c = K.
Proof.
  intros Hc Hx. symmetry. apply Z.div_unique with (r := x - K * c); lia.
Qed.

(** The binades of the product one by one: with [53 + j] bits in the
    product everything is linear in [n]. *)
Ltac binade n M a b j :=
  let Hlog := fresh "Hlog" in
  pose proof (Z.log2_spec (n * M) ltac:(lia)) as Hlog;
  replace (Z.log2 (n * M)) with (52 + j) in * by lia;
  replace (52 + j - 52) with j by lia;
  unfold rne;
  pose proof (Z.div_mod (n * M) (2 ^ j) ltac:(eval_pows; lia));
  pose proof (Z.mod_pos_bound (n * M) (2 ^ j) ltac:(eval_pows; lia));
  pose proof (Z.div_mod (n * a) b ltac:(lia));
  pose proof (Z.mod_pos_bound (n * a) b ltac:(lia));
  eval_pows;
  repeat match goal with
  | H : context [?x / ?y] |- _ =>
      let q := fresh "q" in set (q := x / y) in *; clearbody q
  | H : context [?x mod ?y] |- _ =>
      let r := fresh "r" in set (r := x mod y) in *; clearbody r
  end;
  repeat match goal with
  | |- context [if ?c <? ?d then _ else _] => destruct (Z.ltb_spec c d)
  | |- context [if ?c =? ?d then _ else _] => destruct (Z.eqb_spec c d)
  | |- context [if Z.even ?c then _ else _] => destruct (Z.even c)
  end;
  apply div_between; lia.

Ltac binades n M a b j hi :=
  let stop := eval vm_compute in (hi <? j) in
  match stop with
  | true => exfalso; lia
  | false =>
      let Hj := fresh "Hj" in
      destruct (Z.eq_dec (Z.log2 (n * M) - 52) j) as [Hj|Hj];
      [ binade n M a b j
      | let j' := eval vm_compute in (j + 1) in binades n M a b j' hi ]
  end.

Lemma rne_floor_0_9 (n : Z) :
  0 < n < 2 ^ 31 →
  0 ≤ Z.log2 (n * 8106479329266893) - 52 ≤ 31 →
  rne (n * 8106479329266893) (Z.log2 (n * 8106479329266893) - 52)
    / 2 ^ (53 - (Z.log2 (n * 8106479329266893) - 52))
  = n * 9 / 10.
Proof. intros Hn Hj. binades n 8106479329266893 9 10 0 31. Qed.

Lemma rne_floor_0_99 (n : Z) :
  0 < n < 2 ^ 31 →
  0 ≤ Z.log2 (n * 8917127262193582) - 52 ≤ 31 →
  rne (n * 8917127262193582) (Z.log2 (n * 8917127262193582) - 52)
    / 2 ^ (53 - (Z.log2 (n * 8917127262193582) - 52))
  = n * 99 / 100.
Proof. intros Hn Hj. binades n 8917127262193582 99 100 0 31. Qed.

Lemma rne_floor_0_999 (n : Z) :
  0 < n < 2 ^ 31 →
  0 ≤ Z.log2 (n * 8998192055486251) - 52 ≤ 31 →
  rne (n * 8998192055486251) (Z.log2 (n * 8998192055486251) - 52)
    / 2 ^ (53 - (Z.log2 (n * 8998192055486251) - 52))
  = n * 999 / 1000.
Proof. intros Hn Hj. binades n 8998192055486251 999 1000 0 31. Qed.

Lemma rne_floor_0_9999 (n : Z) :
  0 < n < 2 ^ 31 →
  0 ≤ Z.log2 (n * 9006298534815518) - 52 ≤ 31 →
  rne (n * 9006298534815518) (Z.log2 (n * 9006298534815518) - 52)
    / 2 ^ (53 - (Z.log2 (n * 9006298534815518) - 52))
  = n * 9999 / 10000.
Proof. intros Hn Hj. binades n 9006298534815518 9999 10000 0 31. Qed.

Lemma rne_floor_0_99999 (n : Z) :
  0 < n < 2 ^ 31 →
  0 ≤ Z.log2 (n * 9007109182748445) - 52 ≤ 31 →
  rne (n * 9007109182748445) (Z.log2 (n * 9007109182748445) - 52)
    / 2 ^ (53 - (Z.log2 (n * 9007109182748445) - 52))
  = n * 99999 / 100000.
Proof. intros Hn Hj. binades n 9007109182748445 99999 100000 0 31. Qed.

(** The index computed in double precision is the integer quotient. *)
Lemma scale_percentiles (n : Z) :
  0 < n ≤ INT_MAX →
  Binary64.scale n Binary64.c_0_9 = Some (n * 9 / 10)
  ∧ Binary64.scale n Binary64.c_0_99 = Some (n * 99 / 100)
  ∧ Binary64.scale n Binary64.c_0_999 = Some (n * 999 / 1000)
  ∧ Binary64.scale n Binary64.c_0_9999 = Some (n * 9999 / 10000)
  ∧ Binary64.scale n Binary64.c_0_99999 = Some (n * 99999 / 100000).
Proof.
  intros Hn. unfold INT_MAX, two31 in Hn.
  assert (Hn' : 0 < n < 2 ^ 31) by lia.
  assert (Hq : ∀ a b, 0 < a < b → n * a / b ≤ INT_MAX).
  { intros a b Hab. unfold INT_MAX, two31.
    enough (n * a / b ≤ n) by lia.
    apply Z.div_le_upper_bound; nia. }
  repeat split.
  - destruct (scale_rne n 8106479329266893 Hn') as [Hj Hs]; [lia|].
    rewrite rne_floor_0_9 in Hs by done. apply Hs, Hq. lia.
  - destruct (scale_rne n 8917127262193582 Hn') as [Hj Hs]; [lia|].
    rewrite rne_floor_0_99 in Hs by done. apply Hs, Hq. lia.
  - destruct (scale_rne n 8998192055486251 Hn') as [Hj Hs]; [lia|].
    rewrite rne_floor_0_999 in Hs by done. apply Hs, Hq. lia.
  - destruct (scale_rne n 9006298534815518 Hn') as [Hj Hs]; [lia|].
    rewrite rne_floor_0_9999 in Hs by done. apply Hs, Hq. lia.
  - destruct (scale_rne n 9007109182748445 Hn') as [Hj Hs]; [lia|].
    rewrite rne_floor_0_99999 in Hs by done. apply Hs, Hq. lia.
Qed.

(** ** The sort *)

Section Qsort.
Context {A : Type}.
Variable cmp : A → A → Z.

Lemma insert_by_perm (x : A) (l : list A) : insert_by cmp x l ≡ₚ x :: l.
Proof.
  induction l as [|y l IH]; simpl; [done|].
  destruct (_ <=? _); [done|]. rewrite IH. apply Permutation_swap.
Qed.

Lemma qsort_perm (l : list A) : qsort cmp l ≡ₚ l.
Proof.
  induction l as [|x l IH]; simpl; [done|].
  by rewrite insert_by_perm, IH.
Qed.

Lemma length_qsort (l : list A) : length (qsort cmp l) = length l.
Proof. apply Permutation_length, qsort_perm. Qed.

(** On elements that the comparator orders as a total preorder [R] does,
    the result is in that order. *)
Lemma insert_by_sorted (R : relation A) (x : A) (l : list A) :
  Transitive R →
  (∀ y, y ∈ l → (cmp x y ≤ 0 ↔ R x y) ∧ (R x y ∨ R y x)) →
  StronglySorted R l → StronglySorted R (insert_by cmp x l).
Proof.
  intros HR Hx Hl. induction Hl as [|y l Hl IH Hy]; simpl.
  - repeat constructor.
  - destruct (Hx y) as [Hcmp Htot]; [left|].
    destruct (Z.leb_spec (cmp x y) 0) as [Hle|Hgt].
    + apply Hcmp in Hle. constructor; [by constructor|].
      constructor; [done|]. eapply Forall_impl; [exact Hy|].
      intros z Hz. by trans y.
    + assert (R y x) by (destruct Htot as [?%Hcmp|?]; [lia | done]).
      constructor.
      * apply IH. intros z Hz. apply Hx. by right.
      * rewrite insert_by_perm. by constructor.
Qed.

Lemma qsort_sorted (R : relation A) (l : list A) :
  Transitive R →
  (∀ x y, x ∈ l → y ∈ l → (cmp x y ≤ 0 ↔ R x y) ∧ (R x y ∨ R y x)) →
  StronglySorted R (qsort cmp l).
Proof.
  intros HR. induction l as [|x l IH]; intros Hl; simpl; [constructor|].
  apply insert_by_sorted; [done | |].
  - intros y Hy. rewrite qsort_perm in Hy. apply Hl; [left | by right].
  - apply IH. intros y z Hy Hz. apply Hl; by right.
Qed.

End Qsort.

(** ** The pointer block *)

Lemma unsort_fold (n : nat) :
  ∀ (a : nat) (ptrs : list nat),
    (a + n ≤ length ptrs)%nat →
    foldl (λ ptrs i, <[i := i]> ptrs) ptrs (seq a n)
    = take a ptrs ++ seq a n ++ drop (a + n) ptrs.
Proof.
  induction n as [|n IH]; intros a ptrs Hlen; simpl.
  - by rewrite Nat.add_0_r, take_drop.
  - assert (Hlen' : (S a + n ≤ length (<[a:=a]> ptrs))%nat).
    { rewrite length_insert. lia. }
    rewrite IH by done.
    rewrite take_insert_here by lia.
    rewrite drop_insert_lt by lia.
    rewrite <- app_assoc. simpl. by rewrite Nat.add_succ_r.
Qed.

Lemma to_int_count (c : nat) :
  Z.of_nat c ≤ INT_MAX → Z.to_nat (to_int (Z.of_nat c)) = c.
Proof. intros Hc. rewrite to_int_small by lia. lia. Qed.

Lemma sort_interruptions_spec (t : thread) :
  well_formed t →
  sort_interruptions t
  = Some (set_sorted (order t ++ drop (c_interruption t) (sorted t)) t).
Proof.
  intros (Hmem & Hptr & Hint). unfold sort_interruptions, unsort_interruptions.
  rewrite to_int_count by done.
  destruct (decide _) as [_|]; [|lia]. simpl.
  rewrite to_int_small by lia.
  destruct (Z.ltb_spec (Z.of_nat (c_interruption t)) 0) as [|_]; [lia|].
  rewrite (unsort_fold (c_interruption t) 0) by (simpl; lia). simpl.
  rewrite take_app_length' by (by rewrite length_seq).
  rewrite drop_app_length' by (by rewrite length_seq).
  done.
Qed.

Lemma order_perm (t : thread) : order t ≡ₚ seq 0 (c_interruption t).
Proof. apply qsort_perm. Qed.

Lemma length_order (t : thread) : length (order t) = c_interruption t.
Proof. unfold order. by rewrite length_qsort, length_seq. Qed.

Lemma length_ranked (t : thread) : length (ranked t) = c_interruption t.
Proof. unfold ranked. by rewrite length_fmap, length_order. Qed.

(** [t->sorted[k]->diff] after the sort, for [k] below the count. *)
Lemma sorted_diff_ranked (t : thread) (k : Z) :
  well_formed t → 0 ≤ k < Z.of_nat (c_interruption t) →
  sorted_diff
    (set_sorted (order t ++ drop (c_interruption t) (sorted t)) t) k
  = Some (ranked t !!! Z.to_nat k).
Proof.
  intros (Hmem & Hptr & Hint) Hk. unfold sorted_diff. simpl.
  assert (Hlt : (Z.to_nat k < length (order t))%nat) by (rewrite length_order; lia).
  destruct (lookup_lt_is_Some_2 (order t) (Z.to_nat k) Hlt) as [p Hp].
  rewrite lookup_app_l by done. rewrite Hp. simpl.
  assert (Hin : p ∈ seq 0 (c_interruption t)).
  { rewrite <- order_perm. apply list_elem_of_lookup. eauto. }
  apply elem_of_seq in Hin.
  destruct (lookup_lt_is_Some_2 (interruptions t) p ltac:(lia)) as [r Hr].
  rewrite Hr. simpl. f_equal. unfold ranked.
  rewrite (list_lookup_total_fmap (λ p, diff (interruptions t !!! p)) (order t))
    by done.
  rewrite (list_lookup_total_correct _ _ _ Hp).
  by rewrite (list_lookup_total_correct _ _ _ Hr).
Qed.

Lemma thread_calc_stats_closed (t : thread) :
  well_formed t → thread_calc_stats t = Some (stats_of t).
Proof.
  intros Hwf. pose proof Hwf as (Hmem & Hptr & Hint).
  unfold thread_calc_stats, stats_of.
  assert (Hn : to_unsigned (Z.of_nat (c_interruption t))
               = Z.of_nat (c_interruption t)).
  { apply to_unsigned_small. unfold INT_MAX, two31, two32 in *. lia. }
  rewrite Hn. set (n := Z.of_nat (c_interruption t)) in *.
  destruct (Z.eqb_spec n 0) as [Hz|Hnz]; [by rewrite Hz|].
  assert (Hpos : 0 < n ≤ INT_MAX) by lia.
  rewrite sort_interruptions_spec by done. cbn [mbind option_bind].
  rewrite (to_unsigned_small (n - 1)) by (unfold INT_MAX, two31, two32 in *; lia).
  destruct (scale_percentiles n Hpos) as (-> & -> & -> & -> & ->).
  assert (Hidx : ∀ a b, 0 < a < b → 0 ≤ n * a / b < n).
  { intros a b Hab. split; [apply Z.div_pos; lia|].
    apply Z.div_lt_upper_bound; nia. }
  assert (Hhalf : 0 ≤ n / 2 < n).
  { split; [apply Z.div_pos; lia|]. apply Z.div_lt_upper_bound; lia. }
  repeat first
    [ rewrite sorted_diff_ranked
        by first [done | apply Hidx; lia | unfold n in *; lia]
    | progress cbn [mbind option_bind] ].
  unfold sum_loop. cbn [c_interruption interruptions set_sorted set_buffers].
  destruct (decide _) as [_|]; [|lia]. cbn [mbind option_bind].
  change (records (set_sorted (order t ++ drop (c_interruption t) (sorted t)) t))
    with (records t).
  pose proof (sum_loop_fold (records t) 0) as Hsum.
  change (wrap64 0) with 0 in Hsum. rewrite Z.add_0_l in Hsum.
  by rewrite Hsum.
Qed.

(** ** Frame and idempotence *)

Lemma stats_of_well_formed (t : thread) :
  well_formed t → well_formed (stats_of t).
Proof.
  intros (Hmem & Hptr & Hint). unfold stats_of, well_formed.
  destruct (_ =? _); simpl; [done|].
  rewrite length_app, length_order, length_drop. lia.
Qed.

Lemma stats_of_idem (t : thread) :
  well_formed t → stats_of (stats_of t) = stats_of t.
Proof.
  intros (Hmem & Hptr & Hint). unfold stats_of.
  destruct (Z.of_nat (c_interruption t) =? 0) eqn:Hz; simpl; rewrite Hz; [done|].
  unfold set_stats, set_sorted, set_buffers. simpl. f_equal.
  change (order
            {| core_i := core_i t; cpu_mhz := cpu_mhz t;
               interruptions := interruptions t;
               c_interruption := c_interruption t;
               int_total := int_total t; frc_start := frc_start t;
               frc_stop := frc_stop t;
               sorted := order t ++ drop (c_interruption t) (sorted t);
               runtime := _; int_n := _; int_min := _; int_max := _;
               int_mean := _; int_median := _; int_90 := _; int_99 := _;
               int_999 := _; int_9999 := _; int_99999 := _ |})
    with (order t).
  by rewrite drop_app_length' by (by rewrite length_order).
Qed.

(** ** Gaps below 2^31: the comparator is the difference *)

Lemma cmp_small (a b : interruption) :
  0 ≤ diff a < two31 → 0 ≤ diff b < two31 →
  qsort_cmp_interruption a b = diff a - diff b.
Proof.
  intros Ha Hb. unfold qsort_cmp_interruption, to_int, wrap64, two64, two32, two31 in *.
  destruct (Z.le_gt_cases (diff b) (diff a)).
  - rewrite (Z.mod_small (diff a - diff b)) by lia.
    rewrite Z.mod_small by lia.
    destruct (Z.ltb_spec (diff a - diff b) (2 ^ 31)); lia.
  - replace ((diff a - diff b) mod 2 ^ 64) with (diff a - diff b + 2 ^ 64)
      by (apply Z.mod_unique with (q := -1); lia).
    replace ((diff a - diff b + 2 ^ 64) mod 2 ^ 32)
      with (diff a - diff b + 2 ^ 32)
      by (apply Z.mod_unique with (q := 2 ^ 32 - 1); lia).
    destruct (Z.ltb_spec (diff a - diff b + 2 ^ 32) (2 ^ 31)); lia.
Qed.

Lemma gaps_by_pointer (t : thread) :
  (c_interruption t ≤ length (interruptions t))%nat →
  (λ p, diff (interruptions t !!! p)) <$> seq 0 (c_interruption t) = gaps t.
Proof.
  intros Hmem. unfold gaps, records.
  apply list_eq. intros i. rewrite !list_lookup_fmap.
  destruct (decide (i < c_interruption t)%nat) as [Hi|Hi].
  - rewrite lookup_seq_lt by done. rewrite lookup_take_lt by done. simpl.
    destruct (lookup_lt_is_Some_2 (interruptions t) i ltac:(lia)) as [r Hr].
    rewrite Hr. simpl. by rewrite (list_lookup_total_correct _ _ _ Hr).
  - rewrite lookup_seq_ge by lia. by rewrite lookup_take_ge by lia.
Qed.

Lemma ranked_perm (t : thread) :
  well_formed t → ranked t ≡ₚ gaps t.
Proof.
  intros (Hmem & _). rewrite <- gaps_by_pointer by done.
  unfold ranked. apply fmap_Permutation, order_perm.
Qed.

Lemma ranked_sorted (t : thread) :
  well_formed t →
  Forall (λ r, 0 ≤ diff r < two31) (records t) →
  StronglySorted Z.le (ranked t).
Proof.
  intros (Hmem & _) Hsmall. unfold ranked, order.
  apply (StronglySorted_fmap _
           (λ p q, diff (interruptions t !!! p) ≤ diff (interruptions t !!! q)));
    [done|].
  apply qsort_sorted; [intros x y z; lia|].
  intros p q Hp%elem_of_seq Hq%elem_of_seq.
  assert (Hrec : ∀ i, (i < c_interruption t)%nat →
                      0 ≤ diff (interruptions t !!! i) < two31).
  { intros i Hi. rewrite Forall_forall in Hsmall. apply Hsmall.
    apply list_elem_of_lookup. exists i. unfold records.
    rewrite lookup_take_lt by done. apply list_lookup_lookup_total_lt. lia. }
  unfold cmp_ptr. rewrite cmp_small by (apply Hrec; lia). lia.
Qed.

(** With gaps below 2^31 the pointers are left in ascending order of gap. *)
Lemma ranked_ascending (t : thread) :
  well_formed t →
  Forall (λ r, 0 ≤ diff r < two31) (records t) →
  ranked t = merge_sort Z.le (gaps t).
Proof.
  intros Hwf Hsmall.
  apply (StronglySorted_unique Z.le).
  - by apply ranked_sorted.
  - apply StronglySorted_merge_sort; [intros x y z; lia | intros x y; lia].
  - by rewrite ranked_perm, merge_sort_Permutation.
Qed.

Lemma thread_calc_stats_frame (t t' : thread) :
  thread_calc_stats t = Some t' →
  interruptions t' = interruptions t
  ∧ c_interruption t' = c_interruption t
  ∧ core_i t' = core_i t ∧ cpu_mhz t' = cpu_mhz t
  ∧ int_total t' = int_total t
  ∧ frc_start t' = frc_start t ∧ frc_stop t' = frc_stop t.
Proof.
  unfold thread_calc_stats, sort_interruptions, unsort_interruptions.
  intros H. destruct (_ =? _).
  - injection H as <-. done.
  - destruct (decide _); [|done]. simpl in H.
    destruct (_ <? _); [done|]. simpl in H.
    repeat match type of H with
    | (?o ≫= _) = Some _ => destruct o; [simpl in H | done]
    end.
    injection H as <-. done.
Qed.

(** C10: whenever the statistics are computed, the records, the cursor and
    the results of the run are as before: only the pointer block and the
    statistics are written.  For a thread whose cursor lies within its
    blocks the computation succeeds, and computing the statistics again
    from the result changes nothing. *)
Theorem thread_calc_stats_keeps_raw_data (t : thread) :
  (∀ t', thread_calc_stats t = Some t' →
         interruptions t' = interruptions t
         ∧ c_interruption t' = c_interruption t
         ∧ core_i t' = core_i t ∧ cpu_mhz t' = cpu_mhz t
         ∧ int_total t' = int_total t
         ∧ frc_start t' = frc_start t ∧ frc_stop t' = frc_stop t)
  ∧ (well_formed t →
     ∃ t', thread_calc_stats t = Some t'
           ∧ thread_calc_stats t' = Some t').
Proof.
  split; [apply thread_calc_stats_frame|].
  intros Hwf. exists (stats_of t).
  split; [by apply thread_calc_stats_closed|].
  rewrite thread_calc_stats_closed by (by apply stats_of_well_formed).
  by rewrite stats_of_idem.
Qed.

(** ** The percentiles *)

(** The literals are the doubles nearest to the decimals written: each is
    within 2^-54 of its decimal. *)
Lemma literals_nearest :
  Z.abs (8106479329266893 * 10 - 9 * 2 ^ 53) * 2 ≤ 10
  ∧ Z.abs (8917127262193582 * 100 - 99 * 2 ^ 53) * 2 ≤ 100
  ∧ Z.abs (8998192055486251 * 1000 - 999 * 2 ^ 53) * 2 ≤ 1000
  ∧ Z.abs (9006298534815518 * 10000 - 9999 * 2 ^ 53) * 2 ≤ 10000
  ∧ Z.abs (9007109182748445 * 100000 - 99999 * 2 ^ 53) * 2 ≤ 100000.
Proof. repeat split; vm_compute; discriminate. Qed.

(** The gaps 1, 2, ..., 100: the median is the 51st smallest and the 99th
    percentile is the entry at index 99. *)
Lemma stats_of_one_to_hundred :
  (λ t, (int_n t, int_min t, int_median t, int_90 t, int_99 t, int_max t))
    <$> thread_calc_stats (thread_of_gaps (Z.of_nat <$> seq 1 100))
  = Some (100, 1, 51, 91, 100, 100).
Proof. vm_compute. reflexivity. Qed.

(** With all gaps below 2^31 cycles the statistics are the entries of the
    ascending sort of the gaps at the indices n/2 and floor(n * p). *)
Lemma percentiles_nearest_rank_small_gaps (t : thread) :
  well_formed t →
  (0 < c_interruption t)%nat →
  Forall (λ r, 0 ≤ diff r < two31) (records t) →
  ∃ t', thread_calc_stats t = Some t'
        ∧ int_n t' = Z.of_nat (c_interruption t)
        ∧ int_min t' = merge_sort Z.le (gaps t) !!! 0%nat
        ∧ int_median t'
          = merge_sort Z.le (gaps t) !!! Z.to_nat (int_n t' / 2)
        ∧ int_90 t'
          = merge_sort Z.le (gaps t) !!! Z.to_nat (int_n t' * 9 / 10)
        ∧ int_99 t'
          = merge_sort Z.le (gaps t) !!! Z.to_nat (int_n t' * 99 / 100)
        ∧ int_999 t'
          = merge_sort Z.le (gaps t) !!! Z.to_nat (int_n t' * 999 / 1000)
        ∧ int_9999 t'
          = merge_sort Z.le (gaps t) !!! Z.to_nat (int_n t' * 9999 / 10000)
        ∧ int_99999 t'
          = merge_sort Z.le (gaps t) !!! Z.to_nat (int_n t' * 99999 / 100000)
        ∧ int_max t'
          = merge_sort Z.le (gaps t) !!! Z.to_nat (int_n t' - 1).
Proof.
  intros Hwf Hpos Hsmall. exists (stats_of t).
  split; [by apply thread_calc_stats_closed|].
  rewrite <- ranked_ascending by done.
  unfold stats_of.
  destruct (Z.eqb_spec (Z.of_nat (c_interruption t)) 0) as [|Hnz]; [lia|].
  simpl. repeat split.
Qed.

(** With all gaps below 2^31 cycles the statistics are in order. *)
Lemma percentiles_monotone_small_gaps (t : thread) :
  well_formed t →
  (0 < c_interruption t)%nat →
  Forall (λ r, 0 ≤ diff r < two31) (records t) →
  ∃ t', thread_calc_stats t = Some t'
        ∧ int_min t' ≤ int_median t' ∧ int_median t' ≤ int_90 t'
        ∧ int_90 t' ≤ int_99 t' ∧ int_99 t' ≤ int_999 t'
        ∧ int_999 t' ≤ int_9999 t' ∧ int_9999 t' ≤ int_99999 t'
        ∧ int_99999 t' ≤ int_max t'.
Proof.
  intros Hwf Hpos Hsmall. exists (stats_of t).
  split; [by apply thread_calc_stats_closed|].
  pose proof (ranked_sorted t Hwf Hsmall) as Hs.
  pose proof (length_ranked t) as Hlen.
  unfold stats_of.
  destruct (Z.eqb_spec (Z.of_nat (c_interruption t)) 0) as [|Hnz]; [lia|].
  simpl. set (n := Z.of_nat (c_interruption t)) in *.
  assert (Hle : ∀ i j, 0 ≤ i ≤ j → j < n →
                  ranked t !!! Z.to_nat i ≤ ranked t !!! Z.to_nat j).
  { intros i j Hij Hj.
    destruct (decide (i = j)) as [->|]; [lia|].
    apply (StronglySorted_lookup_le (ranked t) (Z.to_nat i) (Z.to_nat j));
      [done | | | lia];
      apply list_lookup_lookup_total_lt; lia. }
  assert (H2 : 0 ≤ n / 2 ≤ n * 9 / 10).
  { split; [apply Z.div_pos; lia|].
    apply Z.div_le_lower_bound; [lia|].
    pose proof (Z.mul_div_le n 2 ltac:(lia)). lia. }
  assert (Hstep : ∀ a b a' b', 0 < a → 0 < b → 0 < b' → a * b' ≤ a' * b →
                    n * a / b ≤ n * a' / b').
  { intros a b a' b' Ha Hb Hb' Hab.
    apply Z.div_le_lower_bound; [lia|].
    pose proof (Z.mul_div_le (n * a) b ltac:(lia)).
    nia. }
  assert (Htop : n * 99999 / 100000 ≤ n - 1).
  { enough (n * 99999 / 100000 < n) by lia.
    apply Z.div_lt_upper_bound; lia. }
  pose proof (Hstep 9 10 99 100) as H3.
  pose proof (Hstep 99 100 999 1000) as H4.
  pose proof (Hstep 999 1000 9999 10000) as H5.
  pose proof (Hstep 9999 10000 99999 100000) as H6.
  repeat split; apply Hle; lia.
Qed.

(** ** Gaps 2^31 cycles apart *)

(** Whatever sorting routine is used, an arrangement of the two pointers
    that the comparator accepts puts the larger gap first. *)
Lemma wide_gaps_order_forced (l : list nat) :
  l ≡ₚ [0%nat; 1%nat] →
  (∀ p q, l = [p; q] →
          cmp_ptr (interruptions (thread_of_gaps wide_gaps)) p q ≤ 0) →
  l = [1%nat; 0%nat].
Proof.
  intros Hperm Hcmp.
  assert (Hlen : length l = 2%nat) by (by rewrite Hperm).
  destruct l as [|p [|q [|]]]; try done.
  assert (Hp : p ∈ [0%nat; 1%nat]) by (rewrite <- Hperm; left).
  assert (Hq : q ∈ [0%nat; 1%nat]) by (rewrite <- Hperm; right; left).
  assert (Hnd : NoDup [p; q]).
  { rewrite Hperm. apply NoDup_cons.
    split; [by intros ?%list_elem_of_singleton | apply NoDup_singleton]. }
  apply NoDup_cons in Hnd as [Hne _].
  specialize (Hcmp p q eq_refl).
  apply elem_of_cons in Hp as [->|Hp]; apply elem_of_cons in Hq as [->|Hq].
  - destruct Hne. left.
  - apply list_elem_of_singleton in Hq as ->. vm_compute in Hcmp. done.
  - apply list_elem_of_singleton in Hp as ->. done.
  - apply list_elem_of_singleton in Hp as ->.
    apply list_elem_of_singleton in Hq as ->. destruct Hne. left.
Qed.

(** C3 at a failing input: of two records with gaps of 3000 and 3000000000
    cycles the reported median and percentiles are 3000, whereas the entry
    at index floor(2 * p) = 1 of the gaps sorted ascending is 3000000000. *)
Theorem percentiles_off_rank_on_wide_gaps :
  ∃ t', thread_calc_stats (thread_of_gaps wide_gaps) = Some t'
        ∧ int_n t' = 2
        ∧ merge_sort Z.le (gaps (thread_of_gaps wide_gaps))
          = [3000; 3000000000]
        ∧ Z.to_nat (int_n t' / 2) = 1%nat
        ∧ Binary64.scale (int_n t') Binary64.c_0_9 = Some 1
        ∧ int_median t' = 3000
        ∧ int_90 t' = 3000 ∧ int_99 t' = 3000 ∧ int_999 t' = 3000
        ∧ int_9999 t' = 3000 ∧ int_99999 t' = 3000.
Proof.
  eexists. split; [vm_compute; reflexivity|]. vm_compute. repeat split.
Qed.

(** C4 at a failing input: the comparator puts the gap of 3000000000 cycles
    before the gap of 3000 cycles, and the statistics come out with the
    minimum above the median and above the maximum. *)
Theorem stats_out_of_order_on_wide_gaps :
  qsort_cmp_interruption (Interruption 2 3000000000) (Interruption 1 3000)
  = -1294970296
  ∧ qsort_cmp_interruption (Interruption 1 3000) (Interruption 2 3000000000)
    = 1294970296
  ∧ ∃ t', thread_calc_stats (thread_of_gaps wide_gaps) = Some t'
          ∧ int_min t' = 3000000000
          ∧ int_median t' = 3000
          ∧ int_max t' = 3000
          ∧ ¬ int_min t' ≤ int_median t'
          ∧ ¬ int_min t' ≤ int_max t'.
Proof.
  split; [vm_compute; reflexivity|]. split; [vm_compute; reflexivity|].
  eexists. split; [vm_compute; reflexivity|].
  vm_compute. repeat split; intros H; apply H; reflexivity.
Qed.

(** ** The theorems at the sample data *)

Lemma doit_records_iff_threshold_witness :
  block_ok demo_global demo_thread
  ∧ ∃ t', doit demo_global demo_thread 100 1000 demo_reads = Some t'
          ∧ records t' = [Interruption 1500 490; Interruption 2200 695;
                          Interruption 9000 6790].
Proof.
  split; [reflexivity|].
  destruct (doit_records_iff_threshold demo_global demo_thread 100 1000
              demo_reads) as [Hdef Hspec]; [reflexivity|].
  destruct Hdef as [t' Ht']; [reflexivity|].
  exists t'. split; [exact Ht'|].
  destruct (Hspec t' Ht') as [Hrec _]. rewrite Hrec. vm_compute. reflexivity.
Defined.

Lemma doit_total_is_sum_witness :
  block_ok demo_global demo_thread
  ∧ ∃ t', doit demo_global demo_thread 100 1000 demo_reads = Some t'
          ∧ int_total t' = wrap64 (sum_diff (records t')).
Proof.
  split; [reflexivity|].
  destruct (doit_total_is_sum demo_global demo_thread 100 1000 demo_reads)
    as [Hdef Hspec]; [reflexivity|].
  destruct Hdef as [t' Ht']; [reflexivity|].
  exists t'. split; [exact Ht'|].
  destruct (Hspec t' Ht') as [Htot _]. exact Htot.
Defined.

Lemma doit_timestamps_nondecreasing_witness :
  block_ok demo_global demo_thread
  ∧ Sorted Z.le (1000 :: demo_reads)
  ∧ Forall (λ r, 0 ≤ r < two64) (1000 :: demo_reads)
  ∧ ∃ t', doit demo_global demo_thread 100 1000 demo_reads = Some t'
          ∧ StronglySorted Z.le (ts <$> records t').
Proof.
  assert (Hs : Sorted Z.le (1000 :: demo_reads)).
  { unfold demo_reads.
    repeat first [apply Sorted_nil | apply HdRel_nil
                 | apply Sorted_cons | apply HdRel_cons; [lia] ]. }
  assert (Hr : Forall (λ r, 0 ≤ r < two64) (1000 :: demo_reads)).
  { unfold demo_reads, two64.
    repeat first [apply Forall_nil_2 | apply Forall_cons_2; [lia|] ]. }
  split; [reflexivity|]. split; [exact Hs|]. split; [exact Hr|].
  destruct (doit_timestamps_nondecreasing demo_global demo_thread 100 1000
              demo_reads) as [Hdef Hspec]; [reflexivity | exact Hs | exact Hr |].
  destruct Hdef as [t' Ht']; [reflexivity|].
  exists t'. split; [exact Ht'|].
  destruct (Hspec t' Ht') as [Hsorted _]. exact Hsorted.
Defined.

Lemma empty_buffer_stats_zero_witness :
  c_interruption demo_thread = 0%nat
  ∧ ∃ t', thread_calc_stats demo_thread = Some t'
          ∧ int_min t' = 0 ∧ int_max t' = 0 ∧ int_mean t' = 0
          ∧ int_median t' = 0 ∧ int_99999 t' = 0.
Proof.
  split; [reflexivity|].
  destruct (empty_buffer_stats_zero demo_thread) as (t' & Ht' & H); [reflexivity|].
  exists t'. split; [exact Ht'|]. tauto.
Defined.

(** A calibration run of one second in which the busiest thread saw 500
    interruptions: the capacity for a run of 70 seconds is 2 * 1000 * 70. *)
Lemma calc_max_interruptions_formula_witness :
  0 < runtime_secs demo_global
  ∧ Forall (λ t, Z.of_nat (c_interruption t) ≤ INT_MAX)
           [thread_of_gaps (replicate 500 7); thread_of_gaps (replicate 20 7)]
  ∧ observed_rate demo_global
      [thread_of_gaps (replicate 500 7); thread_of_gaps (replicate 20 7)] = 500
  ∧ ∃ g' threads',
      calc_max_interruptions demo_global
        [thread_of_gaps (replicate 500 7); thread_of_gaps (replicate 20 7)] 70
      = Some (g', threads')
      ∧ max_interruptions g' = 140000.
Proof.
  assert (Hc : Forall (λ t, Z.of_nat (c_interruption t) ≤ INT_MAX)
           [thread_of_gaps (replicate 500 7); thread_of_gaps (replicate 20 7)]).
  { repeat first [apply Forall_nil_2
                 | apply Forall_cons_2; [vm_compute; discriminate|] ]. }
  split; [reflexivity|]. split; [exact Hc|]. split; [vm_compute; reflexivity|].
  destruct (calc_max_interruptions_formula demo_global
              [thread_of_gaps (replicate 500 7); thread_of_gaps (replicate 20 7)]
              70) as (g' & threads' & Hrun & _ & _ & Hlow); [reflexivity | exact Hc |].
  exists g', threads'. split; [exact Hrun|].
  rewrite Hlow; [reflexivity | vm_compute; reflexivity].
Defined.

(** The sample run fills its three slots: the check exits with status 2. *)
Lemma capacity_respected_and_overflow_reported_witness :
  0 ≤ max_interruptions demo_global
  ∧ ∃ t', doit demo_global demo_thread 100 1000 demo_reads = Some t'
          ∧ Forall (sampled demo_global) [t']
          ∧ Z.of_nat (c_interruption t') ≤ 3
          ∧ (post_test_checks demo_global [t']).2 = Exits 2.
Proof.
  split; [vm_compute; discriminate|].
  destruct (doit_defined demo_global 100 demo_thread 1000 demo_reads)
    as [t' Hrun]; [reflexivity | reflexivity |].
  assert (Hs : Forall (sampled demo_global) [t']).
  { apply Forall_cons_2; [|apply Forall_nil_2].
    exists demo_thread, 100, 1000, demo_reads. split; [reflexivity | exact Hrun]. }
  exists t'. split; [exact Hrun|]. split; [exact Hs|].
  destruct (capacity_respected_and_overflow_reported demo_global [t'])
    as (Hbound & Hexit & _); [vm_compute; discriminate | exact Hs |].
  apply Forall_cons_1 in Hbound as [[Hle _] _].
  split; [exact Hle|].
  apply Hexit. apply Exists_cons_hd.
  vm_compute in Hrun. injection Hrun as <-. reflexivity.
Defined.

Lemma thread_calc_stats_keeps_raw_data_witness :
  well_formed (thread_of_gaps [5; 3; 9; 1; 7])
  ∧ ∃ t', thread_calc_stats (thread_of_gaps [5; 3; 9; 1; 7]) = Some t'
          ∧ interruptions t' = interruptions (thread_of_gaps [5; 3; 9; 1; 7])
          ∧ c_interruption t' = 5%nat
          ∧ thread_calc_stats t' = Some t'.
Proof.
  assert (Hwf : well_formed (thread_of_gaps [5; 3; 9; 1; 7])).
  { split; [vm_compute; lia|]. split; [vm_compute; lia|].
    vm_compute. discriminate. }
  split; [exact Hwf|].
  destruct (thread_calc_stats_keeps_raw_data (thread_of_gaps [5; 3; 9; 1; 7]))
    as [Hframe Hidem].
  destruct (Hidem Hwf) as (t' & Hrun & Hagain).
  destruct (Hframe t' Hrun) as (Hmem & Hc & _).
  exists t'. split; [exact Hrun|]. split; [exact Hmem|].
  split; [exact Hc | exact Hagain].
Defined.

(** ** More on the sampling loop *)

Lemma doit_loop_above (i_end : nat) (threshold_cycles : Z) (reads : list Z) :
  ∀ mem i prev_ts total mem' i' total',
    doit_loop i_end threshold_cycles reads mem i prev_ts total
      = Some (mem', i', total') →
    (i ≤ i')%nat ∧ drop (S i') mem' = drop (S i') mem
    ∧ length mem' = length mem.
Proof.
  induction reads as [|now rest IH]; intros mem i prev_ts total mem' i' total'.
  - simpl. intros [= <- <- <-]. done.
  - simpl. destruct (decide _) as [Hi|]; [|done].
    destruct (_ <=? _).
    + destruct (decide _).
      * intros [= <- <- <-]. split; [lia|].
        split; [by rewrite drop_insert_lt by lia | apply length_insert].
      * intros Hrun. apply IH in Hrun as (Hle & Hdrop & Hlen).
        split; [lia|]. rewrite Hdrop, Hlen, length_insert.
        split; [by rewrite drop_insert_lt by lia | done].
    + intros Hrun. apply IH in Hrun as (Hle & Hdrop & Hlen).
      split; [lia|]. rewrite Hdrop, Hlen, length_insert.
      split; [by rewrite drop_insert_lt by lia | done].
Qed.

(** X1: the loop writes the cursor, the total and the slots up to the cursor
    and nothing else: the slots above the final cursor, the size of the
    block, the pointer block and every other field are as before. *)
Theorem doit_writes_only_its_results (g : global) (t t' : thread)
    (threshold_cycles first_read : Z) (go_reads : list Z) :
  doit g t threshold_cycles first_read go_reads = Some t' →
  length (interruptions t') = length (interruptions t)
  ∧ (∀ k, (c_interruption t' < k)%nat →
          interruptions t' !! k = interruptions t !! k)
  ∧ set_sampling (interruptions t) (c_interruption t) (int_total t) t' = t.
Proof.
  unfold doit. intros Hrun.
  destruct (doit_loop _ _ _ _ _ _ _) as [[[mem' i'] total']|] eqn:Hloop; [|done].
  simpl in Hrun. injection Hrun as <-.
  apply doit_loop_above in Hloop as (_ & Hdrop & Hlen). simpl.
  split; [done|]. split; [|by destruct t].
  intros k Hk.
  replace k with (S i' + (k - S i'))%nat by lia.
  by rewrite <- !lookup_drop, Hdrop.
Qed.

Lemma wrap64_nonneg (z : Z) : 0 ≤ wrap64 z.
Proof. unfold wrap64, two64. apply Z.mod_pos_bound. lia. Qed.

Lemma hits_all (threshold_cycles prev_ts : Z) (reads : list Z) :
  threshold_cycles ≤ 0 →
  hits threshold_cycles prev_ts reads = samples prev_ts reads.
Proof.
  intros Hthr. revert prev_ts.
  induction reads as [|now rest IH]; intros prev_ts; [done|].
  rewrite hits_cons, IH. pose proof (wrap64_nonneg (now - prev_ts)).
  destruct (Z.leb_spec threshold_cycles (wrap64 (now - prev_ts))); [done | lia].
Qed.

Lemma hits_none (threshold_cycles prev_ts : Z) (reads : list Z) :
  Forall (λ r, diff r < threshold_cycles) (samples prev_ts reads) →
  hits threshold_cycles prev_ts reads = [].
Proof.
  revert prev_ts. induction reads as [|now rest IH]; intros prev_ts; [done|].
  simpl. intros [Hd Hrest]%Forall_cons. rewrite hits_cons, IH by done.
  simpl in Hd.
  destruct (Z.leb_spec threshold_cycles (wrap64 (now - prev_ts))); [lia | done].
Qed.

Lemma length_samples (prev_ts : Z) (reads : list Z) :
  length (samples prev_ts reads) = length reads.
Proof. by rewrite <- (ts_samples prev_ts reads) at 2; rewrite length_fmap. Qed.

(** X2: with a threshold of zero every iteration appends its sample: [k]
    iterations leave [min k capacity] records, and the thread counts as
    overflowed exactly when there were at least [capacity] iterations. *)
Theorem doit_threshold_zero_fills (g : global) (t : thread)
    (first_read : Z) (go_reads : list Z) :
  block_ok g t → 0 < max_interruptions g →
  ∃ t', doit g t 0 first_read go_reads = Some t'
        ∧ records t'
          = take (Z.to_nat (max_interruptions g)) (samples first_read go_reads)
        ∧ c_interruption t'
          = (length go_reads `min` Z.to_nat (max_interruptions g))%nat
        ∧ (overflowed g t' = true
           ↔ max_interruptions g ≤ Z.of_nat (length go_reads)).
Proof.
  intros Hblock Hcap.
  destruct (doit_defined g 0 t first_read go_reads Hblock Hcap) as [t' Hrun].
  destruct (doit_spec g 0 t t' first_read go_reads Hblock Hrun)
    as (Hrec & Hc & _ & _).
  rewrite hits_all in Hrec by done.
  exists t'. split; [done|]. split; [done|].
  assert (Hcount : c_interruption t'
            = (length go_reads `min` Z.to_nat (max_interruptions g))%nat).
  { rewrite Hc, Hrec, length_take, length_samples. lia. }
  split; [done|]. unfold overflowed. rewrite Hcount, Z.eqb_eq. lia.
Qed.

(** X3: a run in which no gap reaches the threshold records nothing: the count
    and the total are zero, the thread does not count as overflowed, and
    its statistics are all zero. *)
Theorem doit_quiet_run_records_nothing (g : global) (t : thread)
    (threshold_cycles first_read : Z) (go_reads : list Z) :
  block_ok g t → 0 < max_interruptions g →
  Forall (λ r, diff r < threshold_cycles) (samples first_read go_reads) →
  ∃ t', doit g t threshold_cycles first_read go_reads = Some t'
        ∧ c_interruption t' = 0%nat ∧ int_total t' = 0
        ∧ overflowed g t' = false
        ∧ ∃ t'', thread_calc_stats t' = Some t''
                 ∧ int_n t'' = 0 ∧ int_min t'' = 0 ∧ int_median t'' = 0
                 ∧ int_99999 t'' = 0 ∧ int_max t'' = 0 ∧ int_mean t'' = 0.
Proof.
  intros Hblock Hcap Hquiet.
  destruct (doit_defined g threshold_cycles t first_read go_reads Hblock Hcap)
    as [t' Hrun].
  destruct (doit_spec g threshold_cycles t t' first_read go_reads Hblock Hrun)
    as (Hrec & Hc & Htot & _).
  rewrite hits_none in Hrec by done. rewrite take_nil in Hrec.
  rewrite Hrec in Hc, Htot. simpl in Hc.
  exists t'. split; [done|]. split; [done|]. split; [done|].
  split; [unfold overflowed; rewrite Hc; apply Z.eqb_neq; lia|].
  unfold thread_calc_stats. rewrite Hc. simpl.
  eexists. split; [reflexivity|]. done.
Qed.

(** ** More on the statistics *)

(** X4: the indices [thread_calc_stats] computes in double precision are the
    integer quotients, and they lie below the count. *)
Theorem percentile_index_is_floor (n : Z) :
  0 < n ≤ INT_MAX →
  Binary64.scale n Binary64.c_0_9 = Some (n * 9 / 10)
  ∧ Binary64.scale n Binary64.c_0_99 = Some (n * 99 / 100)
  ∧ Binary64.scale n Binary64.c_0_999 = Some (n * 999 / 1000)
  ∧ Binary64.scale n Binary64.c_0_9999 = Some (n * 9999 / 10000)
  ∧ Binary64.scale n Binary64.c_0_99999 = Some (n * 99999 / 100000)
  ∧ 0 ≤ n * 9 / 10 ≤ n * 99999 / 100000 ∧ n * 99999 / 100000 < n.
Proof.
  intros Hn. destruct (scale_percentiles n Hn) as (? & ? & ? & ? & ?).
  repeat (split; [done|]).
  split; [split|].
  - apply Z.div_pos; lia.
  - apply Z.div_le_lower_bound; [lia|].
    pose proof (Z.mul_div_le (n * 9) 10 ltac:(lia)). lia.
  - apply Z.div_lt_upper_bound; lia.
Qed.

Lemma ranked_elem (t : thread) (k : Z) :
  well_formed t → 0 ≤ k < Z.of_nat (c_interruption t) →
  ranked t !!! Z.to_nat k ∈ gaps t.
Proof.
  intros Hwf Hk. rewrite <- ranked_perm by done.
  apply list_elem_of_lookup_total_2. rewrite length_ranked. lia.
Qed.

(** X5: whatever the gaps are, every order statistic reported for a non-empty
    buffer is the gap of one of its records, the count is the number of
    records and the mean is their sum modulo 2^64 over the count. *)
Theorem stats_are_recorded_gaps (t : thread) :
  well_formed t → (0 < c_interruption t)%nat →
  ∃ t', thread_calc_stats t = Some t'
        ∧ int_n t' = Z.of_nat (c_interruption t)
        ∧ runtime t' = wrap64 (frc_stop t - frc_start t)
        ∧ Forall (λ v, v ∈ gaps t)
            [int_min t'; int_median t'; int_90 t'; int_99 t'; int_999 t';
             int_9999 t'; int_99999 t'; int_max t']
        ∧ int_mean t' = wrap64 (sum_diff (records t)) / int_n t'.
Proof.
  intros Hwf Hpos. exists (stats_of t).
  split; [by apply thread_calc_stats_closed|].
  unfold stats_of.
  destruct (Z.eqb_spec (Z.of_nat (c_interruption t)) 0) as [|Hnz]; [lia|].
  simpl. split; [done|]. split; [done|]. split; [|done].
  set (n := Z.of_nat (c_interruption t)) in *.
  assert (Hidx : ∀ a b, 0 < a < b → 0 ≤ n * a / b < n).
  { intros a b Hab. split; [apply Z.div_pos; lia|].
    apply Z.div_lt_upper_bound; nia. }
  assert (Hhalf : 0 ≤ n / 2 < n).
  { split; [apply Z.div_pos; lia|]. apply Z.div_lt_upper_bound; lia. }
  repeat apply Forall_cons_2; try apply Forall_nil_2;
    apply ranked_elem; first [done | apply Hidx; lia | unfold n in *; lia].
Qed.

(** ** More on the sort *)

Lemma to_int_range (z : Z) : - two31 ≤ z < two31 → to_int z = z.
Proof.
  intros Hz. unfold to_int, two31, two32 in *.
  destruct (Z.le_gt_cases 0 z).
  - rewrite Z.mod_small by lia. destruct (Z.ltb_spec z (2 ^ 31)); lia.
  - replace (z mod 2 ^ 32) with (z + 2 ^ 32)
      by (apply Z.mod_unique with (q := -1); lia).
    destruct (Z.ltb_spec (z + 2 ^ 32) (2 ^ 31)); lia.
Qed.

Lemma to_int_wrap64 (z : Z) : to_int (wrap64 z) = to_int z.
Proof.
  unfold to_int, wrap64, two64, two32.
  rewrite Z.mod_mod_divide; [done|]. exists (2 ^ 32). reflexivity.
Qed.

Lemma to_int_zero (z : Z) : to_int z = 0 ↔ z mod two32 = 0.
Proof.
  unfold to_int, two31, two32.
  pose proof (Z.mod_pos_bound z (2 ^ 32) ltac:(lia)).
  destruct (Z.ltb_spec (z mod 2 ^ 32) (2 ^ 31)); lia.
Qed.

(** X6: the comparator is the difference of the gaps whenever they are less
    than 2^31 apart, so its sign then orders them; and it calls two gaps
    equal exactly when they differ by a multiple of 2^32. *)
Theorem comparator_faithful_within_2_31 (a b : interruption) :
  (- two31 ≤ diff a - diff b < two31 →
   qsort_cmp_interruption a b = diff a - diff b)
  ∧ (qsort_cmp_interruption a b = 0 ↔ (diff a - diff b) mod two32 = 0).
Proof.
  unfold qsort_cmp_interruption. rewrite to_int_wrap64. split.
  - apply to_int_range.
  - apply to_int_zero.
Qed.

(** X7: sorting fills [sorted[0 .. n)] with a rearrangement of the pointers to
    the [n] records and touches nothing else; when all gaps are below 2^31
    the pointers come out in ascending order of gap. *)
Theorem sort_interruptions_permutes (t : thread) :
  well_formed t →
  ∃ t1, sort_interruptions t = Some t1
        ∧ take (c_interruption t) (sorted t1) ≡ₚ seq 0 (c_interruption t)
        ∧ drop (c_interruption t) (sorted t1)
          = drop (c_interruption t) (sorted t)
        ∧ set_sorted (sorted t) t1 = t
        ∧ (Forall (λ r, 0 ≤ diff r < two31) (records t) →
           StronglySorted Z.le
             ((λ p, diff (interruptions t !!! p))
                <$> take (c_interruption t) (sorted t1))).
Proof.
  intros Hwf. eexists. split; [by apply sort_interruptions_spec|]. simpl.
  rewrite take_app_length' by (by rewrite length_order).
  rewrite drop_app_length' by (by rewrite length_order).
  split; [apply order_perm|]. split; [done|]. split; [by destruct t|].
  intros Hsmall. by apply ranked_sorted.
Qed.

(** ** Cycles and time *)

(** X10: with a nonzero frequency and no wrap-around the microseconds are the
    nanoseconds over 1000 and both grow with the cycles; with a zero
    frequency neither conversion has a result. *)
Theorem cycles_to_us_is_ns_over_1000 (t : thread) (cycles : Z) :
  (cpu_mhz t = 0 →
   cycles_to_ns t cycles = None ∧ cycles_to_us t cycles = None)
  ∧ (0 < cpu_mhz t → 0 ≤ cycles → cycles * 1000 < two64 →
     ∃ ns us, cycles_to_ns t cycles = Some ns
              ∧ cycles_to_us t cycles = Some us
              ∧ us = ns / 1000
              ∧ ∀ more, cycles ≤ more → more * 1000 < two64 →
                  ∃ ns', cycles_to_ns t more = Some ns' ∧ ns ≤ ns').
Proof.
  unfold cycles_to_ns, cycles_to_us. split.
  - intros ->. done.
  - intros Hm Hc Hfit.
    destruct (Z.eqb_spec (cpu_mhz t) 0) as [|_]; [lia|].
    eexists _, _. split; [reflexivity|]. split; [reflexivity|].
    rewrite wrap64_small by lia. split.
    + rewrite Z.div_div by lia.
      by rewrite Z.div_mul_cancel_r by lia.
    + intros more Hmore Hfit'. eexists. split; [reflexivity|].
      rewrite wrap64_small by lia. apply Z.div_le_mono; lia.
Qed.

(** X11: the threshold in cycles, turned back into nanoseconds, never exceeds
    the threshold asked for; and a gap that reaches the threshold in cycles
    is reported as at least the threshold asked for less 1 + 998 / cpu_mhz
    nanoseconds. *)
Theorem threshold_round_trip (g : global) (t : thread) :
  0 < cpu_mhz t < two32 → 0 ≤ threshold_nsec g < two32 →
  (∃ ns, cycles_to_ns t (threshold_cycles_of g t) = Some ns
         ∧ ns ≤ threshold_nsec g)
  ∧ (∀ gap, threshold_cycles_of g t ≤ gap → gap * 1000 < two64 →
       ∃ ns, cycles_to_ns t gap = Some ns
             ∧ threshold_nsec g ≤ ns + 1 + 998 / cpu_mhz t).
Proof.
  intros Hm HT. unfold cycles_to_ns, threshold_cycles_of.
  destruct (Z.eqb_spec (cpu_mhz t) 0) as [|_]; [lia|].
  unfold two32, two64 in *.
  assert (Hprod : 0 ≤ threshold_nsec g * cpu_mhz t < 2 ^ 64).
  { change (2 ^ 64) with (2 ^ 32 * 2 ^ 32). nia. }
  rewrite (wrap64_small (threshold_nsec g * cpu_mhz t)) by (unfold two64; lia).
  pose proof (Z.mul_div_le (threshold_nsec g * cpu_mhz t) 1000 ltac:(lia)) as Hfloor.
  pose proof (Z.mod_pos_bound (threshold_nsec g * cpu_mhz t) 1000 ltac:(lia)) as Hrem.
  pose proof (Z.div_mod (threshold_nsec g * cpu_mhz t) 1000 ltac:(lia)) as Hdm.
  assert (0 ≤ threshold_nsec g * cpu_mhz t / 1000) by (apply Z.div_pos; lia).
  split.
  - eexists. split; [reflexivity|].
    rewrite wrap64_small by (unfold two64; lia).
    apply Z.div_le_upper_bound; lia.
  - intros gap Hgap Hfit. eexists. split; [reflexivity|].
    rewrite wrap64_small by (unfold two64; lia).
    pose proof (Z.div_mod (gap * 1000) (cpu_mhz t) ltac:(lia)) as Hdm'.
    pose proof (Z.mod_pos_bound (gap * 1000) (cpu_mhz t) ltac:(lia)) as Hrem'.
    set (ns := gap * 1000 / cpu_mhz t) in *.
    assert (Hle : threshold_nsec g * cpu_mhz t ≤ (ns + 1) * cpu_mhz t + 998) by nia.
    pose proof (Z.div_mod 998 (cpu_mhz t) ltac:(lia)) as Hdm''.
    pose proof (Z.mod_pos_bound 998 (cpu_mhz t) ltac:(lia)) as Hrem''.
    nia.
Qed.

(** ** Frequency calibration *)

Lemma measure_loop_settles (estimates : list Z) :
  ∀ mprev mhz,
    measure_loop mprev estimates = Some mhz →
    ∃ k m, (mprev :: estimates) !! S k = Some m
           ∧ (∃ before, (mprev :: estimates) !! k = Some before
                        ∧ Z.abs (m - before) ≤ m / 1000)
           ∧ mhz = to_unsigned (m / 1000000)
           ∧ ∀ j a b, (j < k)%nat →
               (mprev :: estimates) !! j = Some a →
               (mprev :: estimates) !! S j = Some b →
               b / 1000 < Z.abs (b - a).
Proof.
  induction estimates as [|m rest IH]; intros mprev mhz; [done|].
  simpl.
  assert (Hd : (if mprev <? m then m - mprev else mprev - m) = Z.abs (m - mprev)).
  { destruct (Z.ltb_spec mprev m); lia. }
  rewrite Hd.
  destruct (Z.ltb_spec (m / 1000) (Z.abs (m - mprev))) as [Hfar|Hnear].
  - intros Hrun. destruct (IH m mhz Hrun) as (k & m' & Hm' & Hb & Hmhz & Hearlier).
    exists (S k), m'. split; [done|]. split; [done|]. split; [done|].
    intros [|j] a b Hj Ha Hb'; simpl in *.
    + injection Ha as <-. injection Hb' as <-. done.
    + apply (Hearlier j a b); [lia | done | done].
  - intros [= <-]. exists 0%nat, m. split; [done|].
    split; [by exists mprev|]. split; [done|]. intros; lia.
Qed.

(** X12: the calibration returns at the first estimate that is within a
    thousandth of the one before it, and returns that estimate in MHz; every
    earlier pair of successive estimates is further apart. *)
Theorem measure_cpu_mhz_first_settled (estimates : list Z) (mhz : Z) :
  measure_cpu_mhz estimates = Some mhz →
  ∃ k before m,
    estimates !! k = Some before ∧ estimates !! S k = Some m
    ∧ Z.abs (m - before) ≤ m / 1000
    ∧ mhz = to_unsigned (m / 1000000)
    ∧ ∀ j a b, (j < k)%nat →
        estimates !! j = Some a → estimates !! S j = Some b →
        b / 1000 < Z.abs (b - a).
Proof.
  destruct estimates as [|mprev rest]; [done|]. simpl. intros Hrun.
  destruct (measure_loop_settles rest mprev mhz Hrun)
    as (k & m & Hm & (before & Hb & Hnear) & Hmhz & Hearlier).
  exists k, before, m. done.
Qed.

(** ** More on allocation *)

(** X13: below 2^27 records the allocation is the capacity, zeroed, with the
    cursor at its start.  From 2^27 to 2^28 the byte count is negative as
    an [int] and the thread exits.  From 2^28 on the byte count has wrapped
    and the block is shorter than the capacity [doit] relies on. *)
Theorem thread_init_allocation (g : global) (t : thread) :
  0 ≤ max_interruptions g < two32 →
  (max_interruptions g < 2 ^ 27 →
   ∃ t', thread_init g t = Some t'
         ∧ interruptions t'
           = replicate (Z.to_nat (max_interruptions g)) (Interruption 0 0)
         ∧ block_ok g t' ∧ c_interruption t' = 0%nat
         ∧ length (sorted t') = Z.to_nat (max_interruptions g))
  ∧ (2 ^ 27 ≤ max_interruptions g < 2 ^ 28 → thread_init g t = None)
  ∧ (2 ^ 28 ≤ max_interruptions g →
     ∀ t', thread_init g t = Some t' →
           (length (interruptions t') < Z.to_nat (max_interruptions g))%nat).
Proof.
  intros Hmax. unfold thread_init, sizeof_interruption, two32 in *.
  split; [|split].
  - intros Hsmall.
    rewrite to_int_small by (unfold INT_MAX, two31; lia).
    destruct (Z.ltb_spec (max_interruptions g * 16) 0) as [|_]; [lia|].
    eexists. split; [reflexivity|]. unfold block_ok. simpl.
    rewrite Z.div_mul by lia. rewrite !length_replicate. done.
  - intros Hmid. unfold to_int, two32, two31.
    rewrite Z.mod_small by lia.
    destruct (Z.ltb_spec (max_interruptions g * 16) (2 ^ 31)) as [|_]; [lia|].
    destruct (Z.ltb_spec (max_interruptions g * 16 - 2 ^ 32) 0); [done | lia].
  - intros Hbig t'. destruct (_ <? 0) eqn:Hneg; [done|].
    intros [= <-]. simpl. rewrite length_replicate.
    apply Z.ltb_ge in Hneg.
    assert (to_int (max_interruptions g * 16) < 2 ^ 31).
    { unfold to_int, two31, two32.
      pose proof (Z.mod_pos_bound (max_interruptions g * 16) (2 ^ 32) ltac:(lia)).
      destruct (_ <? _) eqn:Hlt; [by apply Z.ltb_lt in Hlt | lia]. }
    assert (to_int (max_interruptions g * 16) / 16 < 2 ^ 27).
    { apply Z.div_lt_upper_bound; lia. }
    assert (0 ≤ to_int (max_interruptions g * 16) / 16) by (apply Z.div_pos; lia).
    lia.
Qed.

(** ** A whole thread *)

Lemma doit_other_fields (g : global) (t t' : thread) (thr r0 : Z) (reads : list Z) :
  doit g t thr r0 reads = Some t' →
  sorted t' = sorted t ∧ cpu_mhz t' = cpu_mhz t ∧ core_i t' = core_i t
  ∧ frc_start t' = frc_start t ∧ frc_stop t' = frc_stop t.
Proof.
  unfold doit. destruct (doit_loop _ _ _ _ _ _ _) as [[[? ?] ?]|]; [|done].
  simpl. by intros [= <-].
Qed.

(** What [thread_main] leaves, once it has run to its end. *)
Lemma thread_main_state (env : environment) (g : global) (t : thread) (w : world) :
  thread_main env (World g t []) = Some (tt, w) →
  ∃ mhz t0 t1,
    env_affinity env = 0
    ∧ thread_init g t = Some t0
    ∧ measure_cpu_mhz (env_estimates env) = Some mhz
    ∧ doit (bump Running (bump Started g))
           (set_timing mhz (env_frc_start env) (frc_stop t0) t0)
           (wrap64 (threshold_nsec g * mhz) / 1000)
           (env_first_read env) (env_go_reads env) = Some t1
    ∧ w_t w = set_timing mhz (env_frc_start env) (env_frc_stop env) t1
    ∧ w_g w = bump Finished (bump Running (bump Started g)).
Proof.
  unfold thread_main, thread_init_p, measure_cpu_mhz_p, doit_p,
    atomic_inc, move_to_core, TEST, emit, get_thread, get_global, put_thread,
    put_global, lift, mbind, prog_bind, mret, prog_ret.
  cbn -[thread_init doit measure_cpu_mhz bump].
  destruct (Z.eqb_spec (env_affinity env) 0) as [Hrc|]; [|done].
  cbn -[thread_init doit measure_cpu_mhz bump].
  destruct (thread_init g t) as [t0|] eqn:Hinit; [|done].
  cbn -[thread_init doit measure_cpu_mhz bump].
  destruct (measure_cpu_mhz (env_estimates env)) as [mhz|] eqn:Hmhz; [|done].
  cbn -[thread_init doit measure_cpu_mhz bump].
  replace (threshold_nsec (bump Running (bump Started g)))
    with (threshold_nsec g) by (by destruct g).
  destruct (doit _ _ _ _ _) as [t1|] eqn:Hdoit; [|done].
  cbn -[thread_init doit measure_cpu_mhz bump].
  intros [= <-]. exists mhz, t0, t1.
  destruct (doit_other_fields _ _ _ _ _ _ Hdoit) as (_ & Hm & _ & Hs & _).
  simpl in Hm, Hs. simpl. rewrite Hm, Hs. done.
Qed.

(** X14: a thread that runs to the end of [thread_main] with a capacity below
    2^27 has added one to each of the three counters it passes, holds the
    frequency it measured and the two stamps around the loop, and its
    records are the samples that reach [threshold_nsec * cpu_mhz / 1000]
    cycles, up to the capacity. *)
Theorem thread_main_result (env : environment) (g : global) (t : thread)
    (w : world) :
  0 ≤ max_interruptions g < 2 ^ 27 →
  thread_main env (World g t []) = Some (tt, w) →
  n_threads_started (w_g w) = to_unsigned (n_threads_started g + 1)
  ∧ n_threads_running (w_g w) = to_unsigned (n_threads_running g + 1)
  ∧ n_threads_finished (w_g w) = to_unsigned (n_threads_finished g + 1)
  ∧ max_interruptions (w_g w) = max_interruptions g
  ∧ measure_cpu_mhz (env_estimates env) = Some (cpu_mhz (w_t w))
  ∧ frc_start (w_t w) = env_frc_start env
  ∧ frc_stop (w_t w) = env_frc_stop env
  ∧ records (w_t w)
    = take (Z.to_nat (max_interruptions g))
        (hits (threshold_cycles_of g (w_t w))
              (env_first_read env) (env_go_reads env))
  ∧ int_total (w_t w) = wrap64 (sum_diff (records (w_t w))).
Proof.
  intros Hmax Hrun.
  destruct (thread_main_state env g t w Hrun)
    as (mhz & t0 & t1 & _ & Hinit & Hmhz & Hdoit & -> & ->).
  destruct (thread_init_block g t Hmax) as (t0' & Hinit' & Hblock & _).
  rewrite Hinit in Hinit'. injection Hinit' as <-.
  set (g2 := bump Running (bump Started g)) in *.
  assert (Hcap : max_interruptions g2 = max_interruptions g) by done.
  assert (Hblock2 : block_ok g2
            (set_timing mhz (env_frc_start env) (frc_stop t0) t0)) by exact Hblock.
  destruct (doit_spec g2 _ _ t1 _ _ Hblock2 Hdoit) as (Hrec & _ & Htot & _).
  rewrite Hcap in Hrec. unfold threshold_cycles_of. simpl.
  repeat (split; [done|]). done.
Qed.

(** X15: after a thread has run, its statistics can be computed, and every
    order statistic of a non-empty buffer is at least the threshold in
    cycles; the mean is the thread's total over its count. *)
Theorem stats_after_thread_main (env : environment) (g : global) (t : thread)
    (w : world) :
  0 < max_interruptions g < 2 ^ 27 →
  thread_main env (World g t []) = Some (tt, w) →
  ∃ t2, thread_calc_stats (w_t w) = Some t2
        ∧ int_n t2 = Z.of_nat (c_interruption (w_t w))
        ∧ (0 < int_n t2 →
           Forall (λ v, threshold_cycles_of g (w_t w) ≤ v)
             [int_min t2; int_median t2; int_90 t2; int_99 t2; int_999 t2;
              int_9999 t2; int_99999 t2; int_max t2]
           ∧ int_mean t2 = int_total (w_t w) / int_n t2).
Proof.
  intros Hmax Hrun.
  destruct (thread_main_state env g t w Hrun)
    as (mhz & t0 & t1 & _ & Hinit & Hmhz & Hdoit & Hw & _).
  destruct (thread_init_block g t ltac:(lia)) as (t0' & Hinit' & Hblock & _ & Hptr).
  rewrite Hinit in Hinit'. injection Hinit' as <-.
  set (g2 := bump Running (bump Started g)) in *.
  assert (Hblock2 : block_ok g2
            (set_timing mhz (env_frc_start env) (frc_stop t0) t0)) by exact Hblock.
  destruct (doit_spec g2 _ _ t1 _ _ Hblock2 Hdoit) as (Hrec & _ & Htot & _).
  destruct (doit_cursor_in_block g2 _ t1 _ _ _ Hblock2 Hdoit) as [Hc Hin].
  destruct (doit_other_fields _ _ _ _ _ _ Hdoit) as (Hsorted & _).
  change (max_interruptions g2) with (max_interruptions g) in *.
  assert (Hwf : well_formed (w_t w)).
  { rewrite Hw. unfold well_formed. simpl. split; [done|]. split.
    - rewrite Hsorted. simpl. lia.
    - unfold INT_MAX, two31. lia. }
  assert (Hrecw : records (w_t w) = records t1) by (by rewrite Hw).
  assert (Hgaps : ∀ v, v ∈ gaps (w_t w) → threshold_cycles_of g (w_t w) ≤ v).
  { intros v Hv. unfold gaps in Hv. rewrite Hrecw, Hrec in Hv.
    apply list_elem_of_fmap in Hv as (r & -> & Hr).
    apply records_elem_sample in Hr as [_ Hr].
    rewrite Hw. exact Hr. }
  exists (stats_of (w_t w)). split; [by apply thread_calc_stats_closed|].
  unfold stats_of.
  destruct (Z.eqb_spec (Z.of_nat (c_interruption (w_t w))) 0) as [Hz|Hnz];
    simpl; [split; [done | lia]|].
  split; [done|]. intros Hpos.
  set (n := Z.of_nat (c_interruption (w_t w))) in *.
  assert (Hidx : ∀ a b, 0 < a < b → 0 ≤ n * a / b < n).
  { intros a b Hab. split; [apply Z.div_pos; lia|].
    apply Z.div_lt_upper_bound; nia. }
  assert (Hhalf : 0 ≤ n / 2 < n).
  { split; [apply Z.div_pos; lia|]. apply Z.div_lt_upper_bound; lia. }
  split.
  - repeat apply Forall_cons_2; try apply Forall_nil_2;
      apply Hgaps, ranked_elem;
      first [done | apply Hidx; lia | unfold n in *; lia].
  - rewrite Hrecw, <- Htot. by rewrite Hw.
Qed.

(** ** A capacity of zero *)

(** X16: a real run of zero seconds is given a capacity of zero.  With that
    capacity the first iteration of the loop stores outside the block, and a
    thread that never enters the loop counts as overflowed: the check after
    the run exits with status 2 whenever there is a thread at all. *)
Theorem zero_capacity_always_overflows (g : global) (threads : list thread) :
  (runtime_secs g ≠ 0 →
   ∃ g' counted, calc_max_interruptions g threads 0 = Some (g', counted)
                 ∧ max_interruptions g' = 0)
  ∧ (max_interruptions g = 0 →
     (∀ t thr r0 now rest,
        block_ok g t → doit g t thr r0 (now :: rest) = None)
     ∧ (threads ≠ [] → Forall (sampled g) threads →
        (post_test_checks g threads).2 = Exits 2)).
Proof.
  split; [|intros Hzero; split].
  - intros Hsecs. unfold calc_max_interruptions.
    destruct (Z.eqb_spec (runtime_secs g) 0) as [|_]; [done|].
    eexists _, _. split; [reflexivity|]. simpl.
    by rewrite Z.mul_0_r.
  - intros t thr r0 now rest Hblock. unfold doit, block_ok in *.
    rewrite Hzero in *. simpl in Hblock.
    destruct (interruptions t); [|done].
    by rewrite doit_loop_no_room.
  - intros Hne Hs. unfold post_test_checks. rewrite post_test_loop_spec. simpl.
    destruct threads as [|t' rest]; [done|].
    apply Forall_cons in Hs as [(t & thr & r0 & reads & Hblock & Hrun) _].
    destruct (doit_cursor_in_block g t t' thr r0 reads Hblock Hrun) as [Hc _].
    simpl. unfold overflowed at 1. rewrite Hzero in *.
    destruct (Z.eqb_spec (Z.of_nat (c_interruption t')) 0); [done | lia].
Qed.

(** ** The cores of the threads *)

Lemma usable_from_step (cpus : list bool) (nprocs cur : nat) :
  (cur < nprocs)%nat →
  usable_from cpus nprocs cur
  = if CPU_ISSET cur cpus then cur :: usable_from cpus nprocs (S cur)
    else usable_from cpus nprocs (S cur).
Proof.
  intros Hlt. unfold usable_from.
  replace (nprocs - cur)%nat with (S (nprocs - S cur)) by lia.
  simpl. rewrite filter_cons. by destruct (CPU_ISSET cur cpus).
Qed.

Lemma skip_unset_spec (cpus : list bool) (nprocs : nat) :
  ∀ fuel cur, (cur + fuel = nprocs)%nat →
    match usable_from cpus nprocs cur with
    | [] => skip_unset cpus nprocs fuel cur = nprocs
    | cpu :: rest =>
        skip_unset cpus nprocs fuel cur = cpu
        ∧ (cpu < nprocs)%nat
        ∧ usable_from cpus nprocs (S cpu) = rest
    end.
Proof.
  induction fuel as [|fuel IH]; intros cur Hfuel.
  - assert (cur = nprocs) as -> by lia. unfold usable_from.
    by rewrite Nat.sub_diag.
  - rewrite usable_from_step by lia. simpl.
    destruct (CPU_ISSET cur cpus) eqn:Hset; simpl.
    + split; [done|]. split; [lia | done].
    + destruct (Nat.eqb_spec cur nprocs) as [|_]; [lia|]. simpl.
      apply IH. lia.
Qed.

Lemma assign_cores_spec (cpus : list bool) (nprocs : nat) :
  ∀ n_cores cur, (cur ≤ nprocs)%nat →
    assign_cores cpus nprocs n_cores cur
    = if decide (n_cores ≤ length (usable_from cpus nprocs cur))%nat
      then Some (take n_cores (usable_from cpus nprocs cur))
      else None.
Proof.
  induction n_cores as [|n IH]; intros cur Hcur; cbn [assign_cores].
  - case_decide; [done | lia].
  - pose proof (skip_unset_spec cpus nprocs (nprocs - cur) cur ltac:(lia)) as Hskip.
    destruct (usable_from cpus nprocs cur) as [|cpu rest].
    + rewrite Hskip. destruct (decide (nprocs ≠ nprocs)); [done|].
      case_decide as Hle; [simpl in Hle; lia | done].
    + destruct Hskip as (-> & Hlt & Hrest).
      destruct (decide (cpu ≠ nprocs)) as [_|]; [|lia].
      rewrite IH by lia. rewrite Hrest.
      repeat case_decide; simpl in *; try done; lia.
Qed.

Lemma seq_ascending (n : nat) : ∀ a, StronglySorted lt (seq a n).
Proof.
  induction n as [|n IH]; intros a; simpl; [constructor|].
  constructor; [apply IH|].
  apply Forall_forall. intros b Hb%elem_of_seq. lia.
Qed.

(** X17: the threads are given the first [n_cores] processors of the affinity
    mask that lie below [nprocs], in ascending order; the program exits
    when the mask holds fewer.  So the cores are distinct, set in the mask
    and below [nprocs], and only the number of cores asked for matters. *)
Theorem assign_cores_first_usable (cpus : list bool) (nprocs n_cores : nat) :
  assign_cores cpus nprocs n_cores 0
  = (if decide (n_cores ≤ length (usable_from cpus nprocs 0))%nat
     then Some (take n_cores (usable_from cpus nprocs 0))
     else None)
  ∧ ∀ cores, assign_cores cpus nprocs n_cores 0 = Some cores →
      length cores = n_cores
      ∧ StronglySorted lt cores
      ∧ Forall (λ cpu, CPU_ISSET cpu cpus = true ∧ (cpu < nprocs)%nat) cores.
Proof.
  assert (Hspec := assign_cores_spec cpus nprocs n_cores 0 ltac:(lia)).
  split; [done|]. intros cores. rewrite Hspec.
  case_decide as Hle; [|done]. intros [= <-].
  split; [rewrite length_take; lia|]. split.
  - apply StronglySorted_take. unfold usable_from.
    apply StronglySorted_filter, seq_ascending.
  - apply Forall_forall. intros cpu Hcpu.
    apply (subseteq_take n_cores) in Hcpu.
    unfold usable_from in Hcpu.
    apply list_elem_of_filter in Hcpu as [Hset Hseq%elem_of_seq].
    split; [done | lia].
Qed.

(** ** The list of cores *)

Example parse_examples :
  parse_comma_sep_ranges "0-3,8, 10 - 12,,5" = Parsed [0; 1; 2; 3; 8; 10; 11; 12; 5]
  ∧ parse_comma_sep_ranges "" = Parsed []
  ∧ parse_comma_sep_ranges "3 " = Rejected
  ∧ parse_comma_sep_ranges "1-2x" = Rejected
  ∧ parse_comma_sep_ranges "5-3" = Parsed []
  ∧ parse_comma_sep_ranges "4294967296" = NoResult
  ∧ dec 0 = "0" ∧ dec 4294967295 = "4294967295" ∧ dec 10 = "10"
  ∧ render [One 3; Span 10 12; One 0] = "3,10-12,0".
Proof. vm_compute. repeat split. Qed.

Lemma append_cons (c : ascii) (s1 s2 : string) :
  String c s1 +:+ s2 = String c (s1 +:+ s2).
Proof. reflexivity. Qed.

Lemma append_nil_r (s : string) : s +:+ EmptyString = s.
Proof. induction s as [|c s IH]; [done|]. rewrite append_cons. by f_equal. Qed.

Lemma append_assoc (s1 s2 s3 : string) : (s1 +:+ s2) +:+ s3 = s1 +:+ s2 +:+ s3.
Proof. induction s1 as [|c s1 IH]; [done|]. rewrite !append_cons. by f_equal. Qed.

Lemma digit_of_digit_char (d : Z) : 0 ≤ d ≤ 9 → digit_of (digit_char d) = Some d.
Proof.
  intros Hd.
  assert (d = 0 ∨ d = 1 ∨ d = 2 ∨ d = 3 ∨ d = 4 ∨ d = 5 ∨ d = 6 ∨ d = 7
          ∨ d = 8 ∨ d = 9) as Hcases by lia.
  repeat destruct Hcases as [-> | Hcases]; try reflexivity.
  subst d. reflexivity.
Qed.

Lemma digit_char_not_comma (d : Z) : 0 ≤ d ≤ 9 → digit_char d ≠ ","%char.
Proof.
  intros Hd Heq. pose proof (digit_of_digit_char d Hd) as Hdig.
  rewrite Heq in Hdig. discriminate.
Qed.

Lemma dec_go_app (fuel : nat) :
  ∀ n tail, dec_go fuel n tail = dec_go fuel n EmptyString +:+ tail.
Proof.
  induction fuel as [|fuel IH]; intros n tail; [done|].
  cbn [dec_go]. destruct (n / 10 =? 0); [done|].
  rewrite (IH _ (String _ tail)), (IH _ (String _ EmptyString)).
  by rewrite append_assoc.
Qed.

Lemma dec_go_head (fuel : nat) :
  ∀ n tail, (0 < fuel)%nat →
  ∃ c s d, dec_go fuel n tail = String c s ∧ digit_of c = Some d.
Proof.
  induction fuel as [|fuel IH]; intros n tail Hfuel; [lia|].
  cbn [dec_go].
  assert (0 ≤ n mod 10 ≤ 9) as Hd by (pose proof (Z.mod_pos_bound n 10); lia).
  destruct (n / 10 =? 0).
  - eexists _, _, _. split; [done|]. by apply digit_of_digit_char.
  - destruct fuel as [|fuel'].
    + eexists _, _, _. split; [done|]. by apply digit_of_digit_char.
    + apply IH. lia.
Qed.

Lemma dec_go_scan (fuel : nat) :
  ∀ n tail, (0 < fuel)%nat → 0 ≤ n < 2 ^ Z.of_nat fuel →
  ∃ k, 0 ≤ k ∧
    ∀ acc, scan_digits (dec_go fuel n tail) acc
           = scan_digits tail (acc * 10 ^ (k + 1) + n).
Proof.
  induction fuel as [|fuel IH]; intros n tail Hfuel Hn; [lia|].
  cbn [dec_go].
  assert (0 ≤ n mod 10 ≤ 9) as Hd by (pose proof (Z.mod_pos_bound n 10); lia).
  pose proof (Z.div_mod n 10 ltac:(lia)) as Hdm.
  destruct (n / 10 =? 0) eqn:Hq.
  - apply Z.eqb_eq in Hq. exists 0. split; [lia|]. intros acc.
    cbn [scan_digits]. rewrite digit_of_digit_char by done.
    f_equal. change (10 ^ (0 + 1)) with 10. lia.
  - apply Z.eqb_neq in Hq.
    assert (0 ≤ n / 10) by (apply Z.div_pos; lia).
    rewrite Nat2Z.inj_succ, Z.pow_succ_r in Hn by lia.
    assert (n / 10 < 2 ^ Z.of_nat fuel).
    { apply Z.div_lt_upper_bound; lia. }
    assert (0 < fuel)%nat.
    { destruct fuel; [|lia]. change (2 ^ Z.of_nat 0) with 1 in *. lia. }
    destruct (IH (n / 10) (String (digit_char (n mod 10)) tail)) as (k & Hk & Hscan);
      [done | lia |].
    exists (k + 1). split; [lia|]. intros acc.
    rewrite Hscan. cbn [scan_digits]. rewrite digit_of_digit_char by done.
    f_equal. rewrite (Z.pow_add_r 10 (k + 1) 1) by lia. change (10 ^ 1) with 10. lia.
Qed.

Lemma segments_nonempty (s : string) : segments s ≠ [].
Proof.
  induction s as [|c s IH]; [done|]. cbn [segments].
  case_decide; [done|]. by destruct (segments s).
Qed.

Lemma segments_comma (s1 s2 : string) :
  segments (s1 +:+ String "," s2) = segments s1 ++ segments s2.
Proof.
  induction s1 as [|c s1 IH]; [done|].
  rewrite append_cons. cbn [segments]. rewrite IH.
  case_decide; [done|].
  pose proof (segments_nonempty s1). by destruct (segments s1).
Qed.

Lemma segments_cons_single (c : ascii) (s : string) :
  c ≠ ","%char → segments s = [s] → segments (String c s) = [String c s].
Proof. intros Hc Hs. cbn [segments]. rewrite Hs. by case_decide. Qed.

Lemma segments_app_single (s1 s2 : string) :
  segments s1 = [s1] → segments s2 = [s2] → segments (s1 +:+ s2) = [s1 +:+ s2].
Proof.
  revert s2. induction s1 as [|c s1 IH]; intros s2 H1 H2; [done|].
  cbn [segments] in H1. case_decide; [done|].
  pose proof (segments_nonempty s1).
  destruct (segments s1) as [|p ps] eqn:Hseg; [done|].
  injection H1 as -> ->.
  rewrite append_cons. apply segments_cons_single; [done|]. by apply IH.
Qed.

Lemma segments_dec_go (fuel : nat) :
  ∀ n tail, segments tail = [tail] →
  segments (dec_go fuel n tail) = [dec_go fuel n tail].
Proof.
  induction fuel as [|fuel IH]; intros n tail Htail; [done|].
  cbn [dec_go].
  assert (0 ≤ n mod 10 ≤ 9) as Hd by (pose proof (Z.mod_pos_bound n 10); lia).
  assert (segments (String (digit_char (n mod 10)) tail)
          = [String (digit_char (n mod 10)) tail]) as Hcons.
  { apply segments_cons_single; [by apply digit_char_not_comma | done]. }
  destruct (n / 10 =? 0); [done|]. by apply IH.
Qed.

Lemma segments_dec (n : Z) : segments (dec n) = [dec n].
Proof. by apply segments_dec_go. Qed.

Lemma dec_head (n : Z) : ∃ c s d, dec n = String c s ∧ digit_of c = Some d.
Proof. apply dec_go_head. lia. Qed.

Lemma scan_unsigned_digit (c : ascii) (s : string) (d : Z) :
  digit_of c = Some d →
  scan_unsigned (String c s)
  = let '(v, rest) := scan_digits s d in
    if (v <? two32) && true then Stored v rest else Unrepresentable.
Proof.
  intros Hc.
  destruct c as [[] [] [] [] [] [] [] []]; try discriminate Hc;
    unfold scan_unsigned; cbn [skip_space isspace]; simpl; rewrite ?Hc;
    injection Hc as <-; reflexivity.
Qed.

Lemma scan_unsigned_dec (n : Z) (tail : string) :
  0 ≤ n < two32 →
  scan_digits tail n = (n, tail) →
  scan_unsigned (dec n +:+ tail) = Stored n tail.
Proof.
  intros Hn Htail. unfold dec. rewrite <- dec_go_app.
  set (fuel := S (Z.to_nat (Z.log2 n))).
  assert (0 ≤ n < 2 ^ Z.of_nat fuel) as Hfuel.
  { split; [lia|]. unfold fuel. rewrite Nat2Z.inj_succ, Z2Nat.id by apply Z.log2_nonneg.
    destruct (decide (n = 0)) as [-> | Hnz]; [done|].
    apply Z.log2_spec. lia. }
  destruct (dec_go_head fuel n tail ltac:(lia)) as (c & s & d & Hhead & Hc).
  destruct (dec_go_scan fuel n tail ltac:(lia) Hfuel) as (k & Hk & Hscan).
  specialize (Hscan 0). rewrite Hhead in Hscan |- *.
  rewrite (scan_unsigned_digit c s d Hc).
  cbn [scan_digits] in Hscan. rewrite Hc in Hscan.
  replace (0 * 10 + d) with d in Hscan by lia.
  replace (0 * 10 ^ (k + 1) + n) with n in Hscan by lia.
  rewrite Hscan, Htail.
  destruct (n <? two32) eqn:Hlt; [done|]. apply Z.ltb_ge in Hlt. lia.
Qed.

Lemma scan_range_span (low high : Z) :
  0 ≤ low < two32 → 0 ≤ high < two32 →
  scan_range (dec low +:+ String "-" (dec high)) = IsRange low high.
Proof.
  intros Hlow Hhigh. unfold scan_range.
  rewrite (scan_unsigned_dec low) by done.
  cbn [skip_space]. change (isspace "-") with false. cbv iota.
  rewrite <- (append_nil_r (dec high)).
  by rewrite (scan_unsigned_dec high).
Qed.

Lemma scan_range_one (core : Z) :
  0 ≤ core < two32 →
  scan_range (dec core) = NotRange ∧ scan_unsigned (dec core) = Stored core EmptyString.
Proof.
  intros Hcore.
  assert (scan_unsigned (dec core) = Stored core EmptyString) as Hscan.
  { rewrite <- (append_nil_r (dec core)). by rewrite scan_unsigned_dec. }
  split; [|done]. unfold scan_range. by rewrite Hscan.
Qed.

Lemma append_each_spec (vals : list Z) :
  ∀ lst, Z.of_nat (length lst + length vals) ≤ INT_MAX →
  append_each vals lst = Some (lst ++ (to_int <$> vals)).
Proof.
  induction vals as [|val vals IH]; intros lst Hlen.
  - by rewrite app_nil_r.
  - cbn [append_each length] in *. unfold append_int.
    destruct (Z.of_nat (length lst) <? INT_MAX) eqn:Hroom;
      [|apply Z.ltb_ge in Hroom; lia].
    cbn [mbind option_bind]. rewrite IH.
    + by rewrite fmap_cons, <- app_assoc.
    + rewrite length_app. cbn [length]. lia.
Qed.

Lemma append_each_inv (vals : list Z) :
  ∀ lst lst', append_each vals lst = Some lst' → lst' = lst ++ (to_int <$> vals).
Proof.
  induction vals as [|val vals IH]; intros lst lst' Heach.
  - injection Heach as <-. by rewrite app_nil_r.
  - cbn [append_each] in Heach. unfold append_int in Heach.
    destruct (Z.of_nat (length lst) <? INT_MAX); [|done].
    cbn [mbind option_bind] in Heach. apply IH in Heach.
    by rewrite Heach, fmap_cons, <- app_assoc.
Qed.

Lemma render_item_token (it : item) :
  item_ok it →
  segments (render_item it) = [render_item it] ∧ render_item it ≠ EmptyString.
Proof.
  intros Hok. split.
  - destruct it as [core | low high]; cbn [render_item].
    + apply segments_dec.
    + apply segments_app_single; [apply segments_dec|].
      apply segments_cons_single; [done | apply segments_dec].
  - destruct it as [core | low high]; cbn [render_item].
    + destruct (dec_head core) as (c & s & d & -> & _). done.
    + destruct (dec_head low) as (c & s & d & -> & _). done.
Qed.

Lemma strtok_all_render (items : list item) :
  Forall item_ok items → strtok_all (render items) = render_item <$> items.
Proof.
  induction 1 as [|it items Hit Hitems IH]; [done|].
  destruct (render_item_token it Hit) as [Hseg Hne].
  destruct items as [|it' items'].
  - cbn [render fmap list_fmap]. unfold strtok_all. rewrite Hseg.
    rewrite filter_cons_True by done. by rewrite filter_nil.
  - change (render (it :: it' :: items'))
      with (render_item it +:+ String "," (render (it' :: items'))).
    unfold strtok_all in *. rewrite segments_comma, Hseg, filter_app.
    rewrite filter_cons_True by done. rewrite filter_nil.
    rewrite IH. done.
Qed.

Lemma length_range_values (low high : Z) :
  Z.of_nat (length (range_values low high)) = Z.max 0 (high - low + 1).
Proof. unfold range_values. rewrite length_fmap, length_seq. lia. Qed.

Lemma parse_tokens_render (items : list item) :
  Forall item_ok items →
  ∀ lst, Z.of_nat (length lst + length (concat (expand <$> items))) ≤ INT_MAX →
  parse_tokens (render_item <$> items) lst
  = Parsed (lst ++ concat (expand <$> items)).
Proof.
  induction 1 as [|it items Hit Hitems IH]; intros lst Hlen.
  - cbn. by rewrite app_nil_r.
  - rewrite !fmap_cons in *. cbn [concat] in *. rewrite length_app in Hlen.
    cbn [parse_tokens].
    destruct it as [core | low high]; cbn [render_item expand item_ok] in *.
    + destruct (scan_range_one core Hit) as [-> ->]. unfold append_int.
      destruct (Z.of_nat (length lst) <? INT_MAX) eqn:Hroom;
        [|apply Z.ltb_ge in Hroom; cbn [length] in Hlen; lia].
      rewrite IH; [by rewrite <- app_assoc|].
      rewrite length_app. cbn [length] in *. lia.
    + destruct Hit as (Hlow & Hhigh & Hend).
      rewrite scan_range_span by done.
      destruct ((low <=? high) && (high =? two32 - 1)) eqn:Hguard.
      { apply andb_true_iff in Hguard as [Hle Heq].
        apply Z.leb_le in Hle. apply Z.eqb_eq in Heq. lia. }
      rewrite length_fmap in Hlen.
      rewrite append_each_spec by lia.
      rewrite IH; [by rewrite <- app_assoc|].
      rewrite length_app, length_fmap. lia.
Qed.

(** X20: writing a list of cores and ranges in decimal, with commas between
    them, and parsing it gives the cores back, each range expanded in
    place (a descending range to nothing). *)
Theorem parse_comma_sep_ranges_of_rendered (items : list item) :
  Forall item_ok items →
  Z.of_nat (length (concat (expand <$> items))) ≤ INT_MAX →
  parse_comma_sep_ranges (render items) = Parsed (concat (expand <$> items)).
Proof.
  intros Hitems Hlen. unfold parse_comma_sep_ranges.
  rewrite strtok_all_render by done.
  by rewrite parse_tokens_render.
Qed.

Lemma append_each_iff (vals : list Z) :
  ∀ lst,
  append_each vals lst
  = if decide (vals = [] ∨ Z.of_nat (length lst + length vals) ≤ INT_MAX)
    then Some (lst ++ (to_int <$> vals)) else None.
Proof.
  induction vals as [|val vals IH]; intros lst.
  - rewrite decide_True by (by left). by rewrite app_nil_r.
  - cbn [append_each length]. unfold append_int.
    destruct (Z.of_nat (length lst) <? INT_MAX) eqn:Hroom.
    + apply Z.ltb_lt in Hroom. cbn [mbind option_bind]. rewrite IH.
      rewrite length_app. cbn [length].
      rewrite fmap_cons, <- app_assoc. cbn [app].
      destruct vals as [|val' vals'].
      * rewrite decide_True by (by left). rewrite decide_True; [done|].
        right. cbn [length]. lia.
      * cbn [length]. repeat case_decide; try done.
        -- exfalso. destruct H as [?|?]; [done|]. apply H0. right. lia.
        -- exfalso. destruct H0 as [?|?]; [done|]. apply H. right. lia.
    + apply Z.ltb_ge in Hroom. cbn [mbind option_bind].
      rewrite decide_False; [done|]. intros [?|?]; [done|]. lia.
Qed.

Lemma append_int_each (lst : list Z) (val : Z) :
  append_int lst val = append_each [val] lst.
Proof. cbn [append_each]. by destruct (append_int lst val). Qed.

Lemma append_each_shift (vals acc lst lst' : list Z) (bound : nat) :
  append_each vals lst = Some lst' →
  (length lst' ≤ bound)%nat →
  Z.of_nat (length acc + bound) ≤ INT_MAX →
  append_each vals (acc ++ lst) = Some (acc ++ lst').
Proof.
  rewrite !append_each_iff. intros Heach Hbound Hlen.
  case_decide as Hfits; [|done]. injection Heach as <-.
  rewrite length_app, length_fmap in Hbound.
  rewrite decide_True; [by rewrite <- app_assoc|].
  right. rewrite length_app. lia.
Qed.

Lemma append_each_unshift (vals acc lst l : list Z) :
  append_each vals (acc ++ lst) = Some l →
  ∃ lst', append_each vals lst = Some lst' ∧ l = acc ++ lst'.
Proof.
  rewrite !append_each_iff. intros Heach.
  case_decide as Hfits; [|done]. injection Heach as <-.
  exists (lst ++ (to_int <$> vals)). split; [|by rewrite <- app_assoc].
  rewrite decide_True; [done|].
  destruct Hfits as [?|Hfits]; [by left|]. right.
  rewrite length_app in Hfits. lia.
Qed.

Lemma parse_tokens_length (tokens : list string) :
  ∀ lst l, parse_tokens tokens lst = Parsed l → (length lst ≤ length l)%nat.
Proof.
  induction tokens as [|t rest IH]; intros lst l Hparse.
  - injection Hparse as <-. done.
  - cbn [parse_tokens] in Hparse.
    destruct (scan_range t) as [low high| |].
    + destruct ((low <=? high) && (high =? two32 - 1)); [done|].
      destruct (append_each _ lst) as [lst'|] eqn:Heach; [|done].
      apply append_each_inv in Heach as ->. apply IH in Hparse.
      rewrite length_app in Hparse. lia.
    + destruct (scan_unsigned t) as [| |low [|c r]]; try done.
      rewrite !append_int_each in *.
      destruct (append_each _ lst) as [lst'|] eqn:Heach; [|done].
      apply append_each_inv in Heach as ->. apply IH in Hparse.
      rewrite length_app in Hparse. lia.
    + done.
Qed.

Lemma parse_tokens_shift (tokens : list string) :
  ∀ acc lst l,
  parse_tokens tokens lst = Parsed l →
  Z.of_nat (length acc + length l) ≤ INT_MAX →
  parse_tokens tokens (acc ++ lst) = Parsed (acc ++ l).
Proof.
  induction tokens as [|t rest IH]; intros acc lst l Hparse Hlen.
  - by injection Hparse as <-.
  - cbn [parse_tokens] in *.
    destruct (scan_range t) as [low high| |].
    + destruct ((low <=? high) && (high =? two32 - 1)); [done|].
      destruct (append_each _ lst) as [lst'|] eqn:Heach; [|done].
      pose proof (parse_tokens_length _ _ _ Hparse).
      rewrite (append_each_shift _ acc lst lst' (length l)) by done.
      by apply IH.
    + destruct (scan_unsigned t) as [| |low [|c r]]; try done.
      rewrite !append_int_each in *.
      destruct (append_each _ lst) as [lst'|] eqn:Heach; [|done].
      pose proof (parse_tokens_length _ _ _ Hparse).
      rewrite (append_each_shift _ acc lst lst' (length l)) by done.
      by apply IH.
    + done.
Qed.

Lemma parse_tokens_unshift (tokens : list string) :
  ∀ acc lst l,
  parse_tokens tokens (acc ++ lst) = Parsed l →
  ∃ l', parse_tokens tokens lst = Parsed l' ∧ l = acc ++ l'.
Proof.
  induction tokens as [|t rest IH]; intros acc lst l Hparse.
  - injection Hparse as <-. by exists lst.
  - cbn [parse_tokens] in *.
    destruct (scan_range t) as [low high| |].
    + destruct ((low <=? high) && (high =? two32 - 1)); [done|].
      destruct (append_each _ (acc ++ lst)) as [lst1|] eqn:Heach; [|done].
      apply append_each_unshift in Heach as (lst' & -> & ->). by apply IH.
    + destruct (scan_unsigned t) as [| |low [|c r]]; try done.
      rewrite !append_int_each in *.
      destruct (append_each _ (acc ++ lst)) as [lst1|] eqn:Heach; [|done].
      apply append_each_unshift in Heach as (lst' & -> & ->). by apply IH.
    + done.
Qed.

Lemma parse_tokens_rejected (tokens : list string) :
  ∀ acc lst,
  parse_tokens tokens (acc ++ lst) = Rejected → parse_tokens tokens lst = Rejected.
Proof.
  induction tokens as [|t rest IH]; intros acc lst Hparse; [done|].
  cbn [parse_tokens] in *.
  destruct (scan_range t) as [low high| |].
  - destruct ((low <=? high) && (high =? two32 - 1)); [done|].
    destruct (append_each _ (acc ++ lst)) as [lst1|] eqn:Heach; [|done].
    apply append_each_unshift in Heach as (lst' & -> & ->). by eapply IH.
  - destruct (scan_unsigned t) as [| |low [|c r]]; try done.
      rewrite !append_int_each in *.
    destruct (append_each _ (acc ++ lst)) as [lst1|] eqn:Heach; [|done].
    apply append_each_unshift in Heach as (lst' & -> & ->). by eapply IH.
  - done.
Qed.

Lemma parse_tokens_app (tokens1 tokens2 : list string) :
  ∀ lst,
  parse_tokens (tokens1 ++ tokens2) lst
  = match parse_tokens tokens1 lst with
    | Parsed l => parse_tokens tokens2 l
    | r => r
    end.
Proof.
  induction tokens1 as [|t rest IH]; intros lst; [done|].
  cbn [app parse_tokens].
  destruct (scan_range t) as [low high| |].
  - destruct ((low <=? high) && (high =? two32 - 1)); [done|].
    by destruct (append_each _ lst).
  - destruct (scan_unsigned t) as [| |low [|c r]]; try done.
    by destruct (append_int lst low).
  - done.
Qed.

Lemma strtok_all_comma (s1 s2 : string) :
  strtok_all (s1 +:+ String "," s2) = strtok_all s1 ++ strtok_all s2.
Proof. unfold strtok_all. by rewrite segments_comma, filter_app. Qed.

(** X21: a comma joins two lists: when both parts parse, the whole parses to
    the cores of the first followed by the cores of the second, and the
    whole parses in no other way; a first part that is rejected rejects the
    whole; and when the first part parses and the whole is rejected, the
    second part is rejected on its own. *)
Theorem parse_comma_sep_ranges_comma (s1 s2 : string) :
  (∀ l1 l2,
     parse_comma_sep_ranges s1 = Parsed l1 →
     parse_comma_sep_ranges s2 = Parsed l2 →
     Z.of_nat (length l1 + length l2) ≤ INT_MAX →
     parse_comma_sep_ranges (s1 +:+ String "," s2) = Parsed (l1 ++ l2))
  ∧ (∀ l,
     parse_comma_sep_ranges (s1 +:+ String "," s2) = Parsed l →
     ∃ l1 l2, parse_comma_sep_ranges s1 = Parsed l1
              ∧ parse_comma_sep_ranges s2 = Parsed l2 ∧ l = l1 ++ l2)
  ∧ (parse_comma_sep_ranges s1 = Rejected →
     parse_comma_sep_ranges (s1 +:+ String "," s2) = Rejected)
  ∧ (∀ l1,
     parse_comma_sep_ranges s1 = Parsed l1 →
     parse_comma_sep_ranges (s1 +:+ String "," s2) = Rejected →
     parse_comma_sep_ranges s2 = Rejected).
Proof.
  unfold parse_comma_sep_ranges. rewrite strtok_all_comma, parse_tokens_app.
  split; [|split; [|split]].
  - intros l1 l2 -> H2 Hlen.
    rewrite <- (app_nil_r l1) at 1. by apply parse_tokens_shift.
  - intros l Hparse.
    destruct (parse_tokens (strtok_all s1) []) as [l1| |]; try done.
    rewrite <- (app_nil_r l1) in Hparse.
    apply parse_tokens_unshift in Hparse as (l2 & H2 & ->). by exists l1, l2.
  - by intros ->.
  - intros l1 -> Hparse. rewrite <- (app_nil_r l1) in Hparse.
    by apply parse_tokens_rejected in Hparse.
Qed.

(** ** The threads [main] sets up *)

Lemma length_usable_from (cpus : list bool) (nprocs : nat) :
  length (usable_from cpus nprocs 0) = CPU_COUNT (take nprocs cpus).
Proof.
  unfold usable_from, CPU_COUNT. rewrite Nat.sub_0_r.
  induction nprocs as [|n IH]; [done|].
  rewrite seq_S, filter_app, length_app, IH. cbn [plus].
  destruct (cpus !! n) as [b|] eqn:Hn.
  - assert (CPU_ISSET n cpus = b) as Hset by (unfold CPU_ISSET; by rewrite Hn).
    rewrite (take_S_r _ _ _ Hn), filter_app, length_app. f_equal.
    rewrite !filter_cons, !filter_nil, Hset.
    destruct b; repeat case_decide; done.
  - assert (CPU_ISSET n cpus = false) as Hset by (unfold CPU_ISSET; by rewrite Hn).
    apply lookup_ge_None in Hn. rewrite !take_ge by lia.
    rewrite filter_cons, filter_nil, Hset.
    case_decide; [done|]. cbn [length]. lia.
Qed.

Lemma CPU_COUNT_split (cpus : list bool) (n : nat) :
  CPU_COUNT cpus = (CPU_COUNT (take n cpus) + CPU_COUNT (drop n cpus))%nat.
Proof.
  unfold CPU_COUNT. rewrite <- length_app, <- filter_app. by rewrite take_drop.
Qed.

(** X18: without [--cores] there is one thread on each processor of the
    affinity mask, in ascending order, unless the mask holds a processor at
    or above [nprocs], which ends the program with status 1. *)
Theorem main_cores_default (cpus : list bool) (nprocs : nat) :
  main_cores None cpus nprocs
  = if decide (CPU_COUNT (drop nprocs cpus) = 0%nat)
    then Continues (usable_from cpus nprocs 0)
    else Exit 1.
Proof.
  unfold main_cores. rewrite assign_cores_spec by lia.
  rewrite length_usable_from, (CPU_COUNT_split cpus nprocs).
  repeat case_decide; try lia.
  - rewrite take_ge; [done|]. rewrite length_usable_from. lia.
  - done.
Qed.

(** X19: with [--cores] only the number of cores the list names counts.  The
    threads go to the first that many processors of the affinity mask,
    whichever cores were named; more names than processors end the
    program with status 1. *)
Theorem main_cores_counts_the_list (items : list item) (cpus : list bool)
    (nprocs : nat) :
  Forall item_ok items →
  Z.of_nat (length (concat (expand <$> items))) ≤ INT_MAX →
  main_cores (Some (render items)) cpus nprocs
  = let n := length (concat (expand <$> items)) in
    if decide (n ≤ length (usable_from cpus nprocs 0))%nat
    then Continues (take n (usable_from cpus nprocs 0))
    else Exit 1.
Proof.
  intros Hitems Hlen. unfold main_cores, parse_comma_sep_ranges.
  rewrite strtok_all_render by done.
  rewrite parse_tokens_render by done.
  rewrite assign_cores_spec by lia. cbn [app].
  by case_decide.
Qed.

(** ** The raw files *)

Lemma length_append (s1 s2 : string) :
  String.length (s1 +:+ s2) = (String.length s1 + String.length s2)%nat.
Proof.
  induction s1 as [|c s1 IH]; [done|].
  rewrite append_cons. cbn [String.length]. by rewrite IH.
Qed.

Lemma length_zeros (n : nat) (s : string) :
  String.length (zeros n s) = (n + String.length s)%nat.
Proof. induction n as [|n IH]; [done|]. cbn [zeros String.length]. by rewrite IH. Qed.

Lemma scan_digits_zeros (n : nat) (s : string) :
  scan_digits (zeros n s) 0 = scan_digits s 0.
Proof. induction n as [|n IH]; [done|]. exact IH. Qed.

Lemma dec_go_digits (fuel : nat) :
  ∀ n tail, (0 < fuel)%nat → 0 ≤ n < 2 ^ Z.of_nat fuel →
  ∃ k : nat,
    String.length (dec_go fuel n tail) = (S k + String.length tail)%nat
    ∧ n < 10 ^ Z.of_nat (S k)
    ∧ (k = 0%nat ∨ 10 ^ Z.of_nat k ≤ n).
Proof.
  induction fuel as [|fuel IH]; intros n tail Hfuel Hn; [lia|].
  cbn [dec_go].
  assert (0 ≤ n mod 10 ≤ 9) as Hd by (pose proof (Z.mod_pos_bound n 10); lia).
  pose proof (Z.div_mod n 10 ltac:(lia)) as Hdm.
  destruct (n / 10 =? 0) eqn:Hq.
  - apply Z.eqb_eq in Hq. exists 0%nat. split; [done|]. split; [|by left].
    change (10 ^ Z.of_nat 1) with 10. lia.
  - apply Z.eqb_neq in Hq.
    assert (0 ≤ n / 10) by (apply Z.div_pos; lia).
    rewrite Nat2Z.inj_succ, Z.pow_succ_r in Hn by lia.
    assert (n / 10 < 2 ^ Z.of_nat fuel).
    { apply Z.div_lt_upper_bound; lia. }
    assert (0 < fuel)%nat.
    { destruct fuel; [|lia]. change (2 ^ Z.of_nat 0) with 1 in *. lia. }
    destruct (IH (n / 10) (String (digit_char (n mod 10)) tail))
      as (k & Hlen & Hlt & Hge); [done | lia |].
    exists (S k). split; [rewrite Hlen; cbn [String.length]; lia|].
    rewrite (Nat2Z.inj_succ (S k)), Z.pow_succ_r by lia.
    rewrite (Nat2Z.inj_succ k), Z.pow_succ_r in * by lia.
    split; [lia|]. right.
    destruct Hge as [-> | Hge]; [change (10 ^ Z.of_nat 0) with 1; lia | lia].
Qed.

Lemma dec_digits (n : Z) :
  0 ≤ n →
  ∃ k : nat, String.length (dec n) = S k
             ∧ n < 10 ^ Z.of_nat (S k) ∧ (k = 0%nat ∨ 10 ^ Z.of_nat k ≤ n).
Proof.
  intros Hn. unfold dec.
  set (fuel := S (Z.to_nat (Z.log2 n))).
  assert (0 ≤ n < 2 ^ Z.of_nat fuel) as Hfuel.
  { split; [lia|]. unfold fuel. rewrite Nat2Z.inj_succ, Z2Nat.id by apply Z.log2_nonneg.
    destruct (decide (n = 0)) as [-> | Hnz]; [done|].
    apply Z.log2_spec. lia. }
  destruct (dec_go_digits fuel n EmptyString ltac:(lia) Hfuel) as (k & Hlen & Hk).
  exists k. split; [|done]. rewrite Hlen. cbn [String.length]. lia.
Qed.

Lemma length_dec_mono (v m : Z) :
  0 ≤ v ≤ m → (String.length (dec v) ≤ String.length (dec m))%nat.
Proof.
  intros Hvm.
  destruct (dec_digits v ltac:(lia)) as (kv & -> & Hv & Hv').
  destruct (dec_digits m ltac:(lia)) as (km & -> & Hm & Hm').
  destruct (decide (kv ≤ km)%nat); [lia|]. exfalso.
  destruct Hv' as [-> | Hv']; [lia|].
  assert (10 ^ Z.of_nat (S km) ≤ 10 ^ Z.of_nat kv) by (apply Z.pow_le_mono_r; lia).
  lia.
Qed.

Lemma length_dec_bound (m : Z) :
  0 ≤ m < 10 ^ 8 → (String.length (dec m) ≤ 8)%nat.
Proof.
  intros Hm. destruct (dec_digits m ltac:(lia)) as (k & -> & _ & Hk).
  destruct (decide (k < 8)%nat); [lia|]. exfalso.
  destruct Hk as [-> | Hk]; [lia|].
  assert (10 ^ 8 ≤ 10 ^ Z.of_nat k) by (apply Z.pow_le_mono_r; lia).
  lia.
Qed.

Lemma scan_digits_dec (n : Z) : 0 ≤ n → scan_digits (dec n) 0 = (n, EmptyString).
Proof.
  intros Hn. unfold dec.
  set (fuel := S (Z.to_nat (Z.log2 n))).
  assert (0 ≤ n < 2 ^ Z.of_nat fuel) as Hfuel.
  { split; [lia|]. unfold fuel. rewrite Nat2Z.inj_succ, Z2Nat.id by apply Z.log2_nonneg.
    destruct (decide (n = 0)) as [-> | Hnz]; [done|].
    apply Z.log2_spec. lia. }
  destruct (dec_go_scan fuel n EmptyString ltac:(lia) Hfuel) as (k & Hk & ->).
  cbn [scan_digits]. f_equal; lia.
Qed.

Lemma max_core_bounds (threads : list thread) :
  ∀ m, foldl (λ max_core_i t, if max_core_i <? core_i t then core_i t else max_core_i)
             m threads = m
       ∨ (∃ t, t ∈ threads
               ∧ foldl (λ max_core_i t, if max_core_i <? core_i t then core_i t
                                        else max_core_i) m threads = core_i t).
Proof.
  induction threads as [|t rest IH] using rev_ind; intros m; [by left|].
  rewrite foldl_app. cbn [foldl].
  destruct (_ <? core_i t) eqn:Hlt.
  - right. exists t. split; [|done]. apply elem_of_app. right. by left.
  - destruct (IH m) as [-> | (t' & Ht' & ->)]; [by left|].
    right. exists t'. split; [|done]. apply elem_of_app. by left.
Qed.

Lemma max_core_ge (threads : list thread) :
  ∀ m t, t ∈ threads →
  core_i t ≤ foldl (λ max_core_i t, if max_core_i <? core_i t then core_i t
                                    else max_core_i) m threads.
Proof.
  induction threads as [|t' rest IH] using rev_ind; intros m t Ht.
  - by apply elem_of_nil in Ht.
  - rewrite foldl_app. cbn [foldl].
    apply elem_of_app in Ht as [Ht | Ht%list_elem_of_singleton].
    + specialize (IH m t Ht). destruct (_ <? core_i t') eqn:Hlt; [|done].
      apply Z.ltb_lt in Hlt. lia.
    + subst t'. destruct (_ <? core_i t) eqn:Hlt; [done|].
      apply Z.ltb_ge in Hlt. lia.
Qed.

Lemma write_raw_loop_spec (fopen_ok : nat → bool) (outf : string) (digits : nat)
    (threads : list thread) :
  Forall (λ t, fits outf (raw_name outf digits t) = true) threads →
  ∀ i rc written,
  write_raw_loop fopen_ok outf digits i threads rc written
  = Some (if forallb (λ it, fopen_ok it.1) (zip (seq i (length threads)) threads)
          then rc else 3,
          written ++ ((λ it, (raw_name outf digits it.2, it.2))
                      <$> filter (λ it, fopen_ok it.1 = true)
                                 (zip (seq i (length threads)) threads))).
Proof.
  induction 1 as [|t rest Hfit Hrest IH]; intros i rc written.
  - cbn. by rewrite app_nil_r.
  - cbn [write_raw_loop length seq zip zip_with forallb fst]. rewrite Hfit.
    rewrite filter_cons. cbn [fst].
    destruct (fopen_ok i) eqn:Hopen.
    + rewrite IH. rewrite decide_True by done.
      rewrite fmap_cons, <- app_assoc. done.
    + rewrite IH. rewrite decide_False by done. cbn [andb].
      by destruct (forallb _ _).
Qed.

Lemma fmt_0d_nonneg (width : nat) (v : Z) :
  0 ≤ v → (String.length (dec v) ≤ width)%nat →
  String.length (fmt_0d width v) = width
  ∧ scan_digits (fmt_0d width v) 0 = (v, EmptyString).
Proof.
  intros Hv Hwidth. unfold fmt_0d.
  destruct (v <? 0) eqn:Hneg; [apply Z.ltb_lt in Hneg; lia|].
  split; [rewrite length_zeros; lia|].
  by rewrite scan_digits_zeros, scan_digits_dec.
Qed.

(** X22: the raw files of threads on cores below [10 ^ 8]: every name fits the
    array; the files that could be opened are written, in the order of the
    threads, and the result is 3 as soon as one could not; all names have
    the same length; two threads share a name only if they share a core. *)
Theorem write_raw_files (fopen_ok : nat → bool) (threads : list thread)
    (outf : string) :
  Forall (λ t, 0 ≤ core_i t < 10 ^ 8) threads →
  let digits := String.length (fmt_d (max_core threads)) in
  let numbered := zip (seq 0 (length threads)) threads in
  write_raw fopen_ok threads outf
  = Some (if forallb (λ it, fopen_ok it.1) numbered then 0 else 3,
          (λ it, (raw_name outf digits it.2, it.2))
          <$> filter (λ it, fopen_ok it.1 = true) numbered)
  ∧ (∀ t, t ∈ threads →
       String.length (raw_name outf digits t)
       = (String.length outf + 1 + digits)%nat)
  ∧ (∀ t1 t2, t1 ∈ threads → t2 ∈ threads →
       raw_name outf digits t1 = raw_name outf digits t2 →
       core_i t1 = core_i t2).
Proof.
  intros Hcores digits numbered.
  rewrite Forall_forall in Hcores.
  assert ((digits ≤ 8)%nat
          ∧ ∀ t, t ∈ threads → (String.length (dec (core_i t)) ≤ digits)%nat)
    as [Hdigits Hwidth].
  { unfold digits, max_core.
    destruct (max_core_bounds threads (-1)) as [Hmax | (t' & Ht' & Hmax)].
    - rewrite Hmax. split; [vm_compute; lia|]. intros t Ht.
      pose proof (max_core_ge threads (-1) t Ht) as Hge. rewrite Hmax in Hge.
      specialize (Hcores t Ht). lia.
    - rewrite Hmax. pose proof (Hcores t' Ht') as Hc'. unfold fmt_d.
      destruct (core_i t' <? 0) eqn:Hneg; [apply Z.ltb_lt in Hneg; lia|].
      split; [by apply length_dec_bound|]. intros t Ht.
      pose proof (max_core_ge threads (-1) t Ht) as Hge. rewrite Hmax in Hge.
      specialize (Hcores t Ht). apply length_dec_mono. lia. }
  assert (∀ t, t ∈ threads →
            String.length (raw_name outf digits t)
            = (String.length outf + 1 + digits)%nat) as Hlen.
  { intros t Ht. unfold raw_name. rewrite length_append. cbn [String.length].
    destruct (fmt_0d_nonneg digits (core_i t)) as [-> _];
      [specialize (Hcores t Ht); lia | by apply Hwidth | lia]. }
  split; [|split; [done|]].
  - unfold write_raw. fold digits.
    assert (fits outf (fmt_d (max_core threads)) = true) as ->.
    { unfold fits. fold digits. apply Nat.ltb_lt. lia. }
    rewrite write_raw_loop_spec; [done|].
    apply Forall_forall. intros t Ht. unfold fits. rewrite (Hlen t Ht).
    apply Nat.ltb_lt. lia.
  - intros t1 t2 Ht1 Ht2 Hname. unfold raw_name in Hname.
    apply String.app_inj in Hname. injection Hname as Hname.
    destruct (fmt_0d_nonneg digits (core_i t1)) as [_ Hscan1];
      [specialize (Hcores t1 Ht1); lia | by apply Hwidth |].
    destruct (fmt_0d_nonneg digits (core_i t2)) as [_ Hscan2];
      [specialize (Hcores t2 Ht2); lia | by apply Hwidth |].
    rewrite Hname in Hscan1. congruence.
Qed.

(** ** The command line *)

Example main_args_examples :
  main_args ["--runtime"; "5"; "--sort"; "--cores"; "0-3"; "200"]
  = Continues (Settings 1000000 None (Some "0-3") 5 1 0, 200)
  ∧ main_args ["200"] = Continues (initial_settings, 200)
  ∧ main_args ["--max"; "200"] = Exit 1
  ∧ main_args ["--max"; "x"; "200"] = Exit 1
  ∧ main_args ["-5"] = Exit 1
  ∧ main_args ["200"; "--sort"] = Exit 1
  ∧ main_args ["--help"] = Exit 0
  ∧ main_args ["--raw"; "--help"; "200"]
    = Continues (Settings 1000000 (Some "--help") None 70 0 0, 200).
Proof. vm_compute. repeat split. Qed.




Lemma option_step_took (arg : string) (rest : list string) (s s' : settings) :
  option_step arg rest s = Continues (s', true) → rest ≠ [].
Proof.
  intros Hstep ->. unfold option_step in Hstep.
  cbn [number_follows value_follows head] in Hstep.
  repeat (case_bool_decide; try done).
Qed.






Lemma number_follows_dec (n : Z) (rest : list string) :
  0 ≤ n < two32 → number_follows (dec n :: rest) = Some (Some n).
Proof.
  intros Hn. unfold number_follows.
  by destruct (scan_range_one n Hn) as [_ ->].
Qed.

Lemma options_loop_rendered (options : list option_arg) :
  Forall option_ok options →
  ∀ s left,
  options_loop (concat (render_option <$> options) ++ left) s
  = options_loop left (foldl apply_option s options).
Proof.
  induction 1 as [|o options Ho Hoptions IH]; intros s left; [done|].
  rewrite fmap_cons. cbn [concat foldl]. rewrite <- app_assoc.
  destruct o as [n|prefix|cores|n| |]; cbn [render_option app options_loop
    dash_first negb apply_option option_ok] in *; unfold option_step.
  - rewrite bool_decide_eq_true_2 by done.
    rewrite number_follows_dec by done. apply IH.
  - rewrite (bool_decide_eq_false_2 (_ = "--max")) by done.
    rewrite bool_decide_eq_true_2 by done. cbn [value_follows head]. apply IH.
  - rewrite (bool_decide_eq_false_2 (_ = "--max")) by done.
    rewrite (bool_decide_eq_false_2 (_ = "--raw")) by done.
    rewrite bool_decide_eq_true_2 by done. cbn [value_follows head]. apply IH.
  - rewrite (bool_decide_eq_false_2 (_ = "--max")) by done.
    rewrite (bool_decide_eq_false_2 (_ = "--raw")) by done.
    rewrite (bool_decide_eq_false_2 (_ = "--cores")) by done.
    rewrite bool_decide_eq_true_2 by done.
    rewrite number_follows_dec by done. apply IH.
  - rewrite (bool_decide_eq_false_2 (_ = "--max")) by done.
    rewrite (bool_decide_eq_false_2 (_ = "--raw")) by done.
    rewrite (bool_decide_eq_false_2 (_ = "--cores")) by done.
    rewrite (bool_decide_eq_false_2 (_ = "--runtime")) by done.
    rewrite bool_decide_eq_true_2 by done. apply IH.
  - rewrite (bool_decide_eq_false_2 (_ = "--max")) by done.
    rewrite (bool_decide_eq_false_2 (_ = "--raw")) by done.
    rewrite (bool_decide_eq_false_2 (_ = "--cores")) by done.
    rewrite (bool_decide_eq_false_2 (_ = "--runtime")) by done.
    rewrite (bool_decide_eq_false_2 (_ = "--sort")) by done.
    rewrite bool_decide_eq_true_2 by done. apply IH.
Qed.

(** X24: a command line of options written out in full, with their numbers
    in decimal, followed by the threshold in decimal, is accepted; each
    option sets its own setting and no other, a later one overriding an
    earlier one; what is not set keeps its initial value (a capacity of
    1000000 records, a run of 70 seconds).  The value after [--raw] or
    [--cores] is taken as it is, whatever it looks like. *)
Theorem main_args_of_rendered (options : list option_arg) (threshold_nsec : Z) :
  Forall option_ok options →
  0 ≤ threshold_nsec < two32 →
  main_args (concat (render_option <$> options) ++ [dec threshold_nsec])
  = Continues (foldl apply_option initial_settings options, threshold_nsec).
Proof.
  intros Hoptions Hthreshold. unfold main_args.
  rewrite options_loop_rendered by done.
  destruct (dec_head threshold_nsec) as (c & rest & d & Hdec & Hc).
  assert (dash_first (dec threshold_nsec) = false) as Hdash.
  { rewrite Hdec. unfold dash_first.
    destruct c as [[] [] [] [] [] [] [] []]; try done. }
  cbn [options_loop]. rewrite Hdash. cbn [negb].
  by destruct (scan_range_one threshold_nsec Hthreshold) as [_ ->].
Qed.

(** ** The cycle counter *)

Lemma land_shiftl_low (high low : Z) :
  0 ≤ low < two32 → Z.land (Z.shiftl high 32) low = 0.
Proof.
  intros Hlow. apply Z.bits_inj'. intros n Hn.
  rewrite Z.land_spec, Z.bits_0.
  destruct (Z.lt_ge_cases n 32) as [Hlt | Hge].
  - by rewrite Z.shiftl_spec_low.
  - destruct (decide (low = 0)) as [-> | Hnz].
    + by rewrite Z.bits_0, andb_false_r.
    + rewrite (Z.bits_above_log2 low n), andb_false_r; [done | lia |].
      apply Z.lt_le_trans with 32; [|done].
      apply Z.log2_lt_pow2; [lia|]. unfold two32 in Hlow. lia.
Qed.

(** X25: on x86-64 the counter is the two 32-bit halves of [rdtsc] put
    together without loss: it is [high * 2^32 + low], a 64-bit value, and
    both halves can be read back from it. *)
Theorem frc_x86_64_halves (low high : Z) :
  0 ≤ low < two32 → 0 ≤ high < two32 →
  frc_x86_64 low high = high * two32 + low
  ∧ 0 ≤ frc_x86_64 low high < two64
  ∧ Z.land (frc_x86_64 low high) (two32 - 1) = low
  ∧ Z.shiftr (frc_x86_64 low high) 32 = high.
Proof.
  intros Hlow Hhigh.
  assert (frc_x86_64 low high = high * two32 + low) as Heq.
  { unfold frc_x86_64. rewrite wrap64_small.
    - rewrite <- Z.lxor_lor by (by apply land_shiftl_low).
      rewrite <- Z.add_nocarry_lxor by (by apply land_shiftl_low).
      rewrite Z.shiftl_mul_pow2 by lia. done.
    - rewrite Z.shiftl_mul_pow2 by lia. unfold two32, two64 in *. lia. }
  rewrite Heq. split; [done|]. split; [unfold two32, two64 in *; lia|].
  split.
  - change (two32 - 1) with (Z.ones 32). rewrite Z.land_ones by lia.
    unfold two32 in *. rewrite Z.add_comm, Z.mod_add by lia.
    apply Z.mod_small. lia.
  - rewrite Z.shiftr_div_pow2 by lia. unfold two32 in *.
    rewrite Z.add_comm, Z.div_add by lia. rewrite Z.div_small by lia. lia.
Qed.

(** ** The table of a raw file *)




Lemma records_by_pointer (t : thread) :
  (c_interruption t ≤ length (interruptions t))%nat →
  (λ p, interruptions t !!! p) <$> seq 0 (c_interruption t) = records t.
Proof.
  intros Hmem. unfold records.
  apply list_eq. intros i. rewrite !list_lookup_fmap.
  destruct (decide (i < c_interruption t)%nat) as [Hi|Hi].
  - rewrite lookup_seq_lt by done. rewrite lookup_take_lt by done. simpl.
    destruct (lookup_lt_is_Some_2 (interruptions t) i ltac:(lia)) as [r Hr].
    rewrite Hr. by rewrite (list_lookup_total_correct _ _ _ Hr).
  - rewrite lookup_seq_ge by lia. by rewrite lookup_take_ge by lia.
Qed.

Lemma to_int64_small (z : Z) : 0 ≤ z < 2 ^ 63 → to_int64 z = z.
Proof.
  intros Hz. unfold to_int64. rewrite wrap64_small by (unfold two64; lia).
  destruct (Z.ltb_spec z (2 ^ 63)); [done | lia].
Qed.

(** X27: with [--sort] the table has the rows of the records, each once,
    in the order [sort_interruptions] leaves in [sorted]: nothing is lost
    or repeated, and when all gaps are below 2^31 cycles the rows ascend
    by their gap. *)
Theorem write_thread_raw_sorted (t : thread) :
  well_formed t → 0 < cpu_mhz t → (0 < c_interruption t)%nat →
  ∃ t1 rows rows0,
    write_thread_raw true t = Some (t1, rows)
    ∧ sort_interruptions t = Some t1
    ∧ mapM (raw_row_of t None) (records t) = Some rows0
    ∧ rows ≡ₚ rows0
    ∧ (Forall (λ r, 0 ≤ diff r < two31) (records t) →
       StronglySorted Z.le (row_cycles <$> rows)).
Proof.
  intros Hwf Hmhz Hpos. pose proof Hwf as (Hmem & Hptr & Hint).
  set (row_of := λ i : interruption,
         RawRow (wrap64 (wrap64 (ts i - frc_start t) * 1000) / cpu_mhz t) None
                (to_int64 (diff i)) (wrap64 (diff i * 1000) / cpu_mhz t)).
  assert (∀ i, raw_row_of t None i = Some (row_of i)) as Hrow.
  { intros i. unfold raw_row_of, cycles_to_ns.
    destruct (Z.eqb_spec (cpu_mhz t) 0) as [|_]; [lia|]. done. }
  exists (set_sorted (order t ++ drop (c_interruption t) (sorted t)) t),
         ((λ p, row_of (interruptions t !!! p)) <$> order t),
         (row_of <$> records t).
  split; [|split; [by apply sort_interruptions_spec|split; [|split]]].
  - unfold write_thread_raw. rewrite to_int_small by lia.
    destruct (Z.eqb_spec (Z.of_nat (c_interruption t)) 0) as [|_]; [lia|].
    cbn [negb]. rewrite sort_interruptions_spec by done.
    cbn [mbind option_bind]. rewrite Nat2Z.id.
    match goal with
    | |- context [mapM ?f ?l] =>
        assert (mapM f l = Some ((λ p, row_of (interruptions t !!! p)) <$> order t))
          as ->; [|done]
    end.
    apply mapM_Some_2. apply Forall2_same_length_lookup_2.
    { by rewrite length_seq, length_fmap, length_order. }
    intros j j' row Hj Hrow'.
    apply lookup_seq in Hj as [-> Hj]. cbn [plus] in *.
    rewrite list_lookup_fmap in Hrow'.
    destruct (order t !! j) as [p|] eqn:Hp; [|done]. injection Hrow' as <-.
    cbn [sorted set_sorted set_buffers interruptions].
    rewrite lookup_app_l by (by rewrite length_order).
    rewrite Hp. cbn [mbind option_bind].
    assert (p < c_interruption t)%nat as Hlt.
    { assert (p ∈ order t) as Hin by (by eapply list_elem_of_lookup_2).
      rewrite order_perm in Hin. apply elem_of_seq in Hin. lia. }
    destruct (lookup_lt_is_Some_2 (interruptions t) p ltac:(lia)) as [i Hi].
    rewrite Hi, (list_lookup_total_correct _ _ _ Hi). cbn [mbind option_bind].
    apply Hrow.
  - apply mapM_Some_2. apply Forall2_fmap_r, Forall_Forall2_diag.
    apply Forall_forall. intros i _. apply Hrow.
  - rewrite <- (records_by_pointer t Hmem), <- list_fmap_compose.
    apply fmap_Permutation, order_perm.
  - intros Hsmall. rewrite <- list_fmap_compose.
    assert ((row_cycles ∘ (λ p, row_of (interruptions t !!! p))) <$> order t
            = ranked t) as ->; [|by apply ranked_sorted].
    unfold ranked. apply list_fmap_ext. intros j p Hp. cbn.
    apply to_int64_small.
    assert (p < c_interruption t)%nat as Hlt.
    { assert (p ∈ order t) as Hin by (by eapply list_elem_of_lookup_2).
      rewrite order_perm in Hin. apply elem_of_seq in Hin. lia. }
    rewrite Forall_forall in Hsmall.
    assert (interruptions t !!! p ∈ records t) as Hin.
    { rewrite <- (records_by_pointer t Hmem). apply list_elem_of_fmap.
      exists p. split; [done|]. apply elem_of_seq. lia. }
    specialize (Hsmall _ Hin). unfold two31 in Hsmall. lia.
Qed.

Lemma raw_row_of_ext (t t' : thread) (delta : option Z) (i : interruption) :
  cpu_mhz t' = cpu_mhz t → frc_start t' = frc_start t →
  raw_row_of t' delta i = raw_row_of t delta i.
Proof.
  intros Hmhz Hstart. unfold raw_row_of, cycles_to_ns, cycles_to_us.
  by rewrite Hmhz, Hstart.
Qed.

Lemma raw_rows_from_ext (t t' : thread) (rs : list interruption) :
  cpu_mhz t' = cpu_mhz t → frc_start t' = frc_start t →
  ∀ prev, raw_rows_from t' prev rs = raw_rows_from t prev rs.
Proof.
  intros Hmhz Hstart. induction rs as [|i rest IH]; intros prev; [done|].
  cbn [raw_rows_from]. by rewrite IH, (raw_row_of_ext t t').
Qed.

Lemma mapM_ext_in {A B} (f g : A → option B) (l : list A) :
  (∀ x, x ∈ l → f x = g x) → mapM f l = mapM g l.
Proof.
  induction l as [|x l IH]; intros Hfg; [done|].
  cbn [mapM]. rewrite (Hfg x) by (by left).
  rewrite IH; [done|]. intros y Hy. apply Hfg. by right.
Qed.

(** X28: the table of a raw file is the same whether it is written before
    or after the statistics of the thread are computed, with or without
    [--sort]: computing the statistics changes the pointer block and the
    statistics and nothing the table is made from. *)
Theorem write_thread_raw_after_stats (sort_raw : bool) (t t' : thread) :
  well_formed t →
  thread_calc_stats t = Some t' →
  snd <$> write_thread_raw sort_raw t' = snd <$> write_thread_raw sort_raw t.
Proof.
  intros Hwf Hstats. pose proof Hwf as (Hmem & Hptr & Hint).
  assert (well_formed t') as Hwf'.
  { rewrite thread_calc_stats_closed in Hstats by done.
    injection Hstats as <-. by apply stats_of_well_formed. }
  destruct (thread_calc_stats_frame t t' Hstats)
    as (Hmem' & Hc' & _ & Hmhz' & _ & Hstart' & _).
  assert (order t' = order t) as Horder by (unfold order; by rewrite Hmem', Hc').
  unfold write_thread_raw. rewrite Hc'.
  destruct (_ =? 0) eqn:Hzero; [done|].
  destruct sort_raw; cbn [negb].
  - rewrite !sort_interruptions_spec by done. cbn [mbind option_bind].
    rewrite (mapM_ext_in _
               (λ j, p ← sorted (set_sorted (order t ++ drop (c_interruption t)
                                                             (sorted t)) t) !! j;
                     i ← interruptions (set_sorted (order t ++ drop (c_interruption t)
                                                            (sorted t)) t) !! p;
                     raw_row_of (set_sorted (order t ++ drop (c_interruption t)
                                                             (sorted t)) t) None i)).
    + by destruct (mapM _ _).
    + intros j Hj. apply elem_of_seq in Hj.
      rewrite to_int_small in Hj by lia. rewrite Nat2Z.id in Hj.
      cbn [sorted set_sorted set_buffers interruptions].
      rewrite Horder, Hc', Hmem'.
      rewrite !lookup_app_l by (rewrite length_order; lia).
      destruct (order t !! j) as [p|]; [|done]. cbn [mbind option_bind].
      destruct (interruptions t !! p) as [i|]; [|done]. cbn [mbind option_bind].
      apply raw_row_of_ext; cbn; done.
  - unfold records. rewrite Hmem', Hc'.
    destruct (decide _); [|done].
    destruct (take _ _) as [|first rest]; [done|].
    rewrite (raw_rows_from_ext t t') by done.
    by destruct (raw_rows_from _ _ _).
Qed.

(** ** The further theorems at the sample data *)

Lemma doit_writes_only_its_results_witness :
  ∃ t', doit demo_global demo_thread 100 1000 demo_reads = Some t'
        ∧ length (interruptions t') = 3%nat
        ∧ set_sampling (interruptions demo_thread) 0 0 t' = demo_thread.
Proof.
  destruct (doit_defined demo_global 100 demo_thread 1000 demo_reads)
    as [t' Hrun]; [reflexivity | reflexivity |].
  exists t'. split; [exact Hrun|].
  destruct (doit_writes_only_its_results demo_global demo_thread t' 100 1000
              demo_reads Hrun) as (Hlen & _ & Hframe).
  split; [exact Hlen | exact Hframe].
Defined.

(** With a threshold of 0 every sample is kept: the three slots fill. *)
Lemma doit_threshold_zero_fills_witness :
  block_ok demo_global demo_thread
  ∧ ∃ t', doit demo_global demo_thread 0 1000 demo_reads = Some t'
          ∧ c_interruption t' = 3%nat
          ∧ overflowed demo_global t' = true.
Proof.
  split; [reflexivity|].
  destruct (doit_threshold_zero_fills demo_global demo_thread 1000 demo_reads)
    as (t' & Hrun & _ & Hc & Hover); [reflexivity | reflexivity |].
  exists t'. split; [exact Hrun|]. split; [exact Hc|].
  apply Hover. vm_compute. discriminate.
Defined.

Lemma doit_quiet_run_records_nothing_witness :
  ∃ t', doit demo_global demo_thread 100 1000 [1010; 1020; 1030] = Some t'
        ∧ c_interruption t' = 0%nat
        ∧ ∃ t'', thread_calc_stats t' = Some t'' ∧ int_max t'' = 0.
Proof.
  destruct (doit_quiet_run_records_nothing demo_global demo_thread 100 1000
              [1010; 1020; 1030])
    as (t' & Hrun & Hc & _ & _ & t'' & Hstats & _ & _ & _ & _ & Hmax & _);
    [reflexivity | reflexivity | |].
  { let l := eval vm_compute in (samples 1000 [1010; 1020; 1030]) in
    change (samples 1000 [1010; 1020; 1030]) with l.
    repeat first [apply Forall_nil_2
                 | apply Forall_cons_2; [vm_compute; reflexivity|] ]. }
  exists t'. split; [exact Hrun|]. split; [exact Hc|].
  exists t''. split; [exact Hstats | exact Hmax].
Defined.

Lemma percentile_index_is_floor_witness :
  0 < 1000 ≤ INT_MAX
  ∧ Binary64.scale 1000 Binary64.c_0_9 = Some 900
  ∧ Binary64.scale 1000 Binary64.c_0_99999 = Some 999.
Proof.
  assert (0 < 1000 ≤ INT_MAX) as Hn by (vm_compute; split; [reflexivity | discriminate]).
  split; [exact Hn|].
  destruct (percentile_index_is_floor 1000 Hn) as (H90 & _ & _ & _ & H99999 & _).
  split; [exact H90 | exact H99999].
Defined.

Lemma stats_are_recorded_gaps_witness :
  well_formed (thread_of_gaps [5; 3; 9; 1; 7])
  ∧ ∃ t', thread_calc_stats (thread_of_gaps [5; 3; 9; 1; 7]) = Some t'
          ∧ int_n t' = 5
          ∧ int_median t' ∈ gaps (thread_of_gaps [5; 3; 9; 1; 7]).
Proof.
  assert (Hwf : well_formed (thread_of_gaps [5; 3; 9; 1; 7])).
  { split; [vm_compute; lia|]. split; [vm_compute; lia|].
    vm_compute. discriminate. }
  split; [exact Hwf|].
  destruct (stats_are_recorded_gaps (thread_of_gaps [5; 3; 9; 1; 7]) Hwf)
    as (t' & Hrun & Hn & _ & Hall & _); [vm_compute; lia|].
  exists t'. split; [exact Hrun|]. split; [exact Hn|].
  apply Forall_cons_1 in Hall as [_ Hall].
  apply Forall_cons_1 in Hall as [Hmed _]. exact Hmed.
Defined.

Lemma comparator_faithful_within_2_31_witness :
  qsort_cmp_interruption (Interruption 1 3000) (Interruption 2 100) = 2900.
Proof.
  apply (proj1 (comparator_faithful_within_2_31 (Interruption 1 3000)
                  (Interruption 2 100))).
  vm_compute. split; [discriminate | reflexivity].
Defined.

Lemma sort_interruptions_permutes_witness :
  well_formed (thread_of_gaps [5; 3; 9; 1; 7])
  ∧ ∃ t1, sort_interruptions (thread_of_gaps [5; 3; 9; 1; 7]) = Some t1
          ∧ take 5 (sorted t1) ≡ₚ seq 0 5.
Proof.
  assert (Hwf : well_formed (thread_of_gaps [5; 3; 9; 1; 7])).
  { split; [vm_compute; lia|]. split; [vm_compute; lia|].
    vm_compute. discriminate. }
  split; [exact Hwf|].
  destruct (sort_interruptions_permutes (thread_of_gaps [5; 3; 9; 1; 7]) Hwf)
    as (t1 & Hrun & Hperm & _).
  exists t1. split; [exact Hrun | exact Hperm].
Defined.

(** At 2400 MHz, 4800 cycles are 2000 ns and 2 us. *)
Lemma cycles_to_us_is_ns_over_1000_witness :
  cycles_to_ns (set_timing 2400 0 0 (blank_thread 0)) 4800 = Some 2000
  ∧ cycles_to_us (set_timing 2400 0 0 (blank_thread 0)) 4800 = Some (2000 / 1000).
Proof.
  destruct (proj2 (cycles_to_us_is_ns_over_1000
                     (set_timing 2400 0 0 (blank_thread 0)) 4800))
    as (ns & us & Hns & Hus & Hrel & _);
    [reflexivity | vm_compute; discriminate | reflexivity |].
  assert (ns = 2000) as -> by (vm_compute in Hns; congruence).
  split; [exact Hns|]. rewrite Hus, Hrel. reflexivity.
Defined.

(** 100 ns at 2400 MHz are 240 cycles, which are 100 ns again. *)
Lemma threshold_round_trip_witness :
  ∃ ns, cycles_to_ns (set_timing 2400 0 0 (blank_thread 0))
          (threshold_cycles_of demo_global (set_timing 2400 0 0 (blank_thread 0)))
        = Some ns
        ∧ ns ≤ 100.
Proof.
  apply (proj1 (threshold_round_trip demo_global
                  (set_timing 2400 0 0 (blank_thread 0))
                  ltac:(vm_compute; split; reflexivity)
                  ltac:(vm_compute; split; [discriminate | reflexivity]))).
Defined.

Lemma measure_cpu_mhz_first_settled_witness :
  ∃ k before m,
    [2400000000; 2400100000] !! k = Some before
    ∧ [2400000000; 2400100000] !! S k = Some m
    ∧ Z.abs (m - before) ≤ m / 1000
    ∧ 2400 = to_unsigned (m / 1000000).
Proof.
  destruct (measure_cpu_mhz_first_settled [2400000000; 2400100000] 2400)
    as (k & before & m & H1 & H2 & H3 & H4 & _); [reflexivity|].
  exists k, before, m. repeat split; assumption.
Defined.

Lemma thread_init_allocation_witness :
  ∃ t', thread_init demo_global (blank_thread 0) = Some t'
        ∧ block_ok demo_global t'.
Proof.
  destruct (thread_init_allocation demo_global (blank_thread 0)) as (Hsmall & _);
    [vm_compute; split; [discriminate | reflexivity]|].
  destruct Hsmall as (t' & Hinit & _ & Hblock & _); [reflexivity|].
  exists t'. split; [exact Hinit | exact Hblock].
Defined.

Lemma thread_main_result_witness :
  ∃ w, thread_main demo_env (World demo_global (blank_thread 0) []) = Some (tt, w)
       ∧ n_threads_started (w_g w) = 1
       ∧ cpu_mhz (w_t w) = 2400
       ∧ frc_start (w_t w) = 900.
Proof.
  assert (∃ w, thread_main demo_env (World demo_global (blank_thread 0) [])
               = Some (tt, w)) as [w Hrun]
    by (eexists; vm_compute; reflexivity).
  exists w. split; [exact Hrun|].
  destruct (thread_main_result demo_env demo_global (blank_thread 0) w)
    as (Hs & _ & _ & _ & Hmhz & Hstart & _);
    [vm_compute; split; [discriminate | reflexivity] | exact Hrun |].
  split; [exact Hs|]. split; [|exact Hstart].
  change (measure_cpu_mhz (env_estimates demo_env)) with (Some 2400) in Hmhz.
  injection Hmhz as Hmhz. symmetry. exact Hmhz.
Defined.

Lemma stats_after_thread_main_witness :
  ∃ w t2,
    thread_main demo_env (World demo_global (blank_thread 0) []) = Some (tt, w)
    ∧ thread_calc_stats (w_t w) = Some t2
    ∧ int_n t2 = Z.of_nat (c_interruption (w_t w)).
Proof.
  assert (∃ w, thread_main demo_env (World demo_global (blank_thread 0) [])
               = Some (tt, w)) as [w Hrun]
    by (eexists; vm_compute; reflexivity).
  destruct (stats_after_thread_main demo_env demo_global (blank_thread 0) w)
    as (t2 & Hstats & Hn & _);
    [vm_compute; split; reflexivity | exact Hrun |].
  exists w, t2. split; [exact Hrun|]. split; [exact Hstats | exact Hn].
Defined.

(** A run asked to last 0 seconds gets no slot, and the first sample then
    has no place to go. *)
Lemma zero_capacity_always_overflows_witness :
  (∃ g' counted,
     calc_max_interruptions demo_global [demo_thread] 0 = Some (g', counted)
     ∧ max_interruptions g' = 0)
  ∧ doit (set_max_interruptions 0 demo_global) (blank_thread 0) 100 1000 [1010]
    = None.
Proof.
  split.
  - apply (proj1 (zero_capacity_always_overflows demo_global [demo_thread])).
    vm_compute. discriminate.
  - destruct (proj2 (zero_capacity_always_overflows
                       (set_max_interruptions 0 demo_global) []))
      as [Hdoit _]; [reflexivity|].
    apply Hdoit. reflexivity.
Defined.

Lemma assign_cores_first_usable_witness :
  assign_cores [true; false; true; true] 4 2 0 = Some [0; 2]%nat
  ∧ StronglySorted lt [0; 2]%nat
  ∧ assign_cores [true; false; true; true] 4 4 0 = None.
Proof.
  split; [reflexivity|].
  destruct (proj2 (assign_cores_first_usable [true; false; true; true] 4 2)
              [0; 2]%nat) as (_ & Hsorted & _); [reflexivity|].
  split; [exact Hsorted|].
  rewrite (proj1 (assign_cores_first_usable [true; false; true; true] 4 4)).
  reflexivity.
Defined.

Lemma percentiles_nearest_rank_small_gaps_witness :
  well_formed (thread_of_gaps [5; 3; 9; 1; 7])
  ∧ ∃ t', thread_calc_stats (thread_of_gaps [5; 3; 9; 1; 7]) = Some t'
          ∧ int_n t' = 5
          ∧ int_min t'
            = merge_sort Z.le (gaps (thread_of_gaps [5; 3; 9; 1; 7])) !!! 0%nat.
Proof.
  assert (Hwf : well_formed (thread_of_gaps [5; 3; 9; 1; 7])).
  { split; [vm_compute; lia|]. split; [vm_compute; lia|].
    vm_compute. discriminate. }
  split; [exact Hwf|].
  destruct (percentiles_nearest_rank_small_gaps (thread_of_gaps [5; 3; 9; 1; 7]) Hwf)
    as (t' & Hrun & Hn & Hmin & _); [vm_compute; lia | |].
  { let l := eval vm_compute in (records (thread_of_gaps [5; 3; 9; 1; 7])) in
    change (records (thread_of_gaps [5; 3; 9; 1; 7])) with l.
    repeat first [apply Forall_nil_2
                 | apply Forall_cons_2;
                   [vm_compute; split; [discriminate | reflexivity]|] ]. }
  exists t'. split; [exact Hrun|]. split; [exact Hn | exact Hmin].
Defined.

Lemma percentiles_monotone_small_gaps_witness :
  well_formed (thread_of_gaps [5; 3; 9; 1; 7])
  ∧ ∃ t', thread_calc_stats (thread_of_gaps [5; 3; 9; 1; 7]) = Some t'
          ∧ int_min t' ≤ int_median t' ∧ int_99999 t' ≤ int_max t'.
Proof.
  assert (Hwf : well_formed (thread_of_gaps [5; 3; 9; 1; 7])).
  { split; [vm_compute; lia|]. split; [vm_compute; lia|].
    vm_compute. discriminate. }
  split; [exact Hwf|].
  destruct (percentiles_monotone_small_gaps (thread_of_gaps [5; 3; 9; 1; 7]) Hwf)
    as (t' & Hrun & Hmin & _ & _ & _ & _ & _ & Hmax); [vm_compute; lia | |].
  { let l := eval vm_compute in (records (thread_of_gaps [5; 3; 9; 1; 7])) in
    change (records (thread_of_gaps [5; 3; 9; 1; 7])) with l.
    repeat first [apply Forall_nil_2
                 | apply Forall_cons_2;
                   [vm_compute; split; [discriminate | reflexivity]|] ]. }
  exists t'. split; [exact Hrun|]. split; [exact Hmin | exact Hmax].
Defined.

(** The list 0-3,8,5-4 names the cores 0, 1, 2, 3 and 8. *)
Lemma parse_comma_sep_ranges_of_rendered_witness :
  render [Span 0 3; One 8; Span 5 4] = "0-3,8,5-4"
  ∧ parse_comma_sep_ranges (render [Span 0 3; One 8; Span 5 4])
    = Parsed [0; 1; 2; 3; 8].
Proof.
  split; [vm_compute; reflexivity|].
  rewrite (parse_comma_sep_ranges_of_rendered [Span 0 3; One 8; Span 5 4]).
  - vm_compute. reflexivity.
  - repeat first [apply Forall_nil_2
                 | apply Forall_cons_2; [unfold item_ok, two32; lia|] ].
  - vm_compute. discriminate.
Defined.

Lemma parse_comma_sep_ranges_comma_witness :
  parse_comma_sep_ranges ("0-1" +:+ String "," "7") = Parsed ([0; 1] ++ [7]).
Proof.
  apply (proj1 (parse_comma_sep_ranges_comma "0-1" "7") [0; 1] [7]).
  - vm_compute. reflexivity.
  - vm_compute. reflexivity.
  - vm_compute. discriminate.
Defined.

(** [--cores 5,6] on eight processors: the threads go to the cores 0 and 1. *)
Lemma main_cores_counts_the_list_witness :
  render [One 5; One 6] = "5,6"
  ∧ main_cores (Some (render [One 5; One 6])) (replicate 8 true) 8
    = Continues [0; 1]%nat.
Proof.
  split; [vm_compute; reflexivity|].
  rewrite (main_cores_counts_the_list [One 5; One 6] (replicate 8 true) 8).
  - vm_compute. reflexivity.
  - repeat first [apply Forall_nil_2
                 | apply Forall_cons_2; [unfold item_ok, two32; lia|] ].
  - vm_compute. discriminate.
Defined.

(** Threads on the cores 3 and 12 write to [raw.03] and [raw.12]. *)
Lemma write_raw_files_witness :
  write_raw (λ _, true) [blank_thread 3; blank_thread 12] "raw"
  = Some (0, [("raw.03", blank_thread 3); ("raw.12", blank_thread 12)]).
Proof.
  destruct (write_raw_files (λ _, true) [blank_thread 3; blank_thread 12] "raw")
    as (Hrun & _).
  - repeat first [apply Forall_nil_2
                 | apply Forall_cons_2; [cbn [core_i blank_thread]; lia|] ].
  - rewrite Hrun. vm_compute. reflexivity.
Defined.


(** The later [--runtime] wins; [--max] keeps its initial value. *)
Lemma main_args_of_rendered_witness :
  concat (render_option <$> [OptRuntime 5; OptSort; OptRuntime 9]) ++ [dec 200]
  = ["--runtime"; "5"; "--sort"; "--runtime"; "9"; "200"]
  ∧ main_args (concat (render_option <$> [OptRuntime 5; OptSort; OptRuntime 9])
               ++ [dec 200])
    = Continues (Settings 1000000 None None 9 1 0, 200).
Proof.
  split; [vm_compute; reflexivity|].
  rewrite (main_args_of_rendered [OptRuntime 5; OptSort; OptRuntime 9] 200).
  - vm_compute. reflexivity.
  - repeat first [apply Forall_nil_2
                 | apply Forall_cons_2; [unfold option_ok, two32; lia|] ].
  - unfold two32. lia.
Defined.

Lemma frc_x86_64_halves_witness :
  frc_x86_64 5 1 = 4294967301
  ∧ Z.shiftr (frc_x86_64 5 1) 32 = 1.
Proof.
  destruct (frc_x86_64_halves 5 1) as (Hvalue & _ & _ & Hhigh);
    [unfold two32; lia | unfold two32; lia |].
  split; [exact Hvalue | exact Hhigh].
Defined.


Lemma write_thread_raw_sorted_witness :
  well_formed (set_timing 2400 0 0 (thread_of_gaps [5; 3; 9; 1; 7]))
  ∧ ∃ t1 rows,
      write_thread_raw true (set_timing 2400 0 0 (thread_of_gaps [5; 3; 9; 1; 7]))
      = Some (t1, rows)
      ∧ StronglySorted Z.le (row_cycles <$> rows).
Proof.
  assert (Hwf : well_formed (set_timing 2400 0 0 (thread_of_gaps [5; 3; 9; 1; 7]))).
  { split; [vm_compute; lia|]. split; [vm_compute; lia|].
    vm_compute. discriminate. }
  split; [exact Hwf|].
  destruct (write_thread_raw_sorted
              (set_timing 2400 0 0 (thread_of_gaps [5; 3; 9; 1; 7])) Hwf)
    as (t1 & rows & rows0 & Hrun & _ & _ & _ & Hsorted);
    [reflexivity | vm_compute; lia |].
  exists t1, rows. split; [exact Hrun|]. apply Hsorted.
  let l := eval vm_compute in
    (records (set_timing 2400 0 0 (thread_of_gaps [5; 3; 9; 1; 7]))) in
  change (records (set_timing 2400 0 0 (thread_of_gaps [5; 3; 9; 1; 7]))) with l.
  repeat first [apply Forall_nil_2
               | apply Forall_cons_2;
                 [vm_compute; split; [discriminate | reflexivity]|] ].
Defined.

Lemma write_thread_raw_after_stats_witness :
  well_formed (set_timing 2400 0 0 (thread_of_gaps [5; 3; 9; 1; 7]))
  ∧ ∃ t',
      thread_calc_stats (set_timing 2400 0 0 (thread_of_gaps [5; 3; 9; 1; 7]))
      = Some t'
      ∧ snd <$> write_thread_raw false t'
        = snd <$> write_thread_raw false
                    (set_timing 2400 0 0 (thread_of_gaps [5; 3; 9; 1; 7])).
Proof.
  assert (Hwf : well_formed (set_timing 2400 0 0 (thread_of_gaps [5; 3; 9; 1; 7]))).
  { split; [vm_compute; lia|]. split; [vm_compute; lia|].
    vm_compute. discriminate. }
  split; [exact Hwf|].
  exists (stats_of (set_timing 2400 0 0 (thread_of_gaps [5; 3; 9; 1; 7]))).
  assert (thread_calc_stats (set_timing 2400 0 0 (thread_of_gaps [5; 3; 9; 1; 7]))
          = Some (stats_of (set_timing 2400 0 0 (thread_of_gaps [5; 3; 9; 1; 7]))))
    as Hrun by (vm_compute; reflexivity).
  split; [exact Hrun|].
  exact (write_thread_raw_after_stats false _ _ Hwf Hrun).
Defined.
